(** * Analizador léxico y sintáctico: a shallow embedding of [app.py]

    The development follows the source file top-down:
    - the fragment of Python's [re] that the tokenizer relies on,
      as a backtracking matcher with ordered alternatives and greedy
      repetition;
    - [analizar_lexico], built on [finditer] and [splitlines];
    - the class [Parser] as a record with explicit state passing, each
      method a function on that record;
    - [analizar_sintactico];
    - the view [index], from the request to what it returns;
    - the module [Stack]: the parser and the view under the bound of
      CPython on the depth of calls.

    A Python [str] is a sequence of code points.  Source text is modelled
    as a [string] whose characters are the code points U+0000..U+00FF;
    the classes [\d], [\w], [\s], the method [str.lower] and the line
    boundaries of [str.splitlines] are those of CPython on that range. *)

From Stdlib Require Import String Ascii List Bool Arith NArith ZArith Lia.
From Stdlib Require Import DecimalString Decimal Sorted.
Import ListNotations.
Local Open Scope list_scope.
Local Open Scope string_scope.

Set Implicit Arguments.

(** ** Characters *)

Definition code (c : ascii) : N := N_of_ascii c.

Definition between (lo hi : N) (c : ascii) : bool :=
  ((lo <=? code c) && (code c <=? hi))%N.

Definition newline : ascii := "010"%char.
Definition dquote : ascii := "034"%char.

(** [\d] : the decimal digits; below U+0100 these are [0-9]. *)
Definition is_digit (c : ascii) : bool := between 48 57 c.

(** [[A-Za-z_]] *)
Definition is_ident_start (c : ascii) : bool :=
  between 65 90 c || between 97 122 c || (code c =? 95)%N.

(** [\w] : alphanumeric code points and the underscore.  Below U+0100 the
    alphanumerics are the ASCII letters and digits, the ordinal indicators
    U+00AA and U+00BA, the micro sign U+00B5, the superscript digits
    U+00B2, U+00B3, U+00B9, the vulgar fractions U+00BC..U+00BE and the
    letters U+00C0..U+00FF other than the signs U+00D7 and U+00F7. *)
Definition is_word (c : ascii) : bool :=
  is_digit c || is_ident_start c
  || (code c =? 170)%N || (code c =? 181)%N || (code c =? 186)%N
  || between 178 179 c || (code c =? 185)%N || between 188 190 c
  || between 192 214 c || between 216 246 c || between 248 255 c.

(** [\s] : white space; below U+0100 these are U+0009..U+000D,
    U+001C..U+0020, U+0085 and U+00A0. *)
Definition is_space (c : ascii) : bool :=
  between 9 13 c || between 28 32 c || (code c =? 133)%N || (code c =? 160)%N.

(** [.] without DOTALL: anything but a line feed. *)
Definition is_dot (c : ascii) : bool := negb (Ascii.eqb c newline).

Fixpoint in_string (c : ascii) (s : string) : bool :=
  match s with
  | EmptyString => false
  | String d s' => Ascii.eqb c d || in_string c s'
  end.

(** [str.lower] on one code point below U+0100. *)
Definition lower_char (c : ascii) : ascii :=
  if between 65 90 c || between 192 214 c || between 216 222 c
  then ascii_of_N (code c + 32) else c.

Fixpoint lower (s : string) : string :=
  match s with
  | EmptyString => EmptyString
  | String c s' => String (lower_char c) (lower s')
  end.

(** ** Regular expressions

    The constructs that occur in [token_specs].  [rematch r s k] runs the
    backtracking search of [re] for [r] at the start of [s]: alternatives
    are tried left to right, a repetition takes as many rounds as it can
    before giving one back, and [k] stands for what has to match after
    [r].  The answer is the text left over after the whole match. *)

Inductive regex : Type :=
| Eps : regex
| Cls : (ascii -> bool) -> regex
| Cat : regex -> regex -> regex
| Alt : regex -> regex -> regex
| Star : regex -> regex.

Definition Lit (c : ascii) : regex := Cls (Ascii.eqb c).
Definition OneOf (s : string) : regex := Cls (fun c => in_string c s).
Definition NoneOf (s : string) : regex := Cls (fun c => negb (in_string c s)).
Definition Plus (r : regex) : regex := Cat r (Star r).
Definition Opt (r : regex) : regex := Alt r Eps.

Fixpoint Str (s : string) : regex :=
  match s with
  | EmptyString => Eps
  | String c s' => Cat (Lit c) (Str s')
  end.

Fixpoint alts (rs : list regex) (last : regex) : regex :=
  match rs with
  | [] => last
  | r :: rs' => Alt r (alts rs' last)
  end.

Fixpoint rematch (r : regex) (s : string) (k : string -> option string)
  {struct r} : option string :=
  match r with
  | Eps => k s
  | Cls cls =>
      match s with
      | String c s' => if cls c then k s' else None
      | EmptyString => None
      end
  | Cat r1 r2 => rematch r1 s (fun s' => rematch r2 s' k)
  | Alt r1 r2 =>
      match rematch r1 s k with
      | Some rest => Some rest
      | None => rematch r2 s k
      end
  | Star r1 =>
      (fix star (n : nat) (s : string) {struct n} : option string :=
         match n with
         | O => k s
         | S n' =>
             match rematch r1 s
                     (fun s' => if (String.length s' <? String.length s)%nat
                                then star n' s' else None)
             with
             | Some rest => Some rest
             | None => k s
             end
         end) (String.length s) s
  end.

(** ** Analizador léxico *)

Definition RESERVADAS : list string :=
  [ "programa"; "int"; "float"; "double"; "char"; "void";
    "for"; "while"; "if"; "else";
    "read"; "printf"; "end"; "return"; "system"; "print" ].

Definition mem (x : string) (l : list string) : bool :=
  existsb (String.eqb x) l.

Definition LINE_COMMENT := "LINE_COMMENT".
Definition NUMERO := "NUMERO".
Definition CADENA := "CADENA".
Definition IDENTIFICADOR := "IDENTIFICADOR".
Definition SIMBOLO := "SIMBOLO".
Definition DELIMITADOR := "DELIMITADOR".
Definition ESPACIO := "ESPACIO".
Definition DESCONOCIDO := "DESCONOCIDO".
Definition PALABRA_RESERVADA := "PALABRA_RESERVADA".

Definition nl : string := String newline EmptyString.
Definition dq : string := String dquote EmptyString.

(** The patterns of [token_specs], in the order of the source:
    LINE_COMMENT  //[^\n]*
    NUMERO        \d+(\.\d+)?
    CADENA        a double quote, [^\n]* without double quotes, a double quote
    IDENTIFICADOR [A-Za-z_]\w*
    SIMBOLO       <=|>=|==|!=|\+\+|--|[=+\-*/%<>]
    DELIMITADOR   [;(),{}\.\[\]]
    ESPACIO       \s+
    DESCONOCIDO   .                                                       *)
Definition re_LINE_COMMENT : regex := Cat (Str "//") (Star (NoneOf nl)).
Definition re_NUMERO : regex :=
  Cat (Plus (Cls is_digit)) (Opt (Cat (Lit ".") (Plus (Cls is_digit)))).
Definition re_CADENA : regex :=
  Cat (Lit dquote) (Cat (Star (NoneOf (dq ++ nl))) (Lit dquote)).
Definition re_IDENTIFICADOR : regex :=
  Cat (Cls is_ident_start) (Star (Cls is_word)).
Definition re_SIMBOLO : regex :=
  alts [Str "<="; Str ">="; Str "=="; Str "!="; Str "++"; Str "--"]
       (OneOf "=+-*/%<>").
Definition re_DELIMITADOR : regex := OneOf ";(),{}.[]".
Definition re_ESPACIO : regex := Plus (Cls is_space).
Definition re_DESCONOCIDO : regex := Cls is_dot.

Definition token_specs : list (string * regex) :=
  [ (LINE_COMMENT,  re_LINE_COMMENT);
    (NUMERO,        re_NUMERO);
    (CADENA,        re_CADENA);
    (IDENTIFICADOR, re_IDENTIFICADOR);
    (SIMBOLO,       re_SIMBOLO);
    (DELIMITADOR,   re_DELIMITADOR);
    (ESPACIO,       re_ESPACIO);
    (DESCONOCIDO,   re_DESCONOCIDO) ].

(** The pattern [regex_tokens] is the alternation of the named groups of
    [token_specs], in that order: the first group that matches at the
    current position gives [lastgroup] and the text left after it. *)
Fixpoint match_specs (specs : list (string * regex)) (s : string)
  : option (string * string) :=
  match specs with
  | [] => None
  | (name, r) :: specs' =>
      match rematch r s Some with
      | Some rest => Some (name, rest)
      | None => match_specs specs' s
      end
  end.

Definition regex_tokens (s : string) : option (string * string) :=
  match_specs token_specs s.

(** A match object: [m.start()], [m.lastgroup], [m.group(0)]. *)
Record Match : Type := mkMatch {
  m_start : nat;
  m_lastgroup : string;
  m_group : string
}.

Fixpoint drop (n : nat) (s : string) : string :=
  match n, s with
  | S n', String _ s' => drop n' s'
  | _, _ => s
  end.

Fixpoint take (n : nat) (s : string) : string :=
  match n, s with
  | S n', String c s' => String c (take n' s')
  | _, _ => EmptyString
  end.

(** [re.finditer]: at each position look for a match; where there is none
    move on by one character; after a match go on from its end.  No group
    of [token_specs] matches the empty text ([regex_tokens_sound] below),
    so a match always moves the position; an empty one is taken to move
    it by one character.  [fuel] bounds the number of rounds and the
    length of the text is enough ([finditer_from_covers]). *)
Fixpoint finditer_from (fuel : nat) (pos : nat) (s : string) : list Match :=
  match fuel with
  | O => []
  | S fuel' =>
      match s with
      | EmptyString => []
      | String _ s' =>
          match regex_tokens s with
          | None => finditer_from fuel' (S pos) s'
          | Some (g, rest) =>
              let n := String.length s - String.length rest in
              mkMatch pos g (take n s)
                :: finditer_from fuel' (pos + Nat.max n 1) (drop (Nat.max n 1) s)
          end
      end
  end.

Definition finditer (codigo : string) : list Match :=
  finditer_from (String.length codigo) 0 codigo.

(** [str.splitlines(keepends=True)]: below U+0100 a line ends after
    LF, CR, CR LF, VT, FF, FS, GS, RS or NEL. *)
Definition is_linebreak (c : ascii) : bool :=
  between 10 13 c || between 28 30 c || (code c =? 133)%N.

Definition cons_line (c : ascii) (ls : list string) : list string :=
  match ls with
  | [] => [String c EmptyString]
  | l :: ls' => String c l :: ls'
  end.

Fixpoint splitlines (s : string) : list string :=
  match s with
  | EmptyString => []
  | String c s' =>
      if is_linebreak c then
        match s' with
        | String d s'' =>
            if (code c =? 13)%N && (code d =? 10)%N
            then String c (String d EmptyString) :: splitlines s''
            else String c EmptyString :: splitlines s'
        | EmptyString => [String c EmptyString]
        end
      else cons_line c (splitlines s')
  end.

Record Token : Type := mkToken {
  tipo : string;
  lexema : string;
  linea : nat;
  columna : Z
}.

(** The inner loop
    [while linea-1 < len(lineas) and m.start() >= col_base + len(lineas[linea-1])],
    run on [pend], the lines from index [linea-1] on ([linea] starts at
    1 and only grows). *)
Fixpoint avanzar_linea (pend : list string) (start linea col_base : nat)
  : nat * nat :=
  match pend with
  | [] => (linea, col_base)
  | l :: pend' =>
      if (col_base + String.length l <=? start)%nat
      then avanzar_linea pend' start (linea + 1) (col_base + String.length l)
      else (linea, col_base)
  end.

Record LexState : Type := mkLexState {
  ls_tokens : list Token;
  ls_linea : nat;
  ls_col_base : nat
}.

(** One round of the loop [for m in re.finditer(regex_tokens, codigo)]. *)
Definition lex_step (lineas : list string) (st : LexState) (m : Match) : LexState :=
  let tipo := m_lastgroup m in
  let lexema := m_group m in
  let '(linea, col_base) :=
    avanzar_linea (skipn (ls_linea st - 1) lineas) (m_start m)
                  (ls_linea st) (ls_col_base st) in
  let columna := (Z.of_nat (m_start m) - Z.of_nat col_base + 1)%Z in
  if (tipo =? ESPACIO) || (tipo =? LINE_COMMENT) then
    mkLexState (ls_tokens st) linea col_base
  else
    let tipo :=
      if (tipo =? IDENTIFICADOR) && mem (lower lexema) RESERVADAS
      then PALABRA_RESERVADA else tipo in
    mkLexState (ls_tokens st ++ [mkToken tipo lexema linea columna])%list linea col_base.

Definition lex_loop (lineas : list string) (ms : list Match) (st : LexState)
  : LexState :=
  fold_left (lex_step lineas) ms st.

Definition analizar_lexico (codigo : string) : list Token :=
  let lineas := splitlines codigo in
  ls_tokens (lex_loop lineas (finditer codigo) (mkLexState [] 1 0)).

(** ** Analizador sintáctico

    The object [Parser]: the token list [t], the cursor [i] and the
    diagnostics [err].  A method is a function from the object before the
    call to its result and the object after it.  The productions call one
    another and loop, so they take [fuel], a bound on the depth of calls
    and on the rounds of each loop; [None] is returned only when it runs
    out.  This is the parser on a stack without bound: the bound of the
    interpreter on the depth of calls, and the RecursionError that it
    raises, are in the module [Stack] below. *)

Record Parser : Type := mkParser {
  t : list Token;
  i : nat;
  err : list string
}.

(** [Parser(tokens)] *)
Definition Parser_init (tokens : list Token) : Parser := mkParser tokens 0 [].

Definition M (A : Type) : Type := Parser -> option (A * Parser).

Definition ret {A : Type} (a : A) : M A := fun p => Some (a, p).

Definition bind {A B : Type} (c : M A) (f : A -> M B) : M B :=
  fun p => match c p with
           | Some (a, p') => f a p'
           | None => None
           end.

Definition out_of_fuel {A : Type} : M A := fun _ => None.

Declare Scope parser_scope.
Delimit Scope parser_scope with parser.
Notation "x <- c ;; k" := (bind c (fun x => k))
  (at level 61, c at next level, right associativity) : parser_scope.
Notation "c ;; k" := (bind c (fun _ => k))
  (at level 61, right associativity) : parser_scope.
Local Open Scope parser_scope.

(** [self.i += 1] *)
Definition avanzar : M unit :=
  fun p => Some (tt, mkParser (t p) (i p + 1) (err p)).

(** [self.err.append(msg)] *)
Definition error (msg : string) : M unit :=
  fun p => Some (tt, mkParser (t p) (i p) (err p ++ [msg])%list).

Definition peek (k : Z) : M (option Token) :=
  fun p =>
    let j := (Z.of_nat (i p) + k)%Z in
    Some (if ((0 <=? j) && (j <? Z.of_nat (List.length (t p))))%Z
          then nth_error (t p) (Z.to_nat j) else None,
          p).

(** Text of the diagnostics.  The accented letters are the code points
    U+00E1, U+00E9, U+00ED and U+00F3. *)
Definition a' : string := String "225"%char EmptyString.
Definition e' : string := String "233"%char EmptyString.
Definition i' : string := String "237"%char EmptyString.
Definition o' : string := String "243"%char EmptyString.

(** [str(n)] for a line number. *)
Definition str (n : nat) : string := NilEmpty.string_of_uint (Nat.to_uint n).

(** [', '.join]-style [sep.join(l)]. *)
Fixpoint join (sep : string) (l : list string) : string :=
  match l with
  | [] => ""
  | [x] => x
  | x :: l' => x ++ sep ++ join sep l'
  end.

(** Truth value of an optional text argument: [None] and the empty text
    are false. *)
Definition truthy (o : option string) : bool :=
  match o with
  | Some s => negb (s =? "")
  | None => false
  end.

Definition is_or_none (o : option string) (s : string) : bool :=
  match o with
  | None => true
  | Some x => s =? x
  end.

(** [tok and (tipo is None or tok['tipo'] == tipo)
         and (lexema is None or tok['lexema'] == lexema)] *)
Definition acepta (tipo_ lexema_ : option string) (tok : option Token) : bool :=
  match tok with
  | Some tk => is_or_none tipo_ (tipo tk) && is_or_none lexema_ (lexema tk)
  | None => false
  end.

Definition found (tok : option Token) : string :=
  match tok with
  | None => "EOF"
  | Some tk => tipo tk ++ "('" ++ lexema tk ++ "')"
  end.

(** The list [esperado]: the kind, when one is asked for, then the lexeme
    between single quotes, when one is asked for. *)
Definition esperado (tipo_ lexema_ : option string) : list string :=
  List.app
    (if truthy tipo_ then [match tipo_ with Some x => x | None => "" end] else [])
    (if truthy lexema_
     then ["'" ++ match lexema_ with Some x => x | None => "" end ++ "'"]
     else []).

Definition expected_found (tipo_ lexema_ : option string) (tok : option Token)
  : string :=
  "Se esperaba " ++ join " y " (esperado tipo_ lexema_)
    ++ " pero se encontr" ++ o' ++ " " ++ found tok
    ++ " (l" ++ i' ++ "nea "
    ++ match tok with Some tk => str (linea tk) | None => "-" end ++ ").".

Definition match_ (tipo_ lexema_ msg : option string) : M (option Token) :=
  tok <- peek 0 ;;
  if acepta tipo_ lexema_ tok then
    avanzar ;;
    ret tok
  else
    let msg := match msg with
               | None => expected_found tipo_ lexema_ tok
               | Some m => m
               end in
    error msg ;;
    (match tok with Some _ => avanzar | None => ret tt end) ;;
    ret None.

(** [while cond: body], at most [n] rounds. *)
Fixpoint while_ (n : nat) (cond : M bool) (body : M unit) : M unit :=
  c <- cond ;;
  if c then
    match n with
    | O => out_of_fuel
    | S n' => body ;; while_ n' cond body
    end
  else ret tt.

(** [self.peek() and f(self.peek())] *)
Definition peek_is (f : Token -> bool) : M bool :=
  tok <- peek 0 ;;
  ret match tok with Some tk => f tk | None => false end.

Definition is_tok (tipo_ lexema_ : string) (tk : Token) : bool :=
  (tipo tk =? tipo_) && (lexema tk =? lexema_).

(** The three productions of expressions call one another:
    [parse_factor] calls [parse_expr], which calls [parse_term], which
    calls [parse_factor].  Each body is written once, with the method it
    calls as a parameter of that name, and the three are tied together
    below by recursion on the fuel. *)

(** expr := term (('+'|'-') term)* *)
Definition expr_body (n : nat) (parse_term : M unit) : M unit :=
  parse_term ;;
  while_ n (peek_is (fun tk => (tipo tk =? SIMBOLO) && mem (lexema tk) ["+"; "-"]))
         (avanzar ;;
          parse_term).

(** term := factor (('*'|'/') factor)* *)
Definition term_body (n : nat) (parse_factor : M unit) : M unit :=
  parse_factor ;;
  while_ n (peek_is (fun tk => (tipo tk =? SIMBOLO) && mem (lexema tk) ["*"; "/"]))
         (avanzar ;;
          parse_factor).

(** factor := IDENT | NUMERO | '(' expr ')' *)
Definition factor_body (parse_expr : M unit) : M unit :=
  tok <- peek 0 ;;
  match tok with
  | None => error ("Expresi" ++ o' ++ "n incompleta.")
  | Some tk =>
      if mem (tipo tk) [IDENTIFICADOR; NUMERO] then avanzar
      else if is_tok DELIMITADOR "(" tk then
        avanzar ;;
        parse_expr ;;
        match_ (Some DELIMITADOR) (Some ")")
               (Some ("Falta ')' para cerrar la expresi" ++ o' ++ "n.")) ;;
        ret tt
      else
        error ("Factor inv" ++ a' ++ "lido en la expresi" ++ o' ++ "n: "
               ++ tipo tk ++ "('" ++ lexema tk ++ "') (l" ++ i' ++ "nea "
               ++ str (linea tk) ++ ").") ;;
        avanzar
  end.

Fixpoint parse_expr (n : nat) : M unit :=
  match n with
  | O => out_of_fuel
  | S n' => expr_body n' (parse_term n')
  end
with parse_term (n : nat) : M unit :=
  match n with
  | O => out_of_fuel
  | S n' => term_body n' (parse_factor n')
  end
with parse_factor (n : nat) : M unit :=
  match n with
  | O => out_of_fuel
  | S n' => factor_body (parse_expr n')
  end.

(** assign := IDENT '=' expr ';' *)
Definition parse_assign (n : nat) : M unit :=
  match_ (Some IDENTIFICADOR) None None ;;
  match_ (Some SIMBOLO) (Some "=") (Some ("Falta '=' en la asignaci" ++ o' ++ "n.")) ;;
  parse_expr n ;;
  match_ (Some DELIMITADOR) (Some ";")
         (Some ("Falta ';' al final de la asignaci" ++ o' ++ "n.")) ;;
  ret tt.

(** printf := 'printf' '(' CADENA ')' ';' *)
Definition parse_printf : M unit :=
  match_ (Some PALABRA_RESERVADA) (Some "printf") None ;;
  match_ (Some DELIMITADOR) (Some "(") (Some "Falta '(' en printf.") ;;
  match_ (Some CADENA) None (Some "Falta la cadena dentro de printf.") ;;
  match_ (Some DELIMITADOR) (Some ")") (Some "Falta ')' al cerrar printf.") ;;
  match_ (Some DELIMITADOR) (Some ";") (Some "Falta ';' al final de printf.") ;;
  ret tt.

(** read := 'read' IDENT ';' *)
Definition parse_read : M unit :=
  match_ (Some PALABRA_RESERVADA) (Some "read") None ;;
  match_ (Some IDENTIFICADOR) None
         (Some ("Se esperaba un identificador despu" ++ e' ++ "s de 'read'.")) ;;
  match_ (Some DELIMITADOR) (Some ";")
         (Some ("Falta ';' despu" ++ e' ++ "s de la instrucci" ++ o' ++ "n 'read'.")) ;;
  ret tt.

(** decl := 'int' id (',' id)* ';' *)
Definition parse_decl (n : nat) : M unit :=
  match_ (Some PALABRA_RESERVADA) (Some "int") None ;;
  match_ (Some IDENTIFICADOR) None
         (Some ("Se esperaba un identificador en la declaraci" ++ o' ++ "n.")) ;;
  while_ n (peek_is (is_tok DELIMITADOR ","))
         (avanzar ;;
          match_ (Some IDENTIFICADOR) None
                 (Some ("Se esperaba un identificador despu" ++ e' ++ "s de ','.")) ;;
          ret tt) ;;
  match_ (Some DELIMITADOR) (Some ";")
         (Some ("Falta ';' al final de la declaraci" ++ o' ++ "n.")) ;;
  ret tt.

(** stmt := decl | read | printf | assign | endstmt *)
Definition parse_stmt (n : nat) : M unit :=
  tok <- peek 0 ;;
  match tok with
  | None => error "Fin inesperado dentro del bloque."
  | Some tk =>
      if is_tok PALABRA_RESERVADA "int" tk then parse_decl n
      else if is_tok PALABRA_RESERVADA "read" tk then parse_read
      else if is_tok PALABRA_RESERVADA "printf" tk then parse_printf
      else if is_tok PALABRA_RESERVADA "end" tk then
        avanzar ;;
        match_ (Some DELIMITADOR) (Some ";")
               (Some ("Despu" ++ e' ++ "s de 'end' debe ir ';'.")) ;;
        ret tt
      else if tipo tk =? IDENTIFICADOR then parse_assign n
      else
        error ("Sentencia no v" ++ a' ++ "lida iniciando en "
               ++ tipo tk ++ "('" ++ lexema tk ++ "') (l" ++ i' ++ "nea "
               ++ str (linea tk) ++ ").") ;;
        avanzar
  end.

(** programa := 'programa' IDENT '(' ')' '{' stmt* '}' *)
Definition parse_programa (n : nat) : M unit :=
  match_ (Some PALABRA_RESERVADA) (Some "programa")
         (Some "Se esperaba la palabra 'programa' al inicio.") ;;
  match_ (Some IDENTIFICADOR) None
         (Some ("Falta el nombre del programa despu" ++ e' ++ "s de 'programa'.")) ;;
  match_ (Some DELIMITADOR) (Some "(")
         (Some ("Falta '(' despu" ++ e' ++ "s del nombre del programa.")) ;;
  match_ (Some DELIMITADOR) (Some ")")
         (Some ("Falta ')' despu" ++ e' ++ "s del nombre del programa.")) ;;
  match_ (Some DELIMITADOR) (Some "{")
         (Some "Falta '{' para abrir el bloque del programa.") ;;
  while_ n (peek_is (fun tk => negb (is_tok DELIMITADOR "}" tk)))
         (parse_stmt n) ;;
  match_ (Some DELIMITADOR) (Some "}")
         (Some "Falta '}' para cerrar el programa.") ;;
  ret tt.

Record ParseResult : Type := mkParseResult {
  correcto : bool;
  errores : list string
}.

(** [analizar_sintactico] after [p.parse_programa()]: tokens left over
    after the closing brace are reported.  [tokens[p.i]] exists there, as
    [p.i < len(tokens)]. *)
Definition sobrantes (tokens : list Token) : M unit :=
  fun p =>
    if (i p <? List.length tokens)%nat then
      match nth_error tokens (i p) with
      | Some tok =>
          error ("Tokens extra despu" ++ e' ++ "s de cerrar el programa, empezando en '"
                 ++ lexema tok ++ "' (l" ++ i' ++ "nea " ++ str (linea tok) ++ ").") p
      | None => None
      end
    else ret tt p.

Definition analizar_sintactico (n : nat) (codigo : string) (tokens : list Token)
  : option ParseResult :=
  match (parse_programa n ;; sobrantes tokens) (Parser_init tokens) with
  | Some (_, p) => Some (mkParseResult (List.length (err p) =? 0)%nat (err p))
  | None => None
  end.


(** * Vocabulary of the properties

    Predicates and small functions in which the properties below are
    stated; none of them is part of the program. *)

(** [consumes r]: every text matched by [r] has at least one character. *)
Fixpoint consumes (r : regex) : bool :=
  match r with
  | Eps => false
  | Cls _ => true
  | Cat r1 r2 => consumes r1 || consumes r2
  | Alt r1 r2 => consumes r1 && consumes r2
  | Star _ => false
  end.

(** The texts a pattern stands for. *)
Inductive matches : regex -> string -> Prop :=
| M_eps : matches Eps ""
| M_cls : forall cls c, cls c = true -> matches (Cls cls) (String c "")
| M_cat : forall r1 r2 a b,
    matches r1 a -> matches r2 b -> matches (Cat r1 r2) (a ++ b)
| M_alt_l : forall r1 r2 a, matches r1 a -> matches (Alt r1 r2) a
| M_alt_r : forall r1 r2 a, matches r2 a -> matches (Alt r1 r2) a
| M_star_nil : forall r, matches (Star r) ""
| M_star_cons : forall r a b,
    matches r a -> matches (Star r) b -> matches (Star r) (a ++ b).

#[local] Hint Constructors matches : core.

(** The texts of the matches, one after the other. *)
Definition spans (ms : list Match) : string :=
  fold_right String.append "" (map m_group ms).

(** Each match starts where the one before it ended, and is not empty. *)
Fixpoint contiguous (pos : nat) (ms : list Match) : Prop :=
  match ms with
  | [] => True
  | m :: ms' =>
      m_start m = pos /\ m_group m <> ""
      /\ contiguous (pos + String.length (m_group m)) ms'
  end.

(** [tipo in ('ESPACIO', 'LINE_COMMENT')]: the match is not kept. *)
Definition ignorado (m : Match) : bool :=
  (m_lastgroup m =? ESPACIO) || (m_lastgroup m =? LINE_COMMENT).


(** The kind given to a match that is kept. *)
Definition clasificar (m : Match) : string :=
  if (m_lastgroup m =? IDENTIFICADOR) && mem (lower (m_group m)) RESERVADAS
  then PALABRA_RESERVADA else m_lastgroup m.



(** Every character of [s] is in the class [p]. *)
Fixpoint all_chars (p : ascii -> bool) (s : string) : bool :=
  match s with
  | EmptyString => true
  | String c s' => p c && all_chars p s'
  end.


(** The characters allowed between the quotes of a string literal. *)
Definition cadena_char (c : ascii) : bool := negb (in_string c (dq ++ nl)).

(** A text without double quote and without line feed. *)
Definition cadena_body (s : string) : bool := all_chars cadena_char s.

(** The end of the text or of the line. *)
Definition ends_line (rest : string) : Prop :=
  rest = "" \/ exists r, rest = String newline r.

(** The two programs of the specification: a valid one, and one whose
    declaration lacks its [;]. *)
Definition valid_src : string :=
  "programa p(){ int a; read a; printf(" ++ dq ++ "hi" ++ dq ++ "); end; }".

Definition bad_src : string :=
  "programa p(){ int a printf(" ++ dq ++ "x" ++ dq ++ "); end; }".

(** A double quote, then [ab], then the end of the text. *)
Definition unterminated_src : string := dq ++ "ab".

(** A text of the shape [[A-Za-z_]\w*]. *)
Definition identifier_shaped (s : string) : bool :=
  match s with
  | EmptyString => false
  | String c s' => is_ident_start c && all_chars is_word s'
  end.

(** [s] is a reserved word but for the case of its letters. *)
Definition reservada (s : string) : bool :=
  existsb (fun w => lower s =? lower w) RESERVADAS.

(** The diagnostic of a failed [match]: the text passed by the caller, or
    else the description of what was expected and what was found. *)
Definition diagnostic (tipo_ lexema_ msg : option string) (tok : option Token)
  : string :=
  match msg with
  | Some m => m
  | None => expected_found tipo_ lexema_ tok
  end.

(** The cursor is within bounds. *)
Definition wf (p : Parser) : Prop := i p <= List.length (t p).

(** From [p] to [p']: same tokens, the cursor not moved back and still
    within bounds. *)
Definition ok (p p' : Parser) : Prop :=
  t p' = t p /\ i p <= i p' /\ wf p'.

(** From [p], the computation [c] returns, and [ok] relates [p] to the
    state it returns in. *)
Definition total {A : Type} (c : M A) (p : Parser) : Prop :=
  exists a p', c p = Some (a, p') /\ ok p p'.

(** The same, and the cursor has moved. *)
Definition strict {A : Type} (c : M A) (p : Parser) : Prop :=
  exists a p', c p = Some (a, p') /\ ok p p' /\ i p < i p'.

(** Tokens left from the cursor on. *)
Definition left_ (p : Parser) : nat := List.length (t p) - i p.

(** Whatever [c] returns, [c'] returns too. *)
Definition refines {A : Type} (c c' : M A) : Prop :=
  forall p x, c p = Some x -> c' p = Some x.

(** The message that [parse_decl] passes to [match] for the closing [;],
    and two tokens to try it on. *)
Definition msg_decl : string := "Falta ';' al final de la declaraci" ++ o' ++ "n.".

Definition tok_printf : Token := mkToken PALABRA_RESERVADA "printf" 1 21.

Definition tok_siete : Token := mkToken NUMERO "7" 9 3.

(** The methods of [Parser], and what a call of each does at fuel [n]. *)
Inductive op : Type :=
| OpPeek (k : Z)
| OpMatch (tipo_ lexema_ msg : option string)
| OpParsePrograma
| OpParseStmt
| OpParseDecl
| OpParseRead
| OpParsePrintf
| OpParseAssign
| OpParseExpr
| OpParseTerm
| OpParseFactor.

Definition run_op (n : nat) (o : op) : M unit :=
  match o with
  | OpPeek k => peek k ;; ret tt
  | OpMatch tipo_ lexema_ msg => match_ tipo_ lexema_ msg ;; ret tt
  | OpParsePrograma => parse_programa n
  | OpParseStmt => parse_stmt n
  | OpParseDecl => parse_decl n
  | OpParseRead => parse_read
  | OpParsePrintf => parse_printf
  | OpParseAssign => parse_assign n
  | OpParseExpr => parse_expr n
  | OpParseTerm => parse_term n
  | OpParseFactor => parse_factor n
  end.

Fixpoint run_ops (n : nat) (ops : list op) : M unit :=
  match ops with
  | [] => ret tt
  | o :: ops' => run_op n o ;; run_ops n ops'
  end.

(** The diagnostic of [parse_stmt] for a token that starts no statement. *)
Definition msg_sentencia (tipo_ lexema_ : string) (linea_ : nat) : string :=
  "Sentencia no v" ++ a' ++ "lida iniciando en " ++ tipo_ ++ "('" ++ lexema_
    ++ "') (l" ++ i' ++ "nea " ++ str linea_ ++ ").".

(** ** Vocabulary of the further properties *)

(** Whatever [c] returns, it has left the tokens as they were, has not
    moved the cursor back, and has only added diagnostics after those
    that were there. *)
Definition appends {A : Type} (c : M A) : Prop :=
  forall p a p',
    c p = Some (a, p') ->
    t p' = t p /\ i p <= i p' /\ exists es, err p' = (err p ++ es)%list.

(** *** The language of the parser

    The grammar that the productions follow, read off their code.  A
    token is told by the test the code applies to it. *)

(** [tok['tipo']=='SIMBOLO' and tok['lexema'] in ('+','-')] *)
Definition addop (tk : Token) : bool :=
  (tipo tk =? SIMBOLO) && mem (lexema tk) ["+"; "-"].

(** [tok['tipo']=='SIMBOLO' and tok['lexema'] in ('*','/')] *)
Definition mulop (tk : Token) : bool :=
  (tipo tk =? SIMBOLO) && mem (lexema tk) ["*"; "/"].

(** [tok['tipo'] in ('IDENTIFICADOR','NUMERO')] *)
Definition atom (tk : Token) : bool := mem (tipo tk) [IDENTIFICADOR; NUMERO].

(** [tok['tipo'] == 'IDENTIFICADOR'] *)
Definition ident (tk : Token) : bool := tipo tk =? IDENTIFICADOR.

(** The non-terminals of expressions; [NExprRest] and [NTermRest] are the
    repeated parts [(('+'|'-') term)*] and [(('*'|'/') factor)*]. *)
Inductive nt : Type := NExpr | NExprRest | NTerm | NTermRest | NFactor.

Inductive deriv : nt -> list Token -> Prop :=
| D_expr : forall l r,
    deriv NTerm l -> deriv NExprRest r -> deriv NExpr (l ++ r)
| D_expr_nil : deriv NExprRest []
| D_expr_cons : forall op l r,
    addop op = true -> deriv NTerm l -> deriv NExprRest r ->
    deriv NExprRest (op :: l ++ r)
| D_term : forall l r,
    deriv NFactor l -> deriv NTermRest r -> deriv NTerm (l ++ r)
| D_term_nil : deriv NTermRest []
| D_term_cons : forall op l r,
    mulop op = true -> deriv NFactor l -> deriv NTermRest r ->
    deriv NTermRest (op :: l ++ r)
| D_atom : forall tk, atom tk = true -> deriv NFactor [tk]
| D_paren : forall lp l rp,
    is_tok DELIMITADOR "(" lp = true -> deriv NExpr l ->
    is_tok DELIMITADOR ")" rp = true ->
    deriv NFactor (lp :: l ++ [rp]).

(** [(',' id)*] *)
Inductive ids_rest : list Token -> Prop :=
| Ids_nil : ids_rest []
| Ids_cons : forall c id r,
    is_tok DELIMITADOR "," c = true -> ident id = true -> ids_rest r ->
    ids_rest (c :: id :: r).

(** stmt := decl | read | printf | assign | 'end' ';' *)
Inductive stmt_g : list Token -> Prop :=
| S_decl : forall kw id r sc,
    is_tok PALABRA_RESERVADA "int" kw = true -> ident id = true ->
    ids_rest r -> is_tok DELIMITADOR ";" sc = true ->
    stmt_g (kw :: id :: r ++ [sc])
| S_read : forall kw id sc,
    is_tok PALABRA_RESERVADA "read" kw = true -> ident id = true ->
    is_tok DELIMITADOR ";" sc = true ->
    stmt_g [kw; id; sc]
| S_printf : forall kw lp s rp sc,
    is_tok PALABRA_RESERVADA "printf" kw = true ->
    is_tok DELIMITADOR "(" lp = true -> (tipo s =? CADENA) = true ->
    is_tok DELIMITADOR ")" rp = true -> is_tok DELIMITADOR ";" sc = true ->
    stmt_g [kw; lp; s; rp; sc]
| S_end : forall kw sc,
    is_tok PALABRA_RESERVADA "end" kw = true ->
    is_tok DELIMITADOR ";" sc = true ->
    stmt_g [kw; sc]
| S_assign : forall id eq l sc,
    ident id = true -> is_tok SIMBOLO "=" eq = true -> deriv NExpr l ->
    is_tok DELIMITADOR ";" sc = true ->
    stmt_g (id :: eq :: l ++ [sc]).

(** [stmt*] *)
Inductive stmts_g : list Token -> Prop :=
| Stmts_nil : stmts_g []
| Stmts_cons : forall l r, stmt_g l -> stmts_g r -> stmts_g (l ++ r).

(** programa := 'programa' IDENT '(' ')' '{' stmt* '}' *)
Inductive programa_g : list Token -> Prop :=
| P_programa : forall kw id lp rp lb body rb,
    is_tok PALABRA_RESERVADA "programa" kw = true -> ident id = true ->
    is_tok DELIMITADOR "(" lp = true -> is_tok DELIMITADOR ")" rp = true ->
    is_tok DELIMITADOR "{" lb = true -> stmts_g body ->
    is_tok DELIMITADOR "}" rb = true ->
    programa_g (kw :: id :: lp :: rp :: lb :: body ++ [rb]).

(** The tokens from the cursor on. *)
Definition resto (p : Parser) : list Token := skipn (i p) (t p).

(** [p] with the cursor [k] tokens further. *)
Definition avanza (p : Parser) (k : nat) : Parser :=
  mkParser (t p) (i p + k) (err p).

(** From [p] to [p'] the tokens [l], which were under the cursor, have
    been passed, and nothing else has changed. *)
Definition takes (p : Parser) (l : list Token) (p' : Parser) : Prop :=
  p' = avanza p (List.length l) /\ exists r, resto p = (l ++ r)%list.

(** The text does not go on with [f]: it is at its end, or its first
    token fails the test [f]. *)
Definition stops (f : Token -> bool) (r : list Token) : Prop :=
  match r with
  | [] => True
  | tk :: _ => f tk = false
  end.

(** What it is for the productions of expressions to pass the tokens [l]
    of the non-terminal [x], at the cursor and followed by [r], with no
    diagnostic, given enough fuel.  The repeated parts are the loops of
    [parse_term] and [parse_expr]. *)
Definition complete_for (x : nt) (l : list Token) : Prop :=
  forall p r,
    resto p = (l ++ r)%list ->
    match x with
    | NFactor =>
        exists n0, forall n, n0 <= n ->
          parse_factor n p = Some (tt, avanza p (List.length l))
    | NTerm =>
        stops mulop r ->
        exists n0, forall n, n0 <= n ->
          parse_term n p = Some (tt, avanza p (List.length l))
    | NTermRest =>
        stops mulop r ->
        exists n0, forall n m, n0 <= n -> n0 <= m ->
          while_ m (peek_is mulop) (avanzar ;; parse_factor n) p
          = Some (tt, avanza p (List.length l))
    | NExpr =>
        stops mulop r -> stops addop r ->
        exists n0, forall n, n0 <= n ->
          parse_expr n p = Some (tt, avanza p (List.length l))
    | NExprRest =>
        stops mulop r -> stops addop r ->
        exists n0, forall n m, n0 <= n -> n0 <= m ->
          while_ m (peek_is addop) (avanzar ;; parse_term n) p
          = Some (tt, avanza p (List.length l))
    end.

(** The diagnostic of [analizar_sintactico] for tokens left over. *)
Definition msg_sobrantes (tok : Token) : string :=
  "Tokens extra despu" ++ e' ++ "s de cerrar el programa, empezando en '"
    ++ lexema tok ++ "' (l" ++ i' ++ "nea " ++ str (linea tok) ++ ").".

(** A budget for diagnostics.  Whatever [c] returns from [p], the cursor
    has stayed within the tokens; if it has not reached their end, the
    diagnostics added, and [f] more, are at most the tokens passed; in
    any case they are at most the tokens passed and [k]. *)
Definition bounded (k f : nat) {A : Type} (c : M A) (p : Parser) : Prop :=
  forall a p',
    c p = Some (a, p') ->
    ok p p'
    /\ (i p' < List.length (t p) ->
        List.length (err p') + i p + f <= List.length (err p) + i p')
    /\ List.length (err p') + i p + f <= List.length (err p) + i p' + k.

(** The smallest program: [programa p(){}]. *)
Definition minimal_src : string := "programa p(){}".

(** *** Vocabulary for the tokenizer *)

(** [chain s ms]: the matches [ms] are what the scan finds in [s]: each
    is the first group of [token_specs] that matches where the one before
    it ended, and they leave nothing of [s]. *)
Fixpoint chain (s : string) (ms : list Match) : Prop :=
  match ms with
  | [] => s = ""
  | m :: ms' =>
      exists rest,
        s = m_group m ++ rest /\ m_group m <> ""
        /\ regex_tokens s = Some (m_lastgroup m, rest)
        /\ chain rest ms'
  end.

(** The text starts with a character of the class [p]. *)
Definition starts_with (p : ascii -> bool) (s : string) : bool :=
  match s with
  | EmptyString => false
  | String c _ => p c
  end.

(** [s] without its leading characters of the class [p]. *)
Fixpoint skip_chars (p : ascii -> bool) (s : string) : string :=
  match s with
  | EmptyString => EmptyString
  | String c s' => if p c then skip_chars p s' else s
  end.

(** The seven kinds of tokens. *)
Definition TIPOS : list string :=
  [PALABRA_RESERVADA; IDENTIFICADOR; CADENA; NUMERO; SIMBOLO; DELIMITADOR;
   DESCONOCIDO].

(** The operators and the delimiters. *)
Definition SIMBOLOS : list string :=
  ["<="; ">="; "=="; "!="; "++"; "--"; "="; "+"; "-"; "*"; "/"; "%"; "<"; ">"].

Definition DELIMITADORES : list string :=
  [";"; "("; ")"; ","; "{"; "}"; "."; "["; "]"].

(** Digits, then possibly a point and digits. *)
Definition numero_shaped (s : string) : Prop :=
  exists a b,
    a <> "" /\ all_chars is_digit a = true /\ all_chars is_digit b = true
    /\ (s = a \/ (b <> "" /\ s = a ++ "." ++ b)).

(** What the lexeme of a token of each kind is. *)
Definition lexeme_ok (tk : Token) : Prop :=
  lexema tk <> ""
  /\ (tipo tk = PALABRA_RESERVADA ->
      identifier_shaped (lexema tk) = true /\ reservada (lexema tk) = true)
  /\ (tipo tk = IDENTIFICADOR ->
      identifier_shaped (lexema tk) = true /\ reservada (lexema tk) = false)
  /\ (tipo tk = CADENA ->
      exists b, lexema tk = dq ++ b ++ dq /\ cadena_body b = true)
  /\ (tipo tk = NUMERO -> numero_shaped (lexema tk))
  /\ (tipo tk = SIMBOLO -> In (lexema tk) SIMBOLOS)
  /\ (tipo tk = DELIMITADOR -> In (lexema tk) DELIMITADORES)
  /\ (tipo tk = DESCONOCIDO ->
      exists c, lexema tk = String c ""
                /\ is_dot c = true /\ is_space c = false
                /\ is_digit c = false /\ is_ident_start c = false
                /\ in_string c "=+-*/%<>;(),{}.[]" = false).


(** The number of characters of the lines [ls]. *)
Definition lengths (ls : list string) : nat :=
  list_sum (map String.length ls).

(** The offset in the text of the first character of the line [l], the
    lines counted from 1. *)
Definition line_offset (lineas : list string) (l : nat) : nat :=
  lengths (firstn (l - 1) lineas).

(** The offset in the text that the line and the column of a token stand
    for, both counted from 1. *)
Definition offset (codigo : string) (tk : Token) : nat :=
  line_offset (splitlines codigo) (linea tk) + Z.to_nat (columna tk - 1).

(** The line of the token is a line of the text, its column a column of
    this line, and [rest] is the text after the lexeme, which stands at
    the offset of the token. *)
Definition located (codigo : string) (tk : Token) (rest : string) : Prop :=
  (1 <= linea tk)%nat
  /\ (exists l, nth_error (splitlines codigo) (linea tk - 1) = Some l
                /\ (1 <= columna tk <= Z.of_nat (String.length l))%Z)
  /\ drop (offset codigo tk) codigo = lexema tk ++ rest.

(** The operators of two characters, and the start of a comment. *)
Definition DOBLES : list string := ["<="; ">="; "=="; "!="; "++"; "--"; "//"].

(** The lexeme, followed by [rest], could not have been longer. *)
Definition munched (tk : Token) (rest : string) : Prop :=
  (tipo tk = IDENTIFICADOR \/ tipo tk = PALABRA_RESERVADA ->
   starts_with is_word rest = false)
  /\ (tipo tk = NUMERO -> starts_with is_digit rest = false)
  /\ (tipo tk = SIMBOLO ->
      forall c rest', rest = String c rest' ->
                      ~ In (lexema tk ++ String c "") DOBLES).

(** * Web: the view [index]

    What [index] reads of the request is its method and its form; the form
    is the list of its fields in the order sent, and [request.form.get]
    gives the first value of a field, or the default.  What it returns is
    a redirection or the arguments of [render_template_string]; TEMPLATE
    and its rendering are not modelled.  [n] is the fuel of the parser,
    which runs here on a stack without bound; the view on the stack of the
    interpreter is [Stack.index] below. *)

Record Request : Type := mkRequest {
  method : string;
  form : list (string * string)
}.

Fixpoint form_get (f : list (string * string)) (k : string) : option string :=
  match f with
  | [] => None
  | (k', v) :: f' => if k' =? k then Some v else form_get f' k
  end.

Record Resumen : Type := mkResumen {
  PR : nat;
  ID : nat;
  PD : nat;
  Simb : nat;
  Num : nat;
  Total : nat
}.

Record Context : Type := mkContext {
  c_codigo : string;
  c_resultado : list Token;
  c_resumen : Resumen;
  c_sintactico : ParseResult;
  c_mostrado_sintactico : bool
}.

Inductive Response : Type :=
| Redirect : string -> Response
| Render : Context -> Response.

(** One round of [for token in resultado]. *)
Definition contar (r : Resumen) (token : Token) : Resumen :=
  if tipo token =? PALABRA_RESERVADA
  then mkResumen (PR r + 1) (ID r) (PD r) (Simb r) (Num r) (Total r)
  else if tipo token =? IDENTIFICADOR
  then mkResumen (PR r) (ID r + 1) (PD r) (Simb r) (Num r) (Total r)
  else if tipo token =? DELIMITADOR
  then mkResumen (PR r) (ID r) (PD r + 1) (Simb r) (Num r) (Total r)
  else if tipo token =? SIMBOLO
  then mkResumen (PR r) (ID r) (PD r) (Simb r + 1) (Num r) (Total r)
  else if tipo token =? NUMERO
  then mkResumen (PR r) (ID r) (PD r) (Simb r) (Num r + 1) (Total r)
  else r.

Definition set_Total (r : Resumen) (v : nat) : Resumen :=
  mkResumen (PR r) (ID r) (PD r) (Simb r) (Num r) v.

Definition resumen_0 : Resumen := mkResumen 0 0 0 0 0 0.

Definition sintactico_0 : ParseResult := mkParseResult false [].

Definition index (n : nat) (request : Request) : option Response :=
  if method request =? "POST" then
    let accion := form_get (form request) "accion" in
    let codigo :=
      match form_get (form request) "codigo" with
      | Some v => v
      | None => ""
      end in
    if match accion with Some a => a =? "borrar" | None => false end
    then Some (Redirect "/")
    else if truthy (Some codigo) then
      let resultado := analizar_lexico codigo in
      let resumen :=
        set_Total (fold_left contar resultado resumen_0) (List.length resultado) in
      if match accion with Some a => a =? "sintactico" | None => false end
      then
        match analizar_sintactico n codigo resultado with
        | Some sintactico =>
            Some (Render (mkContext codigo resultado resumen sintactico true))
        | None => None
        end
      else Some (Render (mkContext codigo resultado resumen sintactico_0 false))
    else Some (Render (mkContext codigo [] resumen_0 sintactico_0 false))
  else Some (Render (mkContext "" [] resumen_0 sintactico_0 false)).

(** The number of tokens of the kind [g]. *)
Definition cuenta (g : string) (l : list Token) : nat :=
  List.length (filter (fun tk => tipo tk =? g) l).

(** The text that a request submits. *)
Definition codigo_de (request : Request) : string :=
  match form_get (form request) "codigo" with
  | Some v => v
  | None => ""
  end.

Definition request_valid : Request :=
  mkRequest "POST" [("codigo", valid_src); ("accion", "sintactico")].

(** The kind and the lexeme of each token, without its position. *)
Definition kinds (l : list Token) : list (string * string) :=
  map (fun tk => (tipo tk, lexema tk)) l.

(** The kinds and the lexemes of the tokens that the loop of the tokenizer
    makes of the matches [ms]. *)
Definition emitted (ms : list Match) : list (string * string) :=
  map (fun m => (clasificar m, m_group m))
      (filter (fun m => negb (ignorado m)) ms).




(** The operators of two characters. *)
Definition PARES : list string := ["<="; ">="; "=="; "!="; "++"; "--"].

(** [needle] occurs in [hay]. *)
Fixpoint contiene (needle hay : string) : bool :=
  String.prefix needle hay
  || match hay with
     | EmptyString => false
     | String _ hay' => contiene needle hay'
     end.

(** The diagnostic names a line, as the texts of the source do:
    [(línea N)]. *)
Definition cita_linea (d : string) : bool :=
  contiene ("(l" ++ i' ++ "nea ") d.

(** The diagnostic says that a [;] is missing, in one of the ways of the
    source: [Falta ';' ...], [... debe ir ';'.], or the text of [match]
    for an expected lexeme [';']. *)
Definition cita_falta (d : string) : bool :=
  contiene "Falta ';'" d || contiene "debe ir ';'" d
  || (contiene "Se esperaba" d && contiene "';'" d).

(** * The parser on the stack of the interpreter

    [analizar_sintactico n] above is the parser on a stack without bound:
    its fuel is a device of the model.  CPython bounds the depth of calls
    ([sys.getrecursionlimit()], 1000 unless changed): a call made when no
    frame is left raises RecursionError, which nothing in the source
    catches, so the run ends there and gives no result.

    In [Stack] every call of a function or a method of the source takes a
    frame, [d] is the number of frames that may still be pushed, and a
    call with [d = 0] raises.  What the built-in functions need is not
    counted.  [n] bounds the rounds of each loop, as above, and [Pending]
    is returned only when it runs out. *)

Module Stack.

Inductive Outcome (A : Type) : Type :=
| Returns : A -> Outcome A
| RecursionError : Outcome A
| Pending : Outcome A.

Arguments Returns {A} _.
Arguments RecursionError {A}.
Arguments Pending {A}.

Definition R (A : Type) : Type := Parser -> Outcome (A * Parser).

Definition ret {A : Type} (a : A) : R A := fun p => Returns (a, p).

Definition bind {A B : Type} (c : R A) (f : A -> R B) : R B :=
  fun p => match c p with
           | Returns (a, p') => f a p'
           | RecursionError => RecursionError
           | Pending => Pending
           end.

(** A step that calls nothing. *)
Definition lift {A : Type} (c : M A) : R A :=
  fun p => match c p with
           | Some x => Returns x
           | None => Pending
           end.

(** A call: it takes a frame, and its body runs with one frame less. *)
Definition call {A : Type} (d : nat) (body : nat -> R A) : R A :=
  match d with
  | O => fun _ => RecursionError
  | S d' => body d'
  end.

Declare Scope stack_scope.
Delimit Scope stack_scope with stack.
Notation "x <- c ;; k" := (bind c (fun x => k))
  (at level 61, c at next level, right associativity) : stack_scope.
Notation "c ;; k" := (bind c (fun _ => k))
  (at level 61, right associativity) : stack_scope.
Local Open Scope stack_scope.

Definition avanzar : R unit := lift avanzar.

Definition error (msg : string) : R unit := lift (error msg).

Definition peek (d : nat) (k : Z) : R (option Token) :=
  call d (fun _ => lift (peek k)).

Definition match_ (d : nat) (tipo_ lexema_ msg : option string)
  : R (option Token) :=
  call d (fun d' =>
    tok <- peek d' 0 ;;
    if acepta tipo_ lexema_ tok then
      avanzar ;;
      ret tok
    else
      let msg := match msg with
                 | None => expected_found tipo_ lexema_ tok
                 | Some m => m
                 end in
      error msg ;;
      (match tok with Some _ => avanzar | None => ret tt end) ;;
      ret None).

Fixpoint while_ (n : nat) (cond : R bool) (body : R unit) : R unit :=
  c <- cond ;;
  if c then
    match n with
    | O => fun _ => Pending
    | S n' => body ;; while_ n' cond body
    end
  else ret tt.

Definition peek_is (d : nat) (f : Token -> bool) : R bool :=
  tok <- peek d 0 ;;
  ret match tok with Some tk => f tk | None => false end.

(** The bodies of the three productions of expressions, run with [d]
    frames left. *)
Definition expr_body (n d : nat) (parse_term : R unit) : R unit :=
  parse_term ;;
  while_ n (peek_is d (fun tk => (tipo tk =? SIMBOLO) && mem (lexema tk) ["+"; "-"]))
         (avanzar ;;
          parse_term).

Definition term_body (n d : nat) (parse_factor : R unit) : R unit :=
  parse_factor ;;
  while_ n (peek_is d (fun tk => (tipo tk =? SIMBOLO) && mem (lexema tk) ["*"; "/"]))
         (avanzar ;;
          parse_factor).

Definition factor_body (d : nat) (parse_expr : R unit) : R unit :=
  tok <- peek d 0 ;;
  match tok with
  | None => error ("Expresi" ++ o' ++ "n incompleta.")
  | Some tk =>
      if mem (tipo tk) [IDENTIFICADOR; NUMERO] then avanzar
      else if is_tok DELIMITADOR "(" tk then
        avanzar ;;
        parse_expr ;;
        match_ d (Some DELIMITADOR) (Some ")")
               (Some ("Falta ')' para cerrar la expresi" ++ o' ++ "n.")) ;;
        ret tt
      else
        error ("Factor inv" ++ a' ++ "lido en la expresi" ++ o' ++ "n: "
               ++ tipo tk ++ "('" ++ lexema tk ++ "') (l" ++ i' ++ "nea "
               ++ str (linea tk) ++ ").") ;;
        avanzar
  end.

Fixpoint parse_expr (n d : nat) : R unit :=
  match d with
  | O => fun _ => RecursionError
  | S d' => expr_body n d' (parse_term n d')
  end
with parse_term (n d : nat) : R unit :=
  match d with
  | O => fun _ => RecursionError
  | S d' => term_body n d' (parse_factor n d')
  end
with parse_factor (n d : nat) : R unit :=
  match d with
  | O => fun _ => RecursionError
  | S d' => factor_body d' (parse_expr n d')
  end.

Definition parse_assign (n d : nat) : R unit :=
  call d (fun d' =>
    match_ d' (Some IDENTIFICADOR) None None ;;
    match_ d' (Some SIMBOLO) (Some "=")
           (Some ("Falta '=' en la asignaci" ++ o' ++ "n.")) ;;
    parse_expr n d' ;;
    match_ d' (Some DELIMITADOR) (Some ";")
           (Some ("Falta ';' al final de la asignaci" ++ o' ++ "n.")) ;;
    ret tt).

Definition parse_printf (d : nat) : R unit :=
  call d (fun d' =>
    match_ d' (Some PALABRA_RESERVADA) (Some "printf") None ;;
    match_ d' (Some DELIMITADOR) (Some "(") (Some "Falta '(' en printf.") ;;
    match_ d' (Some CADENA) None (Some "Falta la cadena dentro de printf.") ;;
    match_ d' (Some DELIMITADOR) (Some ")") (Some "Falta ')' al cerrar printf.") ;;
    match_ d' (Some DELIMITADOR) (Some ";") (Some "Falta ';' al final de printf.") ;;
    ret tt).

Definition parse_read (d : nat) : R unit :=
  call d (fun d' =>
    match_ d' (Some PALABRA_RESERVADA) (Some "read") None ;;
    match_ d' (Some IDENTIFICADOR) None
           (Some ("Se esperaba un identificador despu" ++ e' ++ "s de 'read'.")) ;;
    match_ d' (Some DELIMITADOR) (Some ";")
           (Some ("Falta ';' despu" ++ e' ++ "s de la instrucci" ++ o' ++ "n 'read'.")) ;;
    ret tt).

Definition parse_decl (n d : nat) : R unit :=
  call d (fun d' =>
    match_ d' (Some PALABRA_RESERVADA) (Some "int") None ;;
    match_ d' (Some IDENTIFICADOR) None
           (Some ("Se esperaba un identificador en la declaraci" ++ o' ++ "n.")) ;;
    while_ n (peek_is d' (is_tok DELIMITADOR ","))
           (avanzar ;;
            match_ d' (Some IDENTIFICADOR) None
                   (Some ("Se esperaba un identificador despu" ++ e' ++ "s de ','.")) ;;
            ret tt) ;;
    match_ d' (Some DELIMITADOR) (Some ";")
           (Some ("Falta ';' al final de la declaraci" ++ o' ++ "n.")) ;;
    ret tt).

Definition parse_stmt (n d : nat) : R unit :=
  call d (fun d' =>
    tok <- peek d' 0 ;;
    match tok with
    | None => error "Fin inesperado dentro del bloque."
    | Some tk =>
        if is_tok PALABRA_RESERVADA "int" tk then parse_decl n d'
        else if is_tok PALABRA_RESERVADA "read" tk then parse_read d'
        else if is_tok PALABRA_RESERVADA "printf" tk then parse_printf d'
        else if is_tok PALABRA_RESERVADA "end" tk then
          avanzar ;;
          match_ d' (Some DELIMITADOR) (Some ";")
                 (Some ("Despu" ++ e' ++ "s de 'end' debe ir ';'.")) ;;
          ret tt
        else if tipo tk =? IDENTIFICADOR then parse_assign n d'
        else
          error ("Sentencia no v" ++ a' ++ "lida iniciando en "
                 ++ tipo tk ++ "('" ++ lexema tk ++ "') (l" ++ i' ++ "nea "
                 ++ str (linea tk) ++ ").") ;;
          avanzar
    end).

Definition parse_programa (n d : nat) : R unit :=
  call d (fun d' =>
    match_ d' (Some PALABRA_RESERVADA) (Some "programa")
           (Some "Se esperaba la palabra 'programa' al inicio.") ;;
    match_ d' (Some IDENTIFICADOR) None
           (Some ("Falta el nombre del programa despu" ++ e' ++ "s de 'programa'.")) ;;
    match_ d' (Some DELIMITADOR) (Some "(")
           (Some ("Falta '(' despu" ++ e' ++ "s del nombre del programa.")) ;;
    match_ d' (Some DELIMITADOR) (Some ")")
           (Some ("Falta ')' despu" ++ e' ++ "s del nombre del programa.")) ;;
    match_ d' (Some DELIMITADOR) (Some "{")
           (Some "Falta '{' para abrir el bloque del programa.") ;;
    while_ n (peek_is d' (fun tk => negb (is_tok DELIMITADOR "}" tk)))
           (parse_stmt n d') ;;
    match_ d' (Some DELIMITADOR) (Some "}")
           (Some "Falta '}' para cerrar el programa.") ;;
    ret tt).

(** [analizar_sintactico(codigo, tokens)], called with [limit] frames
    left: [Parser(tokens)] is a call, and so is [p.parse_programa()]. *)
Definition analizar_sintactico (limit n : nat) (codigo : string)
           (tokens : list Token) : Outcome ParseResult :=
  match call limit (fun d =>
          call d (fun _ => ret tt) ;;
          parse_programa n d ;;
          lift (sobrantes tokens)) (Parser_init tokens) with
  | Returns (_, p) => Returns (mkParseResult (List.length (err p) =? 0)%nat (err p))
  | RecursionError => RecursionError
  | Pending => Pending
  end.

(** The view [index], with [limit] frames left where it calls
    [analizar_sintactico].  The calls of Flask and of [re] are taken to
    have the room they need; an exception of the parser is not caught and
    ends the view, which Flask answers with the status 500. *)
Definition index (limit n : nat) (request : Request) : Outcome Response :=
  if method request =? "POST" then
    let accion := form_get (form request) "accion" in
    let codigo :=
      match form_get (form request) "codigo" with
      | Some v => v
      | None => ""
      end in
    if match accion with Some a => a =? "borrar" | None => false end
    then Returns (Redirect "/")
    else if truthy (Some codigo) then
      let resultado := analizar_lexico codigo in
      let resumen :=
        set_Total (fold_left contar resultado resumen_0) (List.length resultado) in
      if match accion with Some a => a =? "sintactico" | None => false end
      then
        match analizar_sintactico limit n codigo resultado with
        | Returns sintactico =>
            Returns (Render (mkContext codigo resultado resumen sintactico true))
        | RecursionError => RecursionError
        | Pending => Pending
        end
      else Returns (Render (mkContext codigo resultado resumen sintactico_0 false))
    else Returns (Render (mkContext codigo [] resumen_0 sintactico_0 false))
  else Returns (Render (mkContext "" [] resumen_0 sintactico_0 false)).

End Stack.

(** [s], [k] times. *)
Fixpoint rep (k : nat) (s : string) : string :=
  match k with
  | O => ""
  | S k' => s ++ rep k' s
  end.

(** A program whose one assignment has [b] within [k] pairs of
    parentheses. *)
Definition deep_src (k : nat) : string :=
  "programa p(){ a = " ++ rep k "(" ++ "b" ++ rep k ")" ++ "; }".

(** A run on the stack that returns is a run of the parser without
    bound on the stack. *)
Definition agrees {A : Type} (cs : Stack.R A) (c : M A) : Prop :=
  forall p x, cs p = Stack.Returns x -> c p = Some x.

(** A run of the parser without bound on the stack is, on the stack,
    the same run or a run cut short by RecursionError; it is the same
    run when there is [room]. *)
Definition tracks {A : Type} (room : Prop) (c : M A) (cs : Stack.R A) : Prop :=
  forall p x, c p = Some x ->
    (cs p = Stack.Returns x \/ cs p = Stack.RecursionError)
    /\ (room -> cs p = Stack.Returns x).

(** With more frames left, a run that returns returns the same. *)
Definition extends {A : Type} (cs cs' : Stack.R A) : Prop :=
  forall p x, cs p = Stack.Returns x -> cs' p = Stack.Returns x.

(** A request for the syntactic analysis of the text [codigo]. *)
Definition request_sintactico (codigo : string) : Request :=
  mkRequest "POST" [("codigo", codigo); ("accion", "sintactico")].
(** * Properties *)

(** ** Texts *)

Lemma length_app (a b : string) :
  String.length (a ++ b) = (String.length a + String.length b)%nat.
Proof. induction a as [|c a IH]; simpl; [reflexivity | now rewrite IH]. Qed.

Lemma app_assoc_s (a b c : string) : (a ++ b) ++ c = a ++ (b ++ c).
Proof. induction a as [|x a IH]; simpl; [reflexivity | now rewrite IH]. Qed.

Lemma app_empty_r (a : string) : a ++ "" = a.
Proof. induction a as [|x a IH]; simpl; [reflexivity | now rewrite IH]. Qed.

Lemma app_empty_inv (a b : string) : a ++ b = "" -> a = "" /\ b = "".
Proof. destruct a; simpl; [auto | discriminate]. Qed.

Lemma length_zero (a : string) : String.length a = 0%nat -> a = "".
Proof. destruct a; simpl; [reflexivity | discriminate]. Qed.

Lemma take_app (pre rest : string) : take (String.length pre) (pre ++ rest) = pre.
Proof. induction pre as [|c pre IH]; simpl; [now destruct rest | now rewrite IH]. Qed.

Lemma drop_app (pre rest : string) : drop (String.length pre) (pre ++ rest) = rest.
Proof. induction pre as [|c pre IH]; simpl; [now destruct rest | exact IH]. Qed.

(** ** The matcher *)

Lemma matches_consumes (r : regex) (a : string) :
  matches r a -> consumes r = true -> a <> "".
Proof.
  induction 1 as [|cls c H|r1 r2 a b H1 IH1 H2 IH2|r1 r2 a H IH|r1 r2 a H IH| |];
    simpl; intros C; try discriminate.
  - intros E. apply app_empty_inv in E. destruct E as [E1 E2].
    apply orb_true_iff in C. destruct C as [C|C]; [now apply IH1 | now apply IH2].
  - apply andb_true_iff in C. now apply IH.
  - apply andb_true_iff in C. now apply IH.
Qed.

(** A successful search splits the text into a part that [r] stands for
    and a rest accepted by [k]. *)
Lemma rematch_sound (r : regex) :
  forall s k x,
    rematch r s k = Some x ->
    exists pre s', s = pre ++ s' /\ k s' = Some x /\ matches r pre.
Proof.
  induction r as [|cls|r1 IH1 r2 IH2|r1 IH1 r2 IH2|r1 IH1]; intros s k x H; simpl in H.
  - exists "", s. auto.
  - destruct s as [|c s']; [discriminate|].
    destruct (cls c) eqn:C; [|discriminate].
    exists (String c ""), s'. auto.
  - apply IH1 in H. destruct H as (pre1 & s1 & -> & H & N1).
    apply IH2 in H. destruct H as (pre2 & s2 & -> & H & N2).
    exists (pre1 ++ pre2), s2. rewrite app_assoc_s. auto.
  - destruct (rematch r1 s k) as [y|] eqn:E.
    + inversion H; subst y. apply IH1 in E. destruct E as (pre & s' & -> & E & N).
      exists pre, s'. auto.
    + apply IH2 in H. destruct H as (pre & s' & -> & H & N).
      exists pre, s'. auto.
  - revert H. generalize (String.length s) at 1. intros n. revert s.
    induction n as [|n IHn]; intros s H.
    + exists "", s. auto.
    + match type of H with
      | match ?c with _ => _ end = _ => destruct c as [y|] eqn:E
      end.
      * inversion H; subst y. apply IH1 in E.
        destruct E as (pre1 & s1 & -> & E & N1).
        destruct (String.length s1 <? String.length (pre1 ++ s1))%nat; [|discriminate].
        apply IHn in E. destruct E as (pre2 & s2 & -> & E & N2).
        exists (pre1 ++ pre2), s2. rewrite app_assoc_s. auto.
      * exists "", s. auto.
Qed.

(** A repetition never fails when what follows it cannot fail. *)
Lemma rematch_star_total (r : regex) (k : string -> option string) (s : string) :
  (forall s', k s' <> None) -> rematch (Star r) s k <> None.
Proof.
  intros Hk. simpl. destruct (String.length s) as [|n]; [apply Hk|].
  match goal with
  | |- match ?c with _ => _ end <> _ => destruct c
  end; [discriminate | apply Hk].
Qed.

(** ** The groups of [token_specs] *)

Lemma match_specs_sound (specs : list (string * regex)) (s g rest : string) :
  match_specs specs s = Some (g, rest) ->
  exists pre r, s = pre ++ rest /\ In (g, r) specs /\ matches r pre.
Proof.
  induction specs as [|[name r] specs IH]; simpl; intros H; [discriminate|].
  destruct (rematch r s Some) as [y|] eqn:E.
  - inversion H; subst. apply rematch_sound in E.
    destruct E as (pre & s' & -> & E & N). inversion E; subst.
    exists pre, r. auto.
  - destruct (IH H) as (pre & r' & -> & I & N). exists pre, r'. auto.
Qed.

Lemma match_specs_none (specs : list (string * regex)) (s : string) :
  match_specs specs s = None ->
  forall name r, In (name, r) specs -> rematch r s Some = None.
Proof.
  induction specs as [|[name0 r0] specs IH]; simpl; intros H name r I; [contradiction|].
  destruct (rematch r0 s Some) eqn:E; [discriminate|].
  destruct I as [I|I]; [now inversion I; subst | eauto].
Qed.

(** A match is a text of its group, and no group matches the empty text. *)
Lemma regex_tokens_sound (s g rest : string) :
  regex_tokens s = Some (g, rest) ->
  exists pre r, s = pre ++ rest /\ pre <> ""
                /\ In (g, r) token_specs /\ matches r pre.
Proof.
  intros H. apply match_specs_sound in H.
  destruct H as (pre & r & E & I & N). exists pre, r. repeat split; auto.
  apply (matches_consumes N).
  assert (A : forallb (fun nr => consumes (snd nr)) token_specs = true)
    by reflexivity.
  rewrite forallb_forall in A. apply (A _ I).
Qed.

(** Some group matches at every position before the end of the text:
    a line feed is white space and any other character is matched by [.]. *)
Lemma regex_tokens_total (c : ascii) (s : string) :
  regex_tokens (String c s) <> None.
Proof.
  intros H. pose proof (match_specs_none _ _ H) as N.
  destruct (is_dot c) eqn:D.
  - specialize (N DESCONOCIDO re_DESCONOCIDO). simpl in N. rewrite D in N.
    assert (Some s = None) by (apply N; do 7 right; now left). discriminate.
  - assert (Sp : is_space c = true).
    { unfold is_dot in D. apply negb_false_iff in D. apply Ascii.eqb_eq in D.
      now subst c. }
    specialize (N ESPACIO re_ESPACIO).
    assert (I : In (ESPACIO, re_ESPACIO) token_specs)
      by (do 6 right; now left).
    apply N in I.
    change (rematch re_ESPACIO (String c s) Some)
      with (if is_space c then rematch (Star (Cls is_space)) s Some else None) in I.
    rewrite Sp in I. revert I. apply rematch_star_total. discriminate.
Qed.

(** ** [finditer] *)

Lemma finditer_from_eq (fuel pos : nat) (c : ascii) (s : string) :
  finditer_from (S fuel) pos (String c s) =
  match regex_tokens (String c s) with
  | None => finditer_from fuel (S pos) s
  | Some (g, rest) =>
      let n := String.length (String c s) - String.length rest in
      mkMatch pos g (take n (String c s))
        :: finditer_from fuel (pos + Nat.max n 1) (drop (Nat.max n 1) (String c s))
  end.
Proof. reflexivity. Qed.

Lemma finditer_from_covers (fuel : nat) :
  forall pos s,
    String.length s <= fuel ->
    spans (finditer_from fuel pos s) = s
    /\ contiguous pos (finditer_from fuel pos s)
    /\ Forall (fun m => exists r, In (m_lastgroup m, r) token_specs
                                  /\ matches r (m_group m))
              (finditer_from fuel pos s).
Proof.
  induction fuel as [|fuel IH]; intros pos s L.
  - assert (s = "") by (apply length_zero; lia). subst s. simpl. auto.
  - destruct s as [|c s]; [simpl; auto|].
    rewrite finditer_from_eq.
    destruct (regex_tokens (String c s)) as [[g rest]|] eqn:E;
      [|now apply regex_tokens_total in E].
    apply regex_tokens_sound in E. destruct E as (pre & r & E & N & I & L').
    rewrite E in *. clear E. rewrite length_app in *.
    assert (P : 1 <= String.length pre).
    { destruct pre; [now contradiction N | simpl; lia]. }
    cbv zeta.
    replace (String.length pre + String.length rest - String.length rest)
      with (String.length pre) by lia.
    rewrite Nat.max_l by exact P. rewrite take_app, drop_app.
    destruct (IH (pos + String.length pre) rest) as (H1 & H2 & H3); [lia|].
    unfold spans in *. simpl. rewrite H1. repeat split; auto.
    constructor; [exists r; auto | assumption].
Qed.

(** ** The loop of [analizar_lexico] *)

Lemma avanzar_linea_mono (pend : list string) (start : nat) :
  forall l cb l' cb',
    avanzar_linea pend start l cb = (l', cb') ->
    (l' = l /\ cb' = cb) \/ l < l'.
Proof.
  induction pend as [|x pend IH]; simpl; intros l cb l' cb' H.
  - inversion H. auto.
  - destruct (cb + String.length x <=? start)%nat.
    + apply IH in H. right. lia.
    + inversion H. auto.
Qed.

Lemma lex_step_cases (lineas : list string) (st : LexState) (m : Match) :
  exists l cb,
    ((l = ls_linea st /\ cb = ls_col_base st) \/ ls_linea st < l)
    /\ avanzar_linea (skipn (ls_linea st - 1) lineas) (m_start m)
                     (ls_linea st) (ls_col_base st) = (l, cb)
    /\ ls_linea (lex_step lineas st m) = l
    /\ ls_col_base (lex_step lineas st m) = cb
    /\ (ignorado m = false -> clasificar m <> ESPACIO /\ clasificar m <> LINE_COMMENT)
    /\ ls_tokens (lex_step lineas st m) =
       (ls_tokens st ++
        if ignorado m then []
        else [mkToken (clasificar m) (m_group m) l
                      (Z.of_nat (m_start m) - Z.of_nat cb + 1)%Z])%list.
Proof.
  unfold lex_step, ignorado, clasificar.
  destruct (avanzar_linea _ _ _ _) as [l cb] eqn:A.
  pose proof (avanzar_linea_mono _ _ _ _ A) as A'.
  set (res := (m_lastgroup m =? IDENTIFICADOR) && mem (lower (m_group m)) RESERVADAS).
  exists l, cb.
  destruct (m_lastgroup m =? ESPACIO) eqn:E1; simpl.
  { rewrite app_nil_r. repeat split; auto; discriminate. }
  destruct (m_lastgroup m =? LINE_COMMENT) eqn:E2; simpl.
  { rewrite app_nil_r. repeat split; auto; discriminate. }
  apply String.eqb_neq in E1, E2.
  destruct res; repeat split; auto; discriminate.
Qed.

Lemma lex_loop_lexemas (lineas : list string) (ms : list Match) :
  forall st,
    map lexema (ls_tokens (lex_loop lineas ms st)) =
    (map lexema (ls_tokens st)
     ++ map m_group (filter (fun m => negb (ignorado m)) ms))%list.
Proof.
  induction ms as [|m ms IH]; intros st; simpl.
  - now rewrite app_nil_r.
  - unfold lex_loop in *. rewrite IH.
    destruct (lex_step_cases lineas st m) as (l & cb & _ & _ & _ & _ & _ & T).
    rewrite T, map_app. destruct (ignorado m); simpl.
    + now rewrite app_nil_r.
    + now rewrite <- app_assoc.
Qed.




(** ** Repetition of a character class *)

Section Repetition.

Variable p : ascii -> bool.

Lemma rematch_star_cls_cons (c : ascii) (s : string)
      (k : string -> option string) :
  rematch (Star (Cls p)) (String c s) k =
  if p c then
    match rematch (Star (Cls p)) s k with
    | Some x => Some x
    | None => k (String c s)
    end
  else k (String c s).
Proof.
  simpl. destruct (p c); [|reflexivity].
  replace (String.length s <? S (String.length s))%nat with true
    by (symmetry; apply Nat.ltb_lt; lia).
  reflexivity.
Qed.

(** A run of characters of the class is taken whole when the repetition,
    started after the run, succeeds. *)
Lemma rematch_star_cls_run (k : string -> option string) (rest x : string) :
  rematch (Star (Cls p)) rest k = Some x ->
  forall s, all_chars p s = true ->
            rematch (Star (Cls p)) (s ++ rest) k = Some x.
Proof.
  intros R. induction s as [|c s IH]; simpl append; intros A; [exact R|].
  simpl in A. apply andb_true_iff in A. destruct A as [A1 A2].
  rewrite rematch_star_cls_cons, A1, (IH A2). reflexivity.
Qed.

Lemma matches_star_cls (b : string) :
  matches (Star (Cls p)) b -> all_chars p b = true.
Proof.
  intros H. remember (Star (Cls p)) as r eqn:E.
  induction H as [| | | | | |r a b H1 _ H2 IH2]; try discriminate; [reflexivity|].
  inversion E; subst r. inversion H1; subst. simpl.
  rewrite IH2 by reflexivity. now rewrite andb_true_r.
Qed.

Lemma matches_cls (a : string) :
  matches (Cls p) a -> exists c, a = String c "" /\ p c = true.
Proof. inversion 1; subst. eauto. Qed.

End Repetition.

(** ** The first match and the first token *)

Lemma splitlines_first (c : ascii) (s : string) :
  exists d l ls, splitlines (String c s) = String d l :: ls.
Proof.
  simpl. destruct (is_linebreak c).
  - destruct s as [|d s]; [eauto|].
    destruct ((code c =? 13)%N && (code d =? 10)%N); eauto.
  - unfold cons_line. destruct (splitlines s); eauto.
Qed.

Lemma lex_loop_keeps_first (lineas : list string) (ms : list Match) :
  forall st tk tl,
    ls_tokens st = tk :: tl ->
    exists tl', ls_tokens (lex_loop lineas ms st) = tk :: tl'.
Proof.
  induction ms as [|m ms IH]; intros st tk tl E; simpl; [eauto|].
  destruct (lex_step_cases lineas st m) as (l & cb & _ & _ & _ & _ & _ & T).
  rewrite E in T. simpl in T. eapply IH. exact T.
Qed.

(** The match at offset 0 is on line 1, column 1. *)
Lemma lex_first_step (c : ascii) (s : string) (m : Match) :
  m_start m = 0 ->
  ignorado m = false ->
  ls_tokens (lex_step (splitlines (String c s)) (mkLexState [] 1 0) m) =
  [mkToken (clasificar m) (m_group m) 1 1].
Proof.
  intros S0 I.
  destruct (lex_step_cases (splitlines (String c s)) (mkLexState [] 1 0) m)
    as (l & cb & _ & A & _ & _ & _ & T).
  rewrite I, S0 in *.
  destruct (splitlines_first c s) as (d & l0 & ls & E). rewrite E in A.
  simpl in A. inversion A; subst l cb. exact T.
Qed.

(** ** Tokens and the matches they come from *)

Lemma lex_loop_tokens (lineas : list string) (ms : list Match) :
  forall st tk,
    In tk (ls_tokens (lex_loop lineas ms st)) ->
    In tk (ls_tokens st)
    \/ exists m, In m ms /\ ignorado m = false
                 /\ lexema tk = m_group m /\ tipo tk = clasificar m.
Proof.
  induction ms as [|m ms IH]; intros st tk I; simpl in I; [now left|].
  apply IH in I. destruct I as [I|(m' & I & G)].
  - destruct (lex_step_cases lineas st m) as (l & cb & _ & _ & _ & _ & _ & T).
    rewrite T in I. apply in_app_or in I. destruct I as [I|I]; [now left|].
    right. exists m. destruct (ignorado m); [contradiction|].
    destruct I as [<-|[]]. simpl. auto.
  - right. exists m'. simpl. tauto.
Qed.

Lemma analizar_lexico_tokens (codigo : string) (tk : Token) :
  In tk (analizar_lexico codigo) ->
  exists m r, ignorado m = false
              /\ In (m_lastgroup m, r) token_specs /\ matches r (m_group m)
              /\ lexema tk = m_group m /\ tipo tk = clasificar m.
Proof.
  intros I. apply lex_loop_tokens in I. destruct I as [[]|(m & I & G)].
  destruct (finditer_from_covers 0 codigo (le_n _)) as (_ & _ & F).
  rewrite Forall_forall in F. destruct (F m I) as (r & R1 & R2).
  exists m, r. tauto.
Qed.

(** The names of the groups are distinct, so the name tells the pattern. *)
Lemma token_specs_lookup (g : string) (r : regex) :
  In (g, r) token_specs ->
  (g = LINE_COMMENT /\ r = re_LINE_COMMENT)
  \/ (g = NUMERO /\ r = re_NUMERO)
  \/ (g = CADENA /\ r = re_CADENA)
  \/ (g = IDENTIFICADOR /\ r = re_IDENTIFICADOR)
  \/ (g = SIMBOLO /\ r = re_SIMBOLO)
  \/ (g = DELIMITADOR /\ r = re_DELIMITADOR)
  \/ (g = ESPACIO /\ r = re_ESPACIO)
  \/ (g = DESCONOCIDO /\ r = re_DESCONOCIDO).
Proof.
  intros I. simpl in I.
  repeat (destruct I as [I|I]; [inversion I; tauto|]). contradiction.
Qed.

Lemma regex_tokens_eq (s : string) :
  regex_tokens s =
  match rematch re_LINE_COMMENT s Some with
  | Some r => Some (LINE_COMMENT, r)
  | None =>
  match rematch re_NUMERO s Some with
  | Some r => Some (NUMERO, r)
  | None =>
  match rematch re_CADENA s Some with
  | Some r => Some (CADENA, r)
  | None =>
  match rematch re_IDENTIFICADOR s Some with
  | Some r => Some (IDENTIFICADOR, r)
  | None =>
  match rematch re_SIMBOLO s Some with
  | Some r => Some (SIMBOLO, r)
  | None =>
  match rematch re_DELIMITADOR s Some with
  | Some r => Some (DELIMITADOR, r)
  | None =>
  match rematch re_ESPACIO s Some with
  | Some r => Some (ESPACIO, r)
  | None =>
  match rematch re_DESCONOCIDO s Some with
  | Some r => Some (DESCONOCIDO, r)
  | None => None
  end end end end end end end end.
Proof. reflexivity. Qed.

(** ** Coverage *)




(** ** String literals *)

Lemma cadena_char_not_quote (c : ascii) :
  cadena_char c = true -> Ascii.eqb dquote c = false.
Proof.
  destruct c as [[] [] [] [] [] [] [] []]; vm_compute; intros H;
    solve [reflexivity | discriminate H].
Qed.

Lemma re_CADENA_head (s : string) :
  rematch re_CADENA (String dquote s) Some =
  rematch (Star (Cls cadena_char)) s (fun s' => rematch (Lit dquote) s' Some).
Proof. reflexivity. Qed.

Lemma re_CADENA_closed (body rest : string) :
  cadena_body body = true ->
  rematch re_CADENA (String dquote (body ++ String dquote rest)) Some = Some rest.
Proof.
  intros B. rewrite re_CADENA_head.
  apply rematch_star_cls_run; [|exact B].
  rewrite rematch_star_cls_cons. reflexivity.
Qed.

Lemma re_CADENA_open (body rest : string) :
  cadena_body body = true -> ends_line rest ->
  rematch re_CADENA (String dquote (body ++ rest)) Some = None.
Proof.
  intros B E. rewrite re_CADENA_head. revert B.
  induction body as [|c body IH]; simpl append; intros B.
  - destruct E as [->|[r ->]]; [reflexivity|].
    rewrite rematch_star_cls_cons. reflexivity.
  - simpl in B. apply andb_true_iff in B. destruct B as [B1 B2].
    rewrite rematch_star_cls_cons, B1, (IH B2).
    change (rematch (Lit dquote) (String c (body ++ rest)) Some)
      with (if Ascii.eqb dquote c then Some (body ++ rest) else None).
    now rewrite (cadena_char_not_quote _ B1).
Qed.

Lemma matches_re_CADENA (a : string) :
  matches re_CADENA a ->
  exists b, a = dq ++ b ++ dq /\ cadena_body b = true.
Proof.
  intros H. unfold re_CADENA in H.
  inversion H as [| |r1 r2 a1 a2 H1 H2| | | |]; subst.
  inversion H2 as [| |r1 r2 a3 a4 H3 H4| | | |]; subst.
  apply matches_cls in H1, H4.
  destruct H1 as (c1 & -> & C1). destruct H4 as (c4 & -> & C4).
  apply Ascii.eqb_eq in C1, C4. subst c1 c4.
  apply matches_star_cls in H3. exists a3. auto.
Qed.

Lemma cadena_tokens (codigo : string) (tk : Token) :
  In tk (analizar_lexico codigo) -> tipo tk = CADENA ->
  exists b, lexema tk = dq ++ b ++ dq /\ cadena_body b = true.
Proof.
  intros I T. apply analizar_lexico_tokens in I.
  destruct I as (m & r & _ & S & L & -> & C). rewrite C in T.
  unfold clasificar in T.
  destruct ((m_lastgroup m =? IDENTIFICADOR) && mem (lower (m_group m)) RESERVADAS);
    [discriminate|].
  apply token_specs_lookup in S. rewrite T in S.
  repeat (destruct S as [[S1 S2]|S]; try discriminate S1).
  - subst r. now apply matches_re_CADENA.
  - destruct S as [S1 _]. discriminate S1.
Qed.

Lemma finditer_from_empty (fuel pos : nat) : finditer_from fuel pos "" = [].
Proof. destruct fuel; reflexivity. Qed.

Lemma finditer_head (pre rest g : string) :
  pre <> "" ->
  regex_tokens (pre ++ rest) = Some (g, rest) ->
  finditer (pre ++ rest) =
  mkMatch 0 g pre
    :: finditer_from (String.length (pre ++ rest) - 1) (String.length pre) rest.
Proof.
  intros N E. destruct pre as [|c pre]; [now contradiction N|].
  unfold finditer. simpl append in *.
  change (String.length (String c (pre ++ rest)))
    with (S (String.length (pre ++ rest))) at 1.
  rewrite finditer_from_eq, E. cbv zeta.
  change (String c (pre ++ rest)) with (String c pre ++ rest).
  rewrite length_app.
  replace (String.length (String c pre) + String.length rest - String.length rest)
    with (String.length (String c pre)) by lia.
  rewrite Nat.max_l by (simpl; lia).
  rewrite take_app, drop_app, length_app. simpl. now rewrite Nat.sub_0_r.
Qed.

Lemma first_token (pre rest g : string) :
  pre <> "" ->
  regex_tokens (pre ++ rest) = Some (g, rest) ->
  ignorado (mkMatch 0 g pre) = false ->
  exists tl,
    analizar_lexico (pre ++ rest) =
    mkToken (clasificar (mkMatch 0 g pre)) pre 1 1 :: tl.
Proof.
  intros N E I. unfold analizar_lexico. rewrite (finditer_head N E).
  destruct pre as [|c pre]; [now contradiction N|]. simpl append. simpl lex_loop.
  eapply lex_loop_keeps_first. now apply lex_first_step.
Qed.

Lemma regex_tokens_cadena_closed (body rest : string) :
  cadena_body body = true ->
  regex_tokens ((dq ++ body ++ dq) ++ rest) = Some (CADENA, rest).
Proof.
  intros B. rewrite app_assoc_s, app_assoc_s. simpl append.
  rewrite regex_tokens_eq.
  change (rematch re_LINE_COMMENT (String dquote (body ++ String dquote rest)) Some)
    with (@None string).
  change (rematch re_NUMERO (String dquote (body ++ String dquote rest)) Some)
    with (@None string).
  now rewrite re_CADENA_closed.
Qed.

Lemma regex_tokens_cadena_open (body rest : string) :
  cadena_body body = true -> ends_line rest ->
  regex_tokens (dq ++ body ++ rest) = Some (DESCONOCIDO, body ++ rest).
Proof.
  intros B E. simpl append. rewrite regex_tokens_eq.
  change (rematch re_LINE_COMMENT (String dquote (body ++ rest)) Some)
    with (@None string).
  change (rematch re_NUMERO (String dquote (body ++ rest)) Some)
    with (@None string).
  rewrite (@re_CADENA_open body rest B E). reflexivity.
Qed.

(** C3, as stated, fails: after a double quote with no closing double
    quote on its line the tokenizer emits no string literal; here the
    tokens are the quote alone, of kind DESCONOCIDO, and the identifier
    [ab]. *)
Lemma C3_counterexample :
  cadena_body "ab" = true
  /\ analizar_lexico unterminated_src =
     [mkToken DESCONOCIDO dq 1 1; mkToken IDENTIFICADOR "ab" 1 2]
  /\ ~ (exists tk, In tk (analizar_lexico unterminated_src)
                   /\ (tipo tk = CADENA \/ lexema tk = unterminated_src)).
Proof.
  split; [reflexivity|]. split; [reflexivity|].
  intros (tk & I & H).
  change (analizar_lexico unterminated_src)
    with [mkToken DESCONOCIDO dq 1 1; mkToken IDENTIFICADOR "ab" 1 2] in I.
  destruct I as [<-|[<-|[]]]; destruct H as [H|H]; discriminate H.
Qed.

(** C3 (amended). A string literal needs its closing double quote on the
    same line.  For a text [body] without double quote and line feed:
    - where the scan is at a double quote followed by [body] and then by
      the end of the text or a line feed, the match is that double quote
      alone, of group DESCONOCIDO, and a text that starts so has the token
      DESCONOCIDO of that one character as its first token;
    - where the scan is at a double quote followed by [body] and a double
      quote, the match is the group CADENA up to and with the closing
      quote, and a text that starts so has that CADENA token first;
    - in every text, the lexeme of every CADENA token is a double quote,
      a text without double quote and line feed, and a double quote. *)
Theorem C3_cadena (codigo body rest : string) :
  cadena_body body = true ->
  ends_line rest ->
  (regex_tokens (dq ++ body ++ rest) = Some (DESCONOCIDO, body ++ rest)
   /\ exists tl, analizar_lexico (dq ++ body ++ rest) =
                 mkToken DESCONOCIDO dq 1 1 :: tl)
  /\ (forall rest',
         regex_tokens ((dq ++ body ++ dq) ++ rest') = Some (CADENA, rest')
         /\ exists tl, analizar_lexico ((dq ++ body ++ dq) ++ rest') =
                       mkToken CADENA (dq ++ body ++ dq) 1 1 :: tl)
  /\ Forall (fun tk => exists b, lexema tk = dq ++ b ++ dq /\ cadena_body b = true)
            (filter (fun tk => tipo tk =? CADENA) (analizar_lexico codigo)).
Proof.
  intros B E. split; [|split].
  - pose proof (@regex_tokens_cadena_open body rest B E) as R. split; [exact R|].
    change (dq ++ body ++ rest) with (dq ++ (body ++ rest)) in *.
    apply (first_token (pre := dq) (rest := body ++ rest) (g := DESCONOCIDO));
      auto; discriminate.
  - intros rest'. pose proof (@regex_tokens_cadena_closed body rest' B) as R.
    split; [exact R|].
    apply (first_token (pre := dq ++ body ++ dq) (rest := rest') (g := CADENA));
      auto; discriminate.
  - apply Forall_forall. intros tk I. apply filter_In in I. destruct I as [I T].
    apply String.eqb_eq in T. now apply cadena_tokens with (codigo := codigo).
Qed.

Lemma C3_cadena_witness :
  (cadena_body "ab" = true /\ ends_line "")
  /\ exists tl, analizar_lexico (dq ++ "ab" ++ "") = mkToken DESCONOCIDO dq 1 1 :: tl.
Proof.
  assert (B : cadena_body "ab" = true) by reflexivity.
  assert (E : ends_line "") by (left; reflexivity).
  split; [split; assumption|].
  exact (proj2 (proj1 (@C3_cadena "x" "ab" "" B E))).
Defined.

(** ** Identifiers and reserved words *)

Lemma reservada_eq (s : string) : mem (lower s) RESERVADAS = reservada s.
Proof. reflexivity. Qed.

Lemma ident_start_char (c : ascii) :
  is_ident_start c = true ->
  Ascii.eqb "/" c = false /\ is_digit c = false /\ Ascii.eqb dquote c = false.
Proof.
  destruct c as [[] [] [] [] [] [] [] []]; vm_compute; intros H;
    solve [auto | discriminate H].
Qed.

Lemma regex_tokens_ident (s : string) :
  identifier_shaped s = true -> regex_tokens s = Some (IDENTIFICADOR, "").
Proof.
  destruct s as [|c s]; simpl; intros H; [discriminate|].
  apply andb_true_iff in H. destruct H as [H1 H2].
  destruct (ident_start_char _ H1) as (C1 & C2 & C3).
  rewrite regex_tokens_eq.
  change (rematch re_LINE_COMMENT (String c s) Some)
    with (if Ascii.eqb "/" c
          then rematch (Cat (Lit "/") (Star (NoneOf nl))) s Some else None).
  change (rematch re_NUMERO (String c s) Some)
    with (if is_digit c
          then rematch (Star (Cls is_digit)) s
                       (fun s' => rematch (Opt (Cat (Lit ".") (Plus (Cls is_digit)))) s' Some)
          else None).
  change (rematch re_CADENA (String c s) Some)
    with (if Ascii.eqb dquote c
          then rematch (Cat (Star (NoneOf (dq ++ nl))) (Lit dquote)) s Some
          else None).
  change (rematch re_IDENTIFICADOR (String c s) Some)
    with (if is_ident_start c then rematch (Star (Cls is_word)) s Some else None).
  rewrite C1, C2, C3, H1.
  rewrite <- (app_empty_r s) at 1.
  now rewrite (@rematch_star_cls_run is_word Some "" "" eq_refl s H2).
Qed.

Lemma matches_re_IDENTIFICADOR (a : string) :
  matches re_IDENTIFICADOR a -> identifier_shaped a = true.
Proof.
  intros H. unfold re_IDENTIFICADOR in H.
  inversion H as [| |r1 r2 a1 a2 H1 H2| | | |]; subst.
  apply matches_cls in H1. destruct H1 as (c & -> & C).
  apply matches_star_cls in H2. simpl. now rewrite C, H2.
Qed.

Lemma analizar_lexico_ident (s : string) :
  identifier_shaped s = true ->
  analizar_lexico s =
  [mkToken (if reservada s then PALABRA_RESERVADA else IDENTIFICADOR) s 1 1].
Proof.
  intros H. pose proof (regex_tokens_ident s H) as R.
  assert (N : s <> "") by (destruct s; [discriminate H | discriminate]).
  rewrite <- (app_empty_r s) in R.
  pose proof (finditer_head N R) as F. rewrite app_empty_r in F.
  rewrite finditer_from_empty in F.
  unfold analizar_lexico. rewrite F.
  destruct s as [|c s]; [now contradiction N|].
  unfold lex_loop. cbn [fold_left]. rewrite lex_first_step by reflexivity.
  reflexivity.
Qed.

Lemma ident_tokens (codigo : string) (tk : Token) :
  In tk (analizar_lexico codigo) ->
  (tipo tk = PALABRA_RESERVADA ->
   identifier_shaped (lexema tk) = true /\ reservada (lexema tk) = true)
  /\ (tipo tk = IDENTIFICADOR ->
      identifier_shaped (lexema tk) = true /\ reservada (lexema tk) = false).
Proof.
  intros I. apply analizar_lexico_tokens in I.
  destruct I as (m & r & _ & S & L & -> & ->).
  apply token_specs_lookup in S. unfold clasificar.
  rewrite reservada_eq.
  destruct S as [[S ->]|[[S ->]|[[S ->]|[[S ->]|[[S ->]|[[S ->]|[[S ->]|[S ->]]]]]]]];
    rewrite S in *; simpl; try (split; discriminate).
  apply matches_re_IDENTIFICADOR in L.
  destruct (reservada (m_group m)); split; intros T; try discriminate T; auto.
Qed.

(** C7. A text of the shape of an identifier, alone, gives one token with
    that very text as lexeme; its kind is PALABRA_RESERVADA when the text
    is a reserved word but for the case of its letters, and IDENTIFICADOR
    otherwise.  So [INT], [Int] and [int] are reserved words.  In any text
    [codigo], a token PALABRA_RESERVADA has the shape of an identifier and
    is a reserved word but for case, and a token IDENTIFICADOR has that
    shape and is not. *)
Theorem C7_reserved_words (s codigo : string) :
  identifier_shaped s = true ->
  analizar_lexico s =
    [mkToken (if reservada s then PALABRA_RESERVADA else IDENTIFICADOR) s 1 1]
  /\ (analizar_lexico "INT" = [mkToken PALABRA_RESERVADA "INT" 1 1]
      /\ analizar_lexico "Int" = [mkToken PALABRA_RESERVADA "Int" 1 1]
      /\ analizar_lexico "int" = [mkToken PALABRA_RESERVADA "int" 1 1]
      /\ analizar_lexico "inte" = [mkToken IDENTIFICADOR "inte" 1 1])
  /\ Forall (fun tk => identifier_shaped (lexema tk) = true
                       /\ reservada (lexema tk) = true)
            (filter (fun tk => tipo tk =? PALABRA_RESERVADA) (analizar_lexico codigo))
  /\ Forall (fun tk => identifier_shaped (lexema tk) = true
                       /\ reservada (lexema tk) = false)
            (filter (fun tk => tipo tk =? IDENTIFICADOR) (analizar_lexico codigo)).
Proof.
  intros H. split; [now apply analizar_lexico_ident|].
  split; [repeat split; reflexivity|].
  split; apply Forall_forall; intros tk I; apply filter_In in I;
    destruct I as [I T]; apply String.eqb_eq in T;
    now apply (ident_tokens codigo tk I).
Qed.

Lemma C7_reserved_words_witness :
  identifier_shaped "PrintF" = true
  /\ analizar_lexico "PrintF" = [mkToken PALABRA_RESERVADA "PrintF" 1 1].
Proof.
  split; [reflexivity|].
  exact (proj1 (@C7_reserved_words "PrintF" "int a;" eq_refl)).
Defined.

(** ** The primitive operations of the parser *)

Lemma peek_0 (p : Parser) : peek 0 p = Some (nth_error (t p) (i p), p).
Proof.
  unfold peek. rewrite Z.add_0_r, Nat2Z.id.
  destruct (Z.leb_spec 0 (Z.of_nat (i p))) as [_|H]; [|lia].
  destruct (Z.ltb_spec (Z.of_nat (i p)) (Z.of_nat (List.length (t p)))) as [H|H];
    simpl; [reflexivity|].
  assert (N : nth_error (t p) (i p) = None) by (apply nth_error_None; lia).
  now rewrite N.
Qed.

Lemma match_eq (tipo_ lexema_ msg : option string) (p : Parser) :
  match_ tipo_ lexema_ msg p =
  Some (let tok := nth_error (t p) (i p) in
        if acepta tipo_ lexema_ tok
        then (tok, mkParser (t p) (i p + 1) (err p))
        else (None,
              mkParser (t p)
                       (match tok with Some _ => i p + 1 | None => i p end)
                       (err p ++ [diagnostic tipo_ lexema_ msg tok]))).
Proof.
  unfold match_, bind. rewrite peek_0. cbv zeta.
  destruct (nth_error (t p) (i p)) as [tk|] eqn:E.
  - destruct (acepta tipo_ lexema_ (Some tk)); reflexivity.
  - reflexivity.
Qed.

(** ** The cursor stays within the tokens, and the productions return *)

Ltac ok_tac :=
  unfold ok, wf in *; simpl in *; repeat split; try reflexivity; try lia.

Lemma ok_refl (p : Parser) : wf p -> ok p p.
Proof. unfold ok. auto. Qed.

Lemma ok_trans (p q r : Parser) : ok p q -> ok q r -> ok p r.
Proof. unfold ok. intros (A1 & A2 & A3) (B1 & B2 & B3). repeat split; [congruence | lia | assumption]. Qed.

Lemma ok_left (p q : Parser) : ok p q -> left_ q <= left_ p.
Proof. unfold ok, left_. intros (A1 & A2 & A3). rewrite A1. lia. Qed.

Lemma strict_total (A : Type) (c : M A) (p : Parser) : strict c p -> total c p.
Proof. intros (a & q & E & O & _). exists a, q. auto. Qed.

Lemma total_bind (A B : Type) (c : M A) (f : A -> M B) (p : Parser) :
  total c p -> (forall a q, ok p q -> total (f a) q) -> total (bind c f) p.
Proof.
  intros (a & q & E & O) F. destruct (F a q O) as (b & r & E' & O').
  exists b, r. unfold bind. rewrite E. split; [exact E' | eapply ok_trans; eauto].
Qed.

Lemma strict_bind (A B : Type) (c : M A) (f : A -> M B) (p : Parser) :
  strict c p -> (forall a q, ok p q -> total (f a) q) -> strict (bind c f) p.
Proof.
  intros (a & q & E & O & L) F. destruct (F a q O) as (b & r & E' & O').
  exists b, r. unfold bind. rewrite E.
  split; [exact E' | split; [eapply ok_trans; eauto | destruct O' as (_ & ? & _); lia]].
Qed.

Lemma total_ret (A : Type) (a : A) (p : Parser) : wf p -> total (ret a) p.
Proof. intros W. exists a, p. split; [reflexivity | now apply ok_refl]. Qed.

Lemma total_error (msg : string) (p : Parser) : wf p -> total (error msg) p.
Proof.
  intros W. eexists tt, _. split; [reflexivity|]. ok_tac.
Qed.

Lemma strict_avanzar (p : Parser) (tk : Token) :
  nth_error (t p) (i p) = Some tk -> strict avanzar p.
Proof.
  intros E. assert (i p < List.length (t p)) by (apply nth_error_Some; congruence).
  eexists tt, _. split; [reflexivity|]. ok_tac.
Qed.

Lemma total_match (tipo_ lexema_ msg : option string) (p : Parser) :
  wf p -> total (match_ tipo_ lexema_ msg) p.
Proof.
  intros W. unfold total. rewrite match_eq. cbv zeta.
  destruct (nth_error (t p) (i p)) as [tk|] eqn:E.
  - assert (i p < List.length (t p)) by (apply nth_error_Some; congruence).
    destruct (acepta tipo_ lexema_ (Some tk)); eexists _, _;
      (split; [reflexivity|]); ok_tac.
  - simpl. eexists _, _. split; [reflexivity|]. ok_tac.
Qed.

(** With a token under the cursor, [match] moves the cursor, whether the
    token is the expected one or not. *)
Lemma strict_match (tipo_ lexema_ msg : option string) (p : Parser) (tk : Token) :
  nth_error (t p) (i p) = Some tk -> strict (match_ tipo_ lexema_ msg) p.
Proof.
  intros E. unfold strict. rewrite match_eq, E. cbv zeta.
  assert (i p < List.length (t p)) by (apply nth_error_Some; congruence).
  destruct (acepta tipo_ lexema_ (Some tk)); eexists _, _;
    (split; [reflexivity|]); ok_tac.
Qed.

Lemma peek_is_eq (f : Token -> bool) (p : Parser) :
  peek_is f p =
  Some (match nth_error (t p) (i p) with Some tk => f tk | None => false end, p).
Proof. unfold peek_is, bind. now rewrite peek_0. Qed.

Lemma while_eq (n : nat) (cond : M bool) (body : M unit) :
  while_ n cond body =
  (c <- cond ;;
   if c then
     match n with
     | O => out_of_fuel
     | S n' => body ;; while_ n' cond body
     end
   else ret tt).
Proof. destruct n; reflexivity. Qed.

(** A loop whose body moves the cursor returns within as many rounds as
    there are tokens left. *)
Section While.

Variables (f : Token -> bool) (body : M unit) (p0 : Parser).

Hypothesis body_moves :
  forall p tk, ok p0 p -> nth_error (t p) (i p) = Some tk -> f tk = true ->
               strict body p.

Lemma total_while :
  forall n p, ok p0 p -> left_ p <= n -> total (while_ n (peek_is f) body) p.
Proof.
  induction n as [|n IH]; intros p O L; rewrite while_eq;
    unfold total, bind at 1; rewrite peek_is_eq; fold (@total unit);
    destruct (nth_error (t p) (i p)) as [tk|] eqn:E;
    try (apply total_ret; apply O).
  - assert (i p < List.length (t p)) by (apply nth_error_Some; congruence).
    unfold left_ in L. lia.
  - destruct (f tk) eqn:F; [|apply total_ret; apply O].
    destruct (body_moves O E F) as ([] & q & Eq & Oq & Lq).
    assert (T : total (while_ n (peek_is f) body) q).
    { apply IH; [eapply ok_trans; eauto|].
      pose proof (ok_left Oq). unfold left_ in *.
      destruct Oq as (Q1 & Q2 & Q3). rewrite Q1 in *. lia. }
    destruct T as (a & r & Er & Or). exists a, r. unfold bind. rewrite Eq.
    split; [exact Er | eapply ok_trans; eauto].
Qed.

End While.

Lemma ok_wf (p q : Parser) : ok p q -> wf q.
Proof. intros O. apply O. Qed.

Ltac step :=
  match goal with
  | |- total (bind _ _) _ => apply total_bind; [|intros ? ? ?]
  | |- strict (bind _ _) _ => apply strict_bind; [|intros ? ? ?]
  | |- total (ret _) _ => apply total_ret
  | |- total (match_ _ _ _) _ => apply total_match
  | |- total (error _) _ => apply total_error
  | |- strict (match_ _ _ _) _ => eapply strict_match; eassumption
  | |- strict avanzar _ => eapply strict_avanzar; eassumption
  | |- wf _ => solve [assumption | eapply ok_wf; eassumption]
  end.

(** Arithmetic on the tokens left, from the [ok] facts at hand. *)
Ltac lefts :=
  repeat match goal with
         | O : ok _ _ |- _ => pose proof (ok_left O); revert O
         end;
  intros; lia.

Lemma error_avanzar (msg : string) (p : Parser) (tk : Token) :
  nth_error (t p) (i p) = Some tk -> strict (error msg ;; avanzar) p.
Proof.
  intros E. assert (i p < List.length (t p)) by (apply nth_error_Some; congruence).
  eexists tt, _. split; [reflexivity|]. ok_tac.
Qed.

(** The shape shared by [expr_body] and [term_body]. *)
Lemma total_binop_loop (n : nat) (f : Token -> bool) (sub : M unit) (p : Parser) :
  wf p -> left_ p <= n ->
  (forall q, ok p q -> total sub q) ->
  total (sub ;; while_ n (peek_is f) (avanzar ;; sub)) p.
Proof.
  intros W L Hsub. step; [apply Hsub; now apply ok_refl|].
  apply total_while with (p0 := q); [|apply ok_refl; step|lefts].
  intros r tk Or E F. step; [step|]. apply Hsub. eauto using ok_trans.
Qed.

Lemma total_peek (A : Type) (f : option Token -> M A) (p : Parser) :
  total (f (nth_error (t p) (i p))) p -> total (bind (peek 0) f) p.
Proof. unfold total, bind. now rewrite peek_0. Qed.

Lemma strict_peek (A : Type) (f : option Token -> M A) (p : Parser) :
  strict (f (nth_error (t p) (i p))) p -> strict (bind (peek 0) f) p.
Proof. unfold strict, bind. now rewrite peek_0. Qed.

Lemma total_bind_eq (A B : Type) (c : M A) (f : A -> M B) (p q : Parser) (a : A) :
  c p = Some (a, q) -> ok p q -> total (f a) q -> total (bind c f) p.
Proof.
  intros E O (b & r & E' & O'). exists b, r. unfold bind. rewrite E.
  split; [exact E' | eapply ok_trans; eauto].
Qed.

Lemma total_factor_body (e : M unit) (p : Parser) :
  wf p ->
  (forall q, ok p q -> i p < i q -> total e q) ->
  total (factor_body e) p.
Proof.
  intros W He. unfold factor_body. apply total_peek.
  destruct (nth_error (t p) (i p)) as [tk|] eqn:E; [|now step].
  destruct (mem (tipo tk) [IDENTIFICADOR; NUMERO]).
  { apply strict_total. step. }
  destruct (is_tok DELIMITADOR "(" tk).
  - assert (S : strict avanzar p) by step.
    destruct S as ([] & q & Eq & Oq & Lq).
    eapply total_bind_eq; [exact Eq | exact Oq |].
    step; [now apply He|]. step; [step; step|]. step. step.
  - apply strict_total. now apply error_avanzar with (tk := tk).
Qed.

(** Fuel that is enough: three for each token left, and one, two or
    three more for [parse_factor], [parse_term] and [parse_expr]. *)
Lemma total_expr_fuel (n : nat) :
  forall p, wf p ->
            (3 * left_ p + 1 <= n -> total (parse_factor n) p)
            /\ (3 * left_ p + 2 <= n -> total (parse_term n) p)
            /\ (3 * left_ p + 3 <= n -> total (parse_expr n) p).
Proof.
  induction n as [|n IH]; intros p W; repeat split; intros L; try lia.
  - change (parse_factor (S n)) with (factor_body (parse_expr n)).
    apply total_factor_body; [exact W|]. intros q O Lq.
    apply IH; [step|]. unfold left_, ok, wf in *.
    destruct O as (O1 & O2 & O3). rewrite O1 in *. lia.
  - change (parse_term (S n)) with (term_body n (parse_factor n)).
    apply total_binop_loop; [exact W | lia |].
    intros q O. apply IH; [step | lefts].
  - change (parse_expr (S n)) with (expr_body n (parse_term n)).
    apply total_binop_loop; [exact W | lia |].
    intros q O. apply IH; [step | lefts].
Qed.

Lemma total_parse_expr (n : nat) (p : Parser) :
  wf p -> 3 * left_ p + 3 <= n -> total (parse_expr n) p.
Proof. intros W. now apply total_expr_fuel. Qed.

Lemma strict_parse_decl (n : nat) (p : Parser) (tk : Token) :
  nth_error (t p) (i p) = Some tk -> left_ p <= n -> strict (parse_decl n) p.
Proof.
  intros E L. unfold parse_decl. step; [step|]. step; [step; step|].
  step; [|step; [step; step | step; step]].
  apply total_while with (p0 := q0); [|apply ok_refl; step|lefts].
  intros r tk' Or E' F. step; [step|]. step; [step; step | step; step].
Qed.

Lemma strict_parse_read (p : Parser) (tk : Token) :
  nth_error (t p) (i p) = Some tk -> strict parse_read p.
Proof.
  intros E. unfold parse_read. step; [step|]. step; [step; step|].
  step; [step; step | step; step].
Qed.

Lemma strict_parse_printf (p : Parser) (tk : Token) :
  nth_error (t p) (i p) = Some tk -> strict parse_printf p.
Proof.
  intros E. unfold parse_printf. step; [step|]. step; [step; step|].
  step; [step; step|]. step; [step; step|]. step; [step; step | step; step].
Qed.

Lemma strict_parse_assign (n : nat) (p : Parser) (tk : Token) :
  nth_error (t p) (i p) = Some tk -> 3 * left_ p + 3 <= n ->
  strict (parse_assign n) p.
Proof.
  intros E L. unfold parse_assign. step; [step|]. step; [step; step|].
  step; [apply total_parse_expr; [step | lefts]|].
  step; [step; step | step; step].
Qed.

Lemma strict_parse_stmt (n : nat) (p : Parser) (tk : Token) :
  nth_error (t p) (i p) = Some tk -> 3 * left_ p + 3 <= n ->
  strict (parse_stmt n) p.
Proof.
  intros E L. unfold parse_stmt. apply strict_peek. rewrite E.
  destruct (is_tok PALABRA_RESERVADA "int" tk).
  { apply strict_parse_decl with (tk := tk); [exact E | lia]. }
  destruct (is_tok PALABRA_RESERVADA "read" tk).
  { now apply strict_parse_read with (tk := tk). }
  destruct (is_tok PALABRA_RESERVADA "printf" tk).
  { now apply strict_parse_printf with (tk := tk). }
  destruct (is_tok PALABRA_RESERVADA "end" tk).
  { step; [step|]. step; [step; step | step; step]. }
  destruct (tipo tk =? IDENTIFICADOR).
  { now apply strict_parse_assign with (tk := tk). }
  now apply error_avanzar with (tk := tk).
Qed.

Lemma total_parse_stmt (n : nat) (p : Parser) :
  wf p -> 3 * left_ p + 3 <= n -> total (parse_stmt n) p.
Proof.
  intros W L. destruct (nth_error (t p) (i p)) as [tk|] eqn:E.
  - apply strict_total. now apply strict_parse_stmt with (tk := tk).
  - unfold parse_stmt. apply total_peek. rewrite E. now step.
Qed.

Lemma total_parse_programa (n : nat) (p : Parser) :
  wf p -> 3 * left_ p + 3 <= n -> total (parse_programa n) p.
Proof.
  intros W L. unfold parse_programa.
  do 5 (step; [step; step|]).
  step; [|step; [step; step | step; step]].
  apply total_while with (p0 := q3); [|apply ok_refl; step|lefts].
  intros r tk Or E F. apply strict_parse_stmt with (tk := tk); [exact E | lefts].
Qed.

(** ** More fuel does not change a result *)

Lemma refines_refl (A : Type) (c : M A) : refines c c.
Proof. intros p x H. exact H. Qed.

Lemma refines_trans (A : Type) (c1 c2 c3 : M A) :
  refines c1 c2 -> refines c2 c3 -> refines c1 c3.
Proof. intros H1 H2 p x H. apply H2, H1, H. Qed.

Lemma refines_out_of_fuel (A : Type) (c : M A) : refines out_of_fuel c.
Proof. intros p x H. discriminate H. Qed.

Lemma refines_bind (A B : Type) (c c' : M A) (f f' : A -> M B) :
  refines c c' -> (forall a, refines (f a) (f' a)) ->
  refines (bind c f) (bind c' f').
Proof.
  intros Hc Hf p x H. unfold bind in *.
  destruct (c p) as [[a q]|] eqn:E; [|discriminate].
  rewrite (Hc _ _ E). now apply Hf.
Qed.

Ltac mono :=
  repeat first
    [ apply refines_refl
    | assumption
    | apply refines_out_of_fuel
    | apply refines_bind; [|intros ?] ].

Lemma refines_while (cond : M bool) (body body' : M unit) :
  refines body body' ->
  forall n m, n <= m -> refines (while_ n cond body) (while_ m cond body').
Proof.
  intros Hb. induction n as [|n IH]; intros m L;
    rewrite (while_eq _ cond body), (while_eq m cond body');
    apply refines_bind; try apply refines_refl; intros [|]; mono.
  destruct m as [|m]; [lia|]. mono. apply IH. lia.
Qed.

Lemma refines_expr_body (n m : nat) (sub sub' : M unit) :
  n <= m -> refines sub sub' -> refines (expr_body n sub) (expr_body m sub').
Proof.
  intros L H. unfold expr_body. mono. apply refines_while; [mono | exact L].
Qed.

Lemma refines_term_body (n m : nat) (sub sub' : M unit) :
  n <= m -> refines sub sub' -> refines (term_body n sub) (term_body m sub').
Proof.
  intros L H. unfold term_body. mono. apply refines_while; [mono | exact L].
Qed.

Lemma refines_factor_body (e e' : M unit) :
  refines e e' -> refines (factor_body e) (factor_body e').
Proof.
  intros H. unfold factor_body. apply refines_bind; [mono|]. intros [tk|]; [|mono].
  destruct (mem (tipo tk) [IDENTIFICADOR; NUMERO]); [mono|].
  destruct (is_tok DELIMITADOR "(" tk); mono.
Qed.

Lemma refines_expr_S (n : nat) :
  refines (parse_factor n) (parse_factor (S n))
  /\ refines (parse_term n) (parse_term (S n))
  /\ refines (parse_expr n) (parse_expr (S n)).
Proof.
  induction n as [|n (IH1 & IH2 & IH3)]; [repeat split; apply refines_out_of_fuel|].
  repeat split.
  - change (refines (factor_body (parse_expr n)) (factor_body (parse_expr (S n)))).
    now apply refines_factor_body.
  - change (refines (term_body n (parse_factor n))
                    (term_body (S n) (parse_factor (S n)))).
    apply refines_term_body; [lia | exact IH1].
  - change (refines (expr_body n (parse_term n))
                    (expr_body (S n) (parse_term (S n)))).
    apply refines_expr_body; [lia | exact IH2].
Qed.

Lemma refines_parse_expr (n m : nat) :
  n <= m -> refines (parse_expr n) (parse_expr m).
Proof.
  induction 1 as [|m L IH]; [apply refines_refl|].
  eapply refines_trans; [exact IH | apply refines_expr_S].
Qed.

Lemma refines_parse_stmt (n m : nat) :
  n <= m -> refines (parse_stmt n) (parse_stmt m).
Proof.
  intros L. unfold parse_stmt. apply refines_bind; [mono|]. intros [tk|]; [|mono].
  destruct (is_tok PALABRA_RESERVADA "int" tk).
  { unfold parse_decl. mono. apply refines_while; [mono | exact L]. }
  destruct (is_tok PALABRA_RESERVADA "read" tk); [mono|].
  destruct (is_tok PALABRA_RESERVADA "printf" tk); [mono|].
  destruct (is_tok PALABRA_RESERVADA "end" tk); [mono|].
  destruct (tipo tk =? IDENTIFICADOR); [|mono].
  unfold parse_assign. mono. now apply refines_parse_expr.
Qed.

Lemma refines_parse_programa (n m : nat) :
  n <= m -> refines (parse_programa n) (parse_programa m).
Proof.
  intros L. unfold parse_programa. mono.
  apply refines_while; [now apply refines_parse_stmt | exact L].
Qed.

Lemma analizar_sintactico_mono (n m : nat) (codigo : string) (tokens : list Token)
      (r : ParseResult) :
  n <= m ->
  analizar_sintactico n codigo tokens = Some r ->
  analizar_sintactico m codigo tokens = Some r.
Proof.
  intros L. unfold analizar_sintactico.
  destruct ((parse_programa n ;; sobrantes tokens) (Parser_init tokens))
    as [[a q]|] eqn:E; [|discriminate].
  assert (R : refines (parse_programa n ;; sobrantes tokens)
                      (parse_programa m ;; sobrantes tokens)).
  { apply refines_bind; [now apply refines_parse_programa|].
    intros ?. apply refines_refl. }
  intros H. now rewrite (R _ _ E).
Qed.

(** ** [match] *)

(** C6, as stated, fails: a failed [match] that was given a message
    appends that message as it is.  The message of [parse_decl] is the
    same whether [printf] on line 1, the number 7 on line 9 or the end of
    the tokens was found, and it is not the description of expected
    versus found. *)
Lemma C6_counterexample :
  match_ (Some DELIMITADOR) (Some ";") (Some msg_decl) (Parser_init [tok_printf])
    = Some (None, mkParser [tok_printf] 1 [msg_decl])
  /\ match_ (Some DELIMITADOR) (Some ";") (Some msg_decl) (Parser_init [tok_siete])
    = Some (None, mkParser [tok_siete] 1 [msg_decl])
  /\ match_ (Some DELIMITADOR) (Some ";") (Some msg_decl) (Parser_init [])
    = Some (None, mkParser [] 0 [msg_decl])
  /\ msg_decl <> expected_found (Some DELIMITADOR) (Some ";") (Some tok_printf)
  /\ msg_decl <> expected_found (Some DELIMITADOR) (Some ";") (Some tok_siete)
  /\ msg_decl <> expected_found (Some DELIMITADOR) (Some ";") None.
Proof. repeat split; try reflexivity; vm_compute; discriminate. Qed.

(** C6 (amended). With [tok] the token under the cursor, if there is one:
    when [tok] exists and has the kind and the lexeme asked for, [match]
    returns it and moves the cursor by one; otherwise it returns [None],
    appends exactly one diagnostic and moves the cursor by one if [tok]
    exists and not at all if it does not.  The diagnostic is the message
    passed by the caller when there is one; when there is none it names
    what was expected and what was found, with the line of [tok], or with
    [EOF] and [-] in place of the line past the last token.  The token
    list is never changed. *)
Theorem C6_match (tipo_ lexema_ msg : option string) (p : Parser) (tk : Token) :
  match_ tipo_ lexema_ msg p =
    Some (let tok := nth_error (t p) (i p) in
          if acepta tipo_ lexema_ tok
          then (tok, mkParser (t p) (i p + 1) (err p))
          else (None,
                mkParser (t p)
                         (match tok with Some _ => i p + 1 | None => i p end)
                         (err p ++ [diagnostic tipo_ lexema_ msg tok])))
  /\ acepta tipo_ lexema_ None = false
  /\ acepta tipo_ lexema_ (Some tk) =
     is_or_none tipo_ (tipo tk) && is_or_none lexema_ (lexema tk)
  /\ diagnostic tipo_ lexema_ (Some "x") (Some tk) = "x"
  /\ diagnostic tipo_ lexema_ None (Some tk) =
     "Se esperaba " ++ join " y " (esperado tipo_ lexema_)
       ++ " pero se encontr" ++ o' ++ " "
       ++ (tipo tk ++ "('" ++ lexema tk ++ "')")
       ++ " (l" ++ i' ++ "nea " ++ str (linea tk) ++ ")."
  /\ diagnostic tipo_ lexema_ None None =
     "Se esperaba " ++ join " y " (esperado tipo_ lexema_)
       ++ " pero se encontr" ++ o' ++ " EOF (l" ++ i' ++ "nea -).".
Proof. split; [apply match_eq | repeat split; reflexivity]. Qed.

(** ** Sequences of operations *)

Lemma total_parse_decl (n : nat) (p : Parser) :
  wf p -> left_ p <= n -> total (parse_decl n) p.
Proof.
  intros W L. unfold parse_decl. step; [step; step|]. step; [step; step|].
  step; [|step; [step; step | step; step]].
  apply total_while with (p0 := q0); [|apply ok_refl; step|lefts].
  intros r tk' Or E' F. step; [step|]. step; [step; step | step; step].
Qed.

Lemma total_parse_read (p : Parser) : wf p -> total parse_read p.
Proof.
  intros W. unfold parse_read. do 3 (step; [step; step|]). step. step.
Qed.

Lemma total_parse_printf (p : Parser) : wf p -> total parse_printf p.
Proof.
  intros W. unfold parse_printf. do 5 (step; [step; step|]). step. step.
Qed.

Lemma total_parse_assign (n : nat) (p : Parser) :
  wf p -> 3 * left_ p + 3 <= n -> total (parse_assign n) p.
Proof.
  intros W L. unfold parse_assign. do 2 (step; [step; step|]).
  step; [apply total_parse_expr; [step | lefts]|].
  step; [step; step | step; step].
Qed.

Lemma total_run_op (n : nat) (o : op) (p : Parser) :
  wf p -> 3 * left_ p + 3 <= n -> total (run_op n o) p.
Proof.
  intros W L. destruct o; simpl.
  - exists tt, p. split; [reflexivity | now apply ok_refl].
  - step; [step; step | step; step].
  - now apply total_parse_programa.
  - now apply total_parse_stmt.
  - apply total_parse_decl; [exact W | lia].
  - now apply total_parse_read.
  - now apply total_parse_printf.
  - now apply total_parse_assign.
  - now apply total_parse_expr.
  - apply total_expr_fuel; [exact W | lia].
  - apply total_expr_fuel; [exact W | lia].
Qed.

Lemma total_run_ops (n : nat) (ops : list op) :
  forall p, wf p -> 3 * left_ p + 3 <= n -> total (run_ops n ops) p.
Proof.
  induction ops as [|o ops IH]; intros p W L; simpl; [now step|].
  step; [now apply total_run_op|]. apply IH; [step | lefts].
Qed.

Lemma left_init (tokens : list Token) :
  left_ (Parser_init tokens) = List.length tokens.
Proof. unfold left_. simpl. lia. Qed.

Lemma wf_init (tokens : list Token) : wf (Parser_init tokens).
Proof. unfold wf. simpl. lia. Qed.

(** C10. From [Parser(tokens)], any sequence of calls of the methods,
    given fuel three times the number of tokens and three more, returns,
    leaves the token list as it was and leaves the cursor between 0 and
    the number of tokens.  With the cursor at the end of the tokens,
    [match] appends one diagnostic, returns [None] and leaves the cursor
    where it is. *)
Theorem C10_cursor_bounds (tokens : list Token) (ops : list op) (n : nat) :
  3 * List.length tokens + 3 <= n ->
  (exists p', run_ops n ops (Parser_init tokens) = Some (tt, p')
              /\ t p' = tokens /\ 0 <= i p' <= List.length tokens)
  /\ (forall tipo_ lexema_ msg e,
         match_ tipo_ lexema_ msg (mkParser tokens (List.length tokens) e) =
         Some (None,
               mkParser tokens (List.length tokens)
                        (e ++ [diagnostic tipo_ lexema_ msg None]))).
Proof.
  intros L. split.
  - destruct (@total_run_ops n ops (Parser_init tokens)) as ([] & p' & E & O1 & O2 & O3).
    + apply wf_init.
    + rewrite left_init. exact L.
    + exists p'. unfold wf in O3. rewrite O1 in O3. simpl in *. repeat split; auto; lia.
  - intros tipo_ lexema_ msg e. rewrite match_eq. simpl.
    assert (N : nth_error tokens (List.length tokens) = None)
      by (apply nth_error_None; lia).
    now rewrite N.
Qed.

Lemma C10_cursor_bounds_witness :
  3 * List.length [tok_siete] + 3 <= 6
  /\ exists p', run_ops 6 [OpParseFactor; OpMatch None None None; OpParseStmt]
                        (Parser_init [tok_siete]) = Some (tt, p')
                /\ t p' = [tok_siete] /\ 0 <= i p' <= List.length [tok_siete].
Proof.
  assert (L : 3 * List.length [tok_siete] + 3 <= 6) by (simpl; lia).
  split; [exact L|].
  exact (proj1 (@C10_cursor_bounds [tok_siete]
                  [OpParseFactor; OpMatch None None None; OpParseStmt] 6 L)).
Defined.

(** ** [analizar_sintactico] *)

Lemma total_sobrantes (p : Parser) : wf p -> total (sobrantes (t p)) p.
Proof.
  intros W. unfold total, sobrantes.
  destruct (Nat.ltb_spec (i p) (List.length (t p))) as [H|H].
  - destruct (nth_error (t p) (i p)) as [tok|] eqn:E.
    + eexists tt, _. split; [reflexivity|]. ok_tac.
    + apply nth_error_None in E. lia.
  - exists tt, p. split; [reflexivity | now apply ok_refl].
Qed.

Lemma analizar_sintactico_total (n : nat) (codigo : string) (tokens : list Token) :
  3 * List.length tokens + 3 <= n ->
  exists p, (parse_programa n ;; sobrantes tokens) (Parser_init tokens) = Some (tt, p)
            /\ ok (Parser_init tokens) p
            /\ analizar_sintactico n codigo tokens =
               Some (mkParseResult (List.length (err p) =? 0)%nat (err p)).
Proof.
  intros L.
  assert (T : total (parse_programa n ;; sobrantes tokens) (Parser_init tokens)).
  { step.
    - apply total_parse_programa; [apply wf_init | now rewrite left_init].
    - assert (E : tokens = t q) by (symmetry; apply H).
      rewrite E. apply total_sobrantes. step. }
  destruct T as ([] & p & E & O). exists p. repeat split; try apply O; auto.
  unfold analizar_sintactico. now rewrite E.
Qed.

(** ** Number of tokens *)

Lemma contiguous_length (ms : list Match) :
  forall pos, contiguous pos ms -> List.length ms <= String.length (spans ms).
Proof.
  induction ms as [|m ms IH]; intros pos C; simpl; [lia|].
  destruct C as (_ & N & C). apply IH in C.
  unfold spans in *. simpl. rewrite length_app.
  destruct (m_group m); [now contradiction N | simpl; lia].
Qed.

Lemma analizar_lexico_length (codigo : string) :
  List.length (analizar_lexico codigo) <= String.length codigo.
Proof.
  destruct (finditer_from_covers 0 codigo (le_n _)) as (H1 & H2 & _).
  fold (finditer codigo) in H1, H2.
  apply contiguous_length in H2. rewrite H1 in H2.
  rewrite <- (length_map lexema). unfold analizar_lexico.
  rewrite lex_loop_lexemas. simpl. rewrite length_map.
  pose proof (filter_length_le (fun m => negb (ignorado m)) (finditer codigo)).
  lia.
Qed.

(** C2. For every list of tokens, with fuel three times the number of
    tokens and three more (the fuel bounds the depth of the calls and the
    rounds of each loop), [parse_programa] and [analizar_sintactico]
    return.  The cursor starts at 0, is moved only by [avanzar], one
    token at a time and never back, and ends at most at the number of
    tokens: so it is advanced at most once per token.  The tokenizer
    gives at most one token per character, so the same bounds hold in the
    length of the text. *)
Theorem C2_termination (codigo : string) (tokens : list Token) (n : nat) :
  3 * List.length tokens + 3 <= n ->
  (exists p', parse_programa n (Parser_init tokens) = Some (tt, p')
              /\ t p' = tokens /\ i p' <= List.length tokens)
  /\ (exists r, analizar_sintactico n codigo tokens = Some r)
  /\ List.length (analizar_lexico codigo) <= String.length codigo.
Proof.
  intros L. split; [|split].
  - destruct (@total_parse_programa n (Parser_init tokens)) as ([] & p' & E & O1 & O2 & O3).
    + apply wf_init.
    + now rewrite left_init.
    + exists p'. unfold wf in O3. rewrite O1 in O3. auto.
  - destruct (@analizar_sintactico_total n codigo tokens L) as (p & _ & _ & E).
    eauto.
  - apply analizar_lexico_length.
Qed.

Lemma C2_termination_witness :
  3 * List.length (analizar_lexico "a=(1+2)*3;") + 3 <= 33
  /\ exists p', parse_programa 33 (Parser_init (analizar_lexico "a=(1+2)*3;"))
                = Some (tt, p')
                /\ t p' = analizar_lexico "a=(1+2)*3;"
                /\ i p' <= List.length (analizar_lexico "a=(1+2)*3;").
Proof.
  assert (L : 3 * List.length (analizar_lexico "a=(1+2)*3;") + 3 <= 33)
    by (vm_compute; lia).
  split; [exact L|].
  exact (proj1 (@C2_termination "a=(1+2)*3;" (analizar_lexico "a=(1+2)*3;") 33 L)).
Defined.

(** ** The two programs of the specification *)

(** C1. The text [programa p(){ int a; read a; printf("hi"); end; }],
    tokenized and then parsed, gives [correcto = true] and no
    diagnostic, with any fuel from three times the number of tokens and
    three on. *)
Theorem C1_valid_program (n : nat) :
  3 * List.length (analizar_lexico valid_src) + 3 <= n ->
  analizar_sintactico n valid_src (analizar_lexico valid_src) =
  Some (mkParseResult true []).
Proof.
  intros L. apply analizar_sintactico_mono
    with (n := 3 * List.length (analizar_lexico valid_src) + 3); [exact L|].
  vm_compute. reflexivity.
Qed.

Lemma C1_valid_program_witness :
  3 * List.length (analizar_lexico valid_src) + 3 <= 60
  /\ analizar_sintactico 60 valid_src (analizar_lexico valid_src) =
     Some (mkParseResult true []).
Proof.
  assert (L : 3 * List.length (analizar_lexico valid_src) + 3 <= 60)
    by (vm_compute; lia).
  split; [exact L | exact (@C1_valid_program 60 L)].
Defined.

(** C9, as stated, fails: on the text
    [programa p(){ int a printf("x"); end; }] no diagnostic says that a
    [;] is missing and names a line.  The default text of [match] for an
    expected [;] would do both; [parse_decl] passes its own text, which
    names no line. *)
Lemma C9_counterexample :
  (exists r,
      analizar_sintactico 48 bad_src (analizar_lexico bad_src) = Some r
      /\ ~ (exists d, In d (errores r)
                      /\ cita_falta d = true /\ cita_linea d = true))
  /\ cita_falta (expected_found (Some DELIMITADOR) (Some ";") None) = true
  /\ cita_linea (expected_found (Some DELIMITADOR) (Some ";") None) = true.
Proof.
  split; [|split; vm_compute; reflexivity].
  eexists. split; [vm_compute; reflexivity|].
  intros (d & I & F & Li).
  assert (E : existsb (fun d => cita_falta d && cita_linea d)
                [ msg_decl;
                  msg_sentencia DELIMITADOR "(" 1;
                  msg_sentencia CADENA (dq ++ "x" ++ dq) 1;
                  msg_sentencia DELIMITADOR ")" 1;
                  msg_sentencia DELIMITADOR ";" 1 ] = false)
    by (vm_compute; reflexivity).
  assert (E' : existsb (fun d => cita_falta d && cita_linea d)
                 [ msg_decl;
                   msg_sentencia DELIMITADOR "(" 1;
                   msg_sentencia CADENA (dq ++ "x" ++ dq) 1;
                   msg_sentencia DELIMITADOR ")" 1;
                   msg_sentencia DELIMITADOR ";" 1 ] = true).
  { apply existsb_exists. exists d. split; [exact I | now rewrite F, Li]. }
  rewrite E in E'. discriminate E'.
Qed.

(** C9 (amended). The text [programa p(){ int a printf("x"); end; }],
    tokenized and then parsed, gives [correcto = false].  One diagnostic
    says that a [;] is missing: the first, the fixed text of the
    declaration, which names no line; [printf] was taken in the place of
    the [;], and the four tokens after it, all on line 1, are each reported
    as no statement, with their line. *)
Theorem C9_missing_semicolon (n : nat) :
  3 * List.length (analizar_lexico bad_src) + 3 <= n ->
  exists r,
    analizar_sintactico n bad_src (analizar_lexico bad_src) = Some r
    /\ correcto r = false
    /\ In ("Falta ';' al final de la declaraci" ++ o' ++ "n.") (errores r)
    /\ errores r =
       [ "Falta ';' al final de la declaraci" ++ o' ++ "n.";
         msg_sentencia DELIMITADOR "(" 1;
         msg_sentencia CADENA (dq ++ "x" ++ dq) 1;
         msg_sentencia DELIMITADOR ")" 1;
         msg_sentencia DELIMITADOR ";" 1 ]
    /\ filter cita_falta (errores r)
       = ["Falta ';' al final de la declaraci" ++ o' ++ "n."]
    /\ cita_linea ("Falta ';' al final de la declaraci" ++ o' ++ "n.") = false
    /\ filter cita_linea (errores r) =
       [ msg_sentencia DELIMITADOR "(" 1;
         msg_sentencia CADENA (dq ++ "x" ++ dq) 1;
         msg_sentencia DELIMITADOR ")" 1;
         msg_sentencia DELIMITADOR ";" 1 ].
Proof.
  intros L. eexists. split; [|split; [|split; [|split; [|split; [|split]]]]].
  - apply analizar_sintactico_mono
      with (n := 3 * List.length (analizar_lexico bad_src) + 3); [exact L|].
    vm_compute. reflexivity.
  - reflexivity.
  - left. reflexivity.
  - reflexivity.
  - vm_compute. reflexivity.
  - vm_compute. reflexivity.
  - vm_compute. reflexivity.
Qed.

Lemma C9_missing_semicolon_witness :
  3 * List.length (analizar_lexico bad_src) + 3 <= 48
  /\ exists r,
       analizar_sintactico 48 bad_src (analizar_lexico bad_src) = Some r
       /\ correcto r = false
       /\ In ("Falta ';' al final de la declaraci" ++ o' ++ "n.") (errores r)
       /\ filter cita_falta (errores r)
          = ["Falta ';' al final de la declaraci" ++ o' ++ "n."]
       /\ cita_linea ("Falta ';' al final de la declaraci" ++ o' ++ "n.") = false.
Proof.
  assert (L : 3 * List.length (analizar_lexico bad_src) + 3 <= 48)
    by (vm_compute; lia).
  split; [exact L|].
  destruct (@C9_missing_semicolon 48 L) as (r & E & C & I & _ & F & Li & _).
  exists r. auto.
Defined.

(** * Further properties *)

Unset Implicit Arguments.

(** ** Diagnostics are only ever appended *)

Lemma bind_inv {A B : Type} (c : M A) (f : A -> M B) (p p' : Parser) (b : B) :
  bind c f p = Some (b, p') ->
  exists a q, c p = Some (a, q) /\ f a q = Some (b, p').
Proof.
  unfold bind. destruct (c p) as [[a q]|]; [|discriminate]. eauto.
Qed.

Lemma appends_ret {A : Type} (a : A) : appends (ret a).
Proof.
  intros p x p' H. inversion H; subst. repeat split; auto.
  exists []. now rewrite app_nil_r.
Qed.

Lemma appends_out_of_fuel {A : Type} : appends (@out_of_fuel A).
Proof. intros p x p' H. discriminate H. Qed.

Lemma appends_error (msg : string) : appends (error msg).
Proof. intros p x p' H. inversion H; subst. simpl. eauto. Qed.

Lemma appends_avanzar : appends avanzar.
Proof.
  intros p x p' H. inversion H; subst. simpl. repeat split; [lia|].
  exists []. now rewrite app_nil_r.
Qed.

Lemma appends_peek (k : Z) : appends (peek k).
Proof.
  intros p x p' H. inversion H; subst. repeat split; auto.
  exists []. now rewrite app_nil_r.
Qed.

Lemma appends_bind {A B : Type} (c : M A) (f : A -> M B) :
  appends c -> (forall a, appends (f a)) -> appends (bind c f).
Proof.
  intros Hc Hf p b p' H. apply bind_inv in H. destruct H as (a & q & H1 & H2).
  apply Hc in H1. apply Hf in H2.
  destruct H1 as (T1 & I1 & es1 & E1). destruct H2 as (T2 & I2 & es2 & E2).
  repeat split; [congruence | lia|].
  exists (es1 ++ es2)%list. now rewrite E2, E1, app_assoc.
Qed.

Ltac appends_base :=
  repeat first
    [ assumption
    | apply appends_ret
    | apply @appends_out_of_fuel
    | apply appends_error
    | apply appends_avanzar
    | apply appends_peek
    | apply appends_bind; [|intros ?] ].

Lemma appends_match (tipo_ lexema_ msg : option string) :
  appends (match_ tipo_ lexema_ msg).
Proof.
  unfold match_. apply appends_bind; [apply appends_peek|]. intros tok.
  destruct (acepta tipo_ lexema_ tok); [appends_base|].
  apply appends_bind; [apply appends_error|]. intros _.
  destruct tok; appends_base.
Qed.

Lemma appends_peek_is (f : Token -> bool) : appends (peek_is f).
Proof. unfold peek_is. appends_base. Qed.

Ltac appends_tac :=
  repeat first
    [ assumption
    | apply appends_ret
    | apply @appends_out_of_fuel
    | apply appends_error
    | apply appends_avanzar
    | apply appends_match
    | apply appends_peek_is
    | apply appends_peek
    | apply appends_bind; [|intros ?] ].

Lemma appends_while (cond : M bool) (body : M unit) :
  appends cond -> appends body -> forall n, appends (while_ n cond body).
Proof.
  intros Hc Hb. induction n as [|n IH]; rewrite while_eq;
    (apply appends_bind; [exact Hc|]); intros [|]; appends_tac.
Qed.

Lemma appends_factor_body (e : M unit) : appends e -> appends (factor_body e).
Proof.
  intros He. unfold factor_body. apply appends_bind; [apply appends_peek|].
  intros [tk|]; [|appends_tac].
  destruct (mem (tipo tk) [IDENTIFICADOR; NUMERO]); [appends_tac|].
  destruct (is_tok DELIMITADOR "(" tk); appends_tac.
Qed.

Lemma appends_term_body (n : nat) (f : M unit) : appends f -> appends (term_body n f).
Proof.
  intros Hf. unfold term_body. appends_tac.
  apply appends_while; [apply appends_peek_is | appends_tac].
Qed.

Lemma appends_expr_body (n : nat) (f : M unit) : appends f -> appends (expr_body n f).
Proof.
  intros Hf. unfold expr_body. appends_tac.
  apply appends_while; [apply appends_peek_is | appends_tac].
Qed.

Lemma appends_expr (n : nat) :
  appends (parse_factor n) /\ appends (parse_term n) /\ appends (parse_expr n).
Proof.
  induction n as [|n (IH1 & IH2 & IH3)];
    [split; [|split]; apply @appends_out_of_fuel|].
  split; [|split].
  - change (appends (factor_body (parse_expr n))). now apply appends_factor_body.
  - change (appends (term_body n (parse_factor n))). now apply appends_term_body.
  - change (appends (expr_body n (parse_term n))). now apply appends_expr_body.
Qed.

Lemma appends_parse_decl (n : nat) : appends (parse_decl n).
Proof.
  unfold parse_decl.
  apply appends_bind; [apply appends_match | intros ?].
  apply appends_bind; [apply appends_match | intros ?].
  apply appends_bind; [|intros ?; appends_tac].
  apply appends_while; [apply appends_peek_is | appends_tac].
Qed.

Lemma appends_parse_read : appends parse_read.
Proof. unfold parse_read. appends_tac. Qed.

Lemma appends_parse_printf : appends parse_printf.
Proof. unfold parse_printf. appends_tac. Qed.

Lemma appends_parse_assign (n : nat) : appends (parse_assign n).
Proof.
  unfold parse_assign.
  apply appends_bind; [apply appends_match | intros ?].
  apply appends_bind; [apply appends_match | intros ?].
  apply appends_bind; [apply appends_expr | intros ?].
  appends_tac.
Qed.

Lemma appends_parse_stmt (n : nat) : appends (parse_stmt n).
Proof.
  unfold parse_stmt. apply appends_bind; [apply appends_peek|].
  intros [tk|]; [|apply appends_error].
  destruct (is_tok PALABRA_RESERVADA "int" tk); [apply appends_parse_decl|].
  destruct (is_tok PALABRA_RESERVADA "read" tk); [apply appends_parse_read|].
  destruct (is_tok PALABRA_RESERVADA "printf" tk); [apply appends_parse_printf|].
  destruct (is_tok PALABRA_RESERVADA "end" tk); [appends_tac|].
  destruct (tipo tk =? IDENTIFICADOR); [apply appends_parse_assign|].
  appends_tac.
Qed.

Lemma appends_parse_programa (n : nat) : appends (parse_programa n).
Proof.
  unfold parse_programa.
  do 5 (apply appends_bind; [apply appends_match | intros ?]).
  apply appends_bind; [|intros ?; appends_tac].
  apply appends_while; [apply appends_peek_is | apply appends_parse_stmt].
Qed.

Lemma appends_run_op (n : nat) (o : op) : appends (run_op n o).
Proof.
  destruct o; simpl.
  - apply appends_bind; [apply appends_peek | intros ?; apply appends_ret].
  - appends_tac.
  - apply appends_parse_programa.
  - apply appends_parse_stmt.
  - apply appends_parse_decl.
  - apply appends_parse_read.
  - apply appends_parse_printf.
  - apply appends_parse_assign.
  - apply appends_expr.
  - apply appends_expr.
  - apply appends_expr.
Qed.

Lemma appends_run_ops (n : nat) (ops : list op) : appends (run_ops n ops).
Proof.
  induction ops as [|o ops IH]; simpl; [apply appends_ret|].
  apply appends_bind; [apply appends_run_op | intros ?; exact IH].
Qed.

(** ** Runs without diagnostics *)

Lemma nth_resto (p : Parser) : nth_error (t p) (i p) = hd_error (resto p).
Proof.
  unfold resto. generalize (i p) as k. induction (t p) as [|x l IH]; intros [|k];
    simpl; auto.
Qed.

Lemma resto_avanza (p : Parser) (k : nat) : resto (avanza p k) = skipn k (resto p).
Proof. unfold resto, avanza. simpl. now rewrite skipn_skipn, Nat.add_comm. Qed.

Lemma avanza_0 (p : Parser) : avanza p 0 = p.
Proof. destruct p. unfold avanza. simpl. now rewrite Nat.add_0_r. Qed.

Lemma avanza_avanza (p : Parser) (a b : nat) :
  avanza (avanza p a) b = avanza p (a + b).
Proof. unfold avanza. simpl. now rewrite Nat.add_assoc. Qed.

Lemma skipn_length_app {A : Type} (l r : list A) : skipn (List.length l) (l ++ r) = r.
Proof. induction l; simpl; auto. Qed.

Lemma takes_resto (p p' : Parser) (l r : list Token) :
  p' = avanza p (List.length l) -> resto p = (l ++ r)%list -> resto p' = r.
Proof. intros -> E. now rewrite resto_avanza, E, skipn_length_app. Qed.

Lemma takes_nil (p : Parser) : takes p [] p.
Proof. split; [now rewrite avanza_0 | now exists (resto p)]. Qed.

Lemma takes_app (p q p' : Parser) (l l' : list Token) :
  takes p l q -> takes q l' p' -> takes p (l ++ l') p'.
Proof.
  intros (E1 & r1 & R1) (E2 & r2 & R2).
  rewrite (takes_resto _ _ _ _ E1 R1) in R2. subst r1. subst q p'. split.
  - now rewrite avanza_avanza, List.length_app.
  - exists r2. now rewrite <- app_assoc.
Qed.

Lemma takes_one (p : Parser) (tk : Token) :
  nth_error (t p) (i p) = Some tk -> takes p [tk] (avanza p 1).
Proof.
  intros E. split; [reflexivity|]. rewrite nth_resto in E.
  destruct (resto p) as [|x r]; [discriminate|]. inversion E; subst. now exists r.
Qed.

Lemma app_nil_self {A : Type} (l es : list A) : (l ++ es)%list = l -> es = [].
Proof.
  intros H. apply (app_inv_head l). now rewrite app_nil_r.
Qed.

(** A run of [c] and then [f] that adds no diagnostic is a run of [c]
    that adds none, and then one of [f]. *)
Lemma clean_bind {A B : Type} (c : M A) (f : A -> M B) (p p' : Parser) (b : B) :
  appends c -> (forall a, appends (f a)) ->
  bind c f p = Some (b, p') -> err p' = err p ->
  exists a q, c p = Some (a, q) /\ err q = err p
              /\ f a q = Some (b, p') /\ err p' = err q.
Proof.
  intros Hc Hf H E. apply bind_inv in H. destruct H as (a & q & H1 & H2).
  destruct (Hc _ _ _ H1) as (_ & _ & es1 & E1).
  destruct (Hf _ _ _ _ H2) as (_ & _ & es2 & E2).
  rewrite E2, E1, <- app_assoc in E. apply app_nil_self in E.
  apply app_eq_nil in E. destruct E as [-> ->].
  rewrite app_nil_r in *. exists a, q. repeat split; auto.
Qed.

Lemma clean_match (tipo_ lexema_ msg : option string) (p p' : Parser)
      (r : option Token) :
  match_ tipo_ lexema_ msg p = Some (r, p') -> err p' = err p ->
  exists tk, nth_error (t p) (i p) = Some tk
             /\ acepta tipo_ lexema_ (Some tk) = true /\ p' = avanza p 1.
Proof.
  rewrite match_eq. cbv zeta. intros H E.
  destruct (acepta tipo_ lexema_ (nth_error (t p) (i p))) eqn:C.
  - destruct (nth_error (t p) (i p)) as [tk|]; [|discriminate C].
    inversion H; subst. eauto.
  - inversion H; subst. simpl in E. apply app_nil_self in E. discriminate E.
Qed.

Lemma clean_error (msg : string) (p p' : Parser) (u : unit) :
  error msg p = Some (u, p') -> err p' <> err p.
Proof.
  intros H E. inversion H; subst. simpl in E. apply app_nil_self in E.
  discriminate E.
Qed.

(** ** The parser accepts only what the grammar derives *)

Ltac solve_appends :=
  intros;
  repeat first
    [ assumption
    | apply appends_ret
    | apply appends_error
    | apply appends_avanzar
    | apply appends_match
    | apply appends_peek_is
    | apply appends_peek
    | apply appends_expr
    | apply appends_parse_stmt
    | apply appends_while
    | apply appends_bind; [|intros ?] ].

(** [peel H E]: from a run [H] of [c ;; f] that adds no diagnostic ([E]),
    the run of [c], named [H], and the run of [f], both adding none. *)
Ltac peel H E H' E' :=
  let a := fresh "a" in
  let q := fresh "q" in
  let E0 := fresh "E0" in
  apply clean_bind in H; [|solve_appends|solve_appends|exact E];
  destruct H as (a & q & H & E0 & H' & E').

Section SoundLoop.

Variables (f : Token -> bool) (body : M unit) (Step Rest : list Token -> Prop).

Hypothesis body_appends : appends body.
Hypothesis rest_nil : Rest [].
Hypothesis rest_cons : forall l r, Step l -> Rest r -> Rest (l ++ r).
Hypothesis body_sound :
  forall q q' tk,
    nth_error (t q) (i q) = Some tk -> f tk = true ->
    body q = Some (tt, q') -> err q' = err q ->
    exists l, takes q l q' /\ Step l.

Lemma sound_while :
  forall n p p' u,
    while_ n (peek_is f) body p = Some (u, p') -> err p' = err p ->
    exists l, takes p l p' /\ Rest l.
Proof.
  induction n as [|n IH]; intros p p' u H E; rewrite while_eq in H;
    apply bind_inv in H; destruct H as (b & q & H1 & H2);
    rewrite peek_is_eq in H1; inversion H1; subst q; clear H1;
    destruct (nth_error (t p) (i p)) as [tk|] eqn:N;
    try (subst b; inversion H2; subst; exists []; split;
         [apply takes_nil | exact rest_nil]).
  - destruct (f tk); subst b; [discriminate H2|].
    inversion H2; subst. exists []. split; [apply takes_nil | exact rest_nil].
  - destruct (f tk) eqn:F; subst b.
    + apply clean_bind in H2; [|exact body_appends|solve_appends|exact E].
      destruct H2 as ([] & q & B & EB & W & EW).
      destruct (body_sound _ _ _ N F B EB) as (l & T1 & S1).
      destruct (IH _ _ _ W EW) as (l' & T2 & R2).
      exists (l ++ l')%list. split; [eapply takes_app; eauto | now apply rest_cons].
    + inversion H2; subst. exists []. split; [apply takes_nil | exact rest_nil].
Qed.

End SoundLoop.

Lemma avanzar_eq (p : Parser) : avanzar p = Some (tt, avanza p 1).
Proof. reflexivity. Qed.

Lemma sound_binop (n : nat) (f : Token -> bool) (sub : M unit)
      (Sub Rest : list Token -> Prop) :
  appends sub ->
  Rest [] ->
  (forall op l r, f op = true -> Sub l -> Rest r -> Rest (op :: l ++ r)) ->
  (forall p p' u, sub p = Some (u, p') -> err p' = err p ->
                  exists l, takes p l p' /\ Sub l) ->
  forall p p' u,
    (sub ;; while_ n (peek_is f) (avanzar ;; sub)) p = Some (u, p') ->
    err p' = err p ->
    exists l r, takes p (l ++ r) p' /\ Sub l /\ Rest r.
Proof.
  intros As Rn Rc Ss p p' u H E. peel H E W EW.
  destruct (Ss _ _ _ H E0) as (l & T1 & S1).
  apply sound_while
    with (Step := fun l => exists op l0, l = op :: l0 /\ f op = true /\ Sub l0)
         (Rest := Rest) in W; auto.
  - destruct W as (r & T2 & R2). exists l, r. split; [eapply takes_app; eauto | auto].
  - solve_appends.
  - intros l0 r0 (op & l1 & -> & F & S) R. simpl. now apply Rc.
  - intros q0 q' tk N F B EB. peel B EB B' EB'.
    rewrite avanzar_eq in B. inversion B; subst.
    destruct (Ss _ _ _ B' EB') as (l1 & T3 & S3).
    exists (tk :: l1). split; [|eauto].
    apply (takes_app _ _ _ [tk] l1 (takes_one _ _ N) T3).
Qed.

Lemma sound_factor_body (e : M unit) :
  appends e ->
  (forall p p' u, e p = Some (u, p') -> err p' = err p ->
                  exists l, takes p l p' /\ deriv NExpr l) ->
  forall p p' u, factor_body e p = Some (u, p') -> err p' = err p ->
                 exists l, takes p l p' /\ deriv NFactor l.
Proof.
  intros Ae Se p p' u H E. unfold factor_body in H.
  apply bind_inv in H. destruct H as (tok & q & H1 & H2).
  rewrite peek_0 in H1. inversion H1; subst q tok. clear H1.
  destruct (nth_error (t p) (i p)) as [tk|] eqn:N;
    [|now apply clean_error in H2].
  destruct (mem (tipo tk) [IDENTIFICADOR; NUMERO]) eqn:A.
  { rewrite avanzar_eq in H2. inversion H2; subst.
    exists [tk]. split; [now apply takes_one | now apply D_atom]. }
  destruct (is_tok DELIMITADOR "(" tk) eqn:L.
  - peel H2 E H3 E3. rewrite avanzar_eq in H2. inversion H2; subst.
    peel H3 E3 H4 E4. destruct (Se _ _ _ H3 E1) as (l & T1 & D1).
    peel H4 E4 H5 E5. apply clean_match in H4; [|exact E2].
    destruct H4 as (rp & N' & C & ->). inversion H5; subst.
    exists (tk :: l ++ [rp])%list. split; [|now apply D_paren].
    apply (takes_app _ _ _ [tk] (l ++ [rp]) (takes_one _ _ N)).
    apply (takes_app _ _ _ l [rp] T1 (takes_one _ _ N')).
  - apply bind_inv in H2. destruct H2 as ([] & q & H2 & H3).
    destruct (appends_avanzar _ _ _ H3) as (_ & _ & es & E3).
    inversion H2; subst q. simpl in E3. rewrite E3, <- app_assoc in E.
    apply app_nil_self in E. discriminate E.
Qed.

Lemma sound_expr (n : nat) :
  (forall p p' u, parse_factor n p = Some (u, p') -> err p' = err p ->
                  exists l, takes p l p' /\ deriv NFactor l)
  /\ (forall p p' u, parse_term n p = Some (u, p') -> err p' = err p ->
                     exists l, takes p l p' /\ deriv NTerm l)
  /\ (forall p p' u, parse_expr n p = Some (u, p') -> err p' = err p ->
                     exists l, takes p l p' /\ deriv NExpr l).
Proof.
  induction n as [|n (IH1 & IH2 & IH3)];
    [repeat split; intros p p' u H; discriminate H|].
  split; [|split]; intros p p' u H E.
  - change (factor_body (parse_expr n) p = Some (u, p')) in H.
    eapply sound_factor_body; eauto. apply appends_expr.
  - change ((parse_factor n ;;
             while_ n (peek_is mulop) (avanzar ;; parse_factor n)) p = Some (u, p')) in H.
    apply sound_binop with (Sub := deriv NFactor) (Rest := deriv NTermRest) in H;
      auto; try apply appends_expr; try (constructor; assumption).
    destruct H as (l & r & T & D1 & D2). exists (l ++ r)%list.
    split; [exact T | now constructor].
  - change ((parse_term n ;;
             while_ n (peek_is addop) (avanzar ;; parse_term n)) p = Some (u, p')) in H.
    apply sound_binop with (Sub := deriv NTerm) (Rest := deriv NExprRest) in H;
      auto; try apply appends_expr; try (constructor; assumption).
    destruct H as (l & r & T & D1 & D2). exists (l ++ r)%list.
    split; [exact T | now constructor].
Qed.

(** [peel_as H E H' E' M]: as [peel], with [M] the name of the fact that
    the first step added no diagnostic. *)
Ltac peel_as H E H' E' M :=
  let a := fresh "a" in
  let q := fresh "q" in
  apply clean_bind in H; [|solve_appends|solve_appends|exact E];
  destruct H as (a & q & H & M & H' & E').

Lemma acepta_both (a b : string) (tk : Token) :
  acepta (Some a) (Some b) (Some tk) = is_tok a b tk.
Proof. reflexivity. Qed.

Lemma acepta_kind (a : string) (tk : Token) :
  acepta (Some a) None (Some tk) = (tipo tk =? a).
Proof. unfold acepta. simpl. apply andb_true_r. Qed.

(** [peel_match H E H' E' tk N C]: as [peel], when the first step is a
    [match]: it has passed one token [tk] that it accepts. *)
Ltac peel_match H E H' E' tk N C :=
  let M := fresh "M" in
  let Q := fresh "Q" in
  peel_as H E H' E' M;
  apply clean_match in H; [|exact M]; clear M;
  destruct H as (tk & N & C & Q); subst;
  rewrite ?acepta_both, ?acepta_kind in C.

Lemma sound_parse_decl (n : nat) (p p' : Parser) (u : unit) :
  parse_decl n p = Some (u, p') -> err p' = err p ->
  exists l, takes p l p' /\ stmt_g l.
Proof.
  intros H E. unfold parse_decl in H.
  peel_match H E Ga Ra kw Ta Ca.
  peel_match Ga Ra Gb Rb xid Tb Cb.
  peel_as Gb Rb Gc Rc W1.
  apply sound_while
    with (Step := fun l => exists c x, l = [c; x] /\ is_tok DELIMITADOR "," c = true
                                       /\ ident x = true)
         (Rest := ids_rest) in Gb; auto.
  - destruct Gb as (r & T & R).
    peel_match Gc Rc Gd Rd sc Tc Cc. inversion Gd; subst.
    exists (kw :: xid :: r ++ [sc])%list. split; [|now apply S_decl].
    apply (takes_app _ _ _ [kw] (xid :: r ++ [sc]) (takes_one _ _ Ta)).
    apply (takes_app _ _ _ [xid] (r ++ [sc]) (takes_one _ _ Tb)).
    apply (takes_app _ _ _ r [sc] T (takes_one _ _ Tc)).
  - solve_appends.
  - constructor.
  - intros l r (c & x & -> & Hc & Hx) R. now apply Ids_cons.
  - intros q0 q' c N F B EB. peel_as B EB B1 EB1 W2.
    rewrite avanzar_eq in B. inversion B; subst.
    peel_match B1 EB1 B2 EB2 x Nx Cx. inversion B2; subst.
    exists [c; x]. split; [|eauto].
    apply (takes_app _ _ _ [c] [x] (takes_one _ _ N) (takes_one _ _ Nx)).
Qed.

Lemma sound_parse_read (p p' : Parser) (u : unit) :
  parse_read p = Some (u, p') -> err p' = err p ->
  exists l, takes p l p' /\ stmt_g l.
Proof.
  intros H E. unfold parse_read in H.
  peel_match H E Ga Ra kw Ta Ca.
  peel_match Ga Ra Gb Rb xid Tb Cb.
  peel_match Gb Rb Gc Rc sc Tc Cc. inversion Gc; subst.
  exists [kw; xid; sc]. split; [|now apply S_read].
  apply (takes_app _ _ _ [kw] [xid; sc] (takes_one _ _ Ta)).
  apply (takes_app _ _ _ [xid] [sc] (takes_one _ _ Tb) (takes_one _ _ Tc)).
Qed.

Lemma sound_parse_printf (p p' : Parser) (u : unit) :
  parse_printf p = Some (u, p') -> err p' = err p ->
  exists l, takes p l p' /\ stmt_g l.
Proof.
  intros H E. unfold parse_printf in H.
  peel_match H E Ga Ra kw Ta Ca.
  peel_match Ga Ra Gb Rb lp Tb Cb.
  peel_match Gb Rb Gc Rc s Tc Cc.
  peel_match Gc Rc Gd Rd rp Td Cd.
  peel_match Gd Rd Ge Re sc Te Ce. inversion Ge; subst.
  exists [kw; lp; s; rp; sc]. split.
  - apply (takes_app _ _ _ [kw] [lp; s; rp; sc] (takes_one _ _ Ta)).
    apply (takes_app _ _ _ [lp] [s; rp; sc] (takes_one _ _ Tb)).
    apply (takes_app _ _ _ [s] [rp; sc] (takes_one _ _ Tc)).
    apply (takes_app _ _ _ [rp] [sc] (takes_one _ _ Td) (takes_one _ _ Te)).
  - now apply S_printf.
Qed.

Lemma sound_parse_assign (n : nat) (p p' : Parser) (u : unit) :
  parse_assign n p = Some (u, p') -> err p' = err p ->
  exists l, takes p l p' /\ stmt_g l.
Proof.
  intros H E. unfold parse_assign in H.
  peel_match H E Ga Ra xid Ta Ca.
  peel_match Ga Ra Gb Rb asg Tb Cb.
  peel_as Gb Rb Gc Rc W1.
  destruct (proj2 (proj2 (sound_expr n)) _ _ _ Gb W1) as (l & T & D).
  peel_match Gc Rc Gd Rd sc Tc Cc. inversion Gd; subst.
  exists (xid :: asg :: l ++ [sc])%list. split.
  - apply (takes_app _ _ _ [xid] (asg :: l ++ [sc]) (takes_one _ _ Ta)).
    apply (takes_app _ _ _ [asg] (l ++ [sc]) (takes_one _ _ Tb)).
    apply (takes_app _ _ _ l [sc] T (takes_one _ _ Tc)).
  - now apply S_assign.
Qed.

Lemma sound_parse_stmt (n : nat) (p p' : Parser) (u : unit) :
  parse_stmt n p = Some (u, p') -> err p' = err p ->
  exists l, takes p l p' /\ stmt_g l.
Proof.
  intros H E. unfold parse_stmt in H.
  apply bind_inv in H. destruct H as (tok & q & Ga & Gb).
  rewrite peek_0 in Ga. inversion Ga; subst q tok. clear Ga.
  destruct (nth_error (t p) (i p)) as [tk|] eqn:N;
    [|now apply clean_error in Gb].
  destruct (is_tok PALABRA_RESERVADA "int" tk); [now apply sound_parse_decl in Gb|].
  destruct (is_tok PALABRA_RESERVADA "read" tk); [now apply sound_parse_read in Gb|].
  destruct (is_tok PALABRA_RESERVADA "printf" tk);
    [now apply sound_parse_printf in Gb|].
  destruct (is_tok PALABRA_RESERVADA "end" tk) eqn:K.
  { peel_as Gb E Gc Rc W1. rewrite avanzar_eq in Gb. inversion Gb; subst.
    peel_match Gc Rc Gd Rd sc Tc Cc. inversion Gd; subst.
    exists [tk; sc]. split; [|now apply S_end].
    apply (takes_app _ _ _ [tk] [sc] (takes_one _ _ N) (takes_one _ _ Tc)). }
  destruct (tipo tk =? IDENTIFICADOR); [now apply sound_parse_assign in Gb|].
  apply bind_inv in Gb. destruct Gb as ([] & q & Gb & Gc).
  destruct (appends_avanzar _ _ _ Gc) as (_ & _ & es & Rc).
  inversion Gb; subst q. simpl in Rc. rewrite Rc, <- app_assoc in E.
  apply app_nil_self in E. discriminate E.
Qed.

Lemma sound_parse_programa (n : nat) (p p' : Parser) (u : unit) :
  parse_programa n p = Some (u, p') -> err p' = err p ->
  exists l, takes p l p' /\ programa_g l.
Proof.
  intros H E. unfold parse_programa in H.
  peel_match H E Ga Ra kw Ta Ca.
  peel_match Ga Ra Gb Rb xid Tb Cb.
  peel_match Gb Rb Gc Rc lp Tc Cc.
  peel_match Gc Rc Gd Rd rp Td Cd.
  peel_match Gd Rd Ge Re lb Te Ce.
  peel_as Ge Re Gf Rf W1.
  apply sound_while with (Step := stmt_g) (Rest := stmts_g) in Ge; auto.
  - destruct Ge as (body & T & R).
    peel_match Gf Rf Gg Rg rb Tf Cf. inversion Gg; subst.
    exists (kw :: xid :: lp :: rp :: lb :: body ++ [rb])%list. split.
    + apply (takes_app _ _ _ [kw] _ (takes_one _ _ Ta)).
      apply (takes_app _ _ _ [xid] _ (takes_one _ _ Tb)).
      apply (takes_app _ _ _ [lp] _ (takes_one _ _ Tc)).
      apply (takes_app _ _ _ [rp] _ (takes_one _ _ Td)).
      apply (takes_app _ _ _ [lb] _ (takes_one _ _ Te)).
      apply (takes_app _ _ _ body [rb] T (takes_one _ _ Tf)).
    + now apply P_programa.
  - apply appends_parse_stmt.
  - constructor.
  - intros l r S R. now constructor.
  - intros q0 q' tk N F B EB. now apply sound_parse_stmt in B.
Qed.

(** ** The parser accepts all that the grammar derives *)

Lemma is_tok_eq (a b : string) (tk : Token) :
  is_tok a b tk = true -> tipo tk = a /\ lexema tk = b.
Proof.
  unfold is_tok. intros H. apply andb_true_iff in H. destruct H as [H1 H2].
  apply String.eqb_eq in H1, H2. auto.
Qed.

Lemma delim_not_op (tk : Token) :
  tipo tk = DELIMITADOR -> mulop tk = false /\ addop tk = false /\ atom tk = false.
Proof. unfold mulop, addop, atom. intros ->. auto. Qed.

Lemma addop_not_mulop (tk : Token) : addop tk = true -> mulop tk = false.
Proof.
  unfold addop, mulop, mem. simpl. intros H.
  apply andb_true_iff in H. destruct H as [_ H]. rewrite orb_false_r in H.
  apply orb_true_iff in H.
  destruct H as [H|H]; apply String.eqb_eq in H; rewrite H;
    apply andb_false_r.
Qed.

Lemma avanza_eq (p : Parser) (a b : nat) : a = b -> avanza p a = avanza p b.
Proof. now intros ->. Qed.

Lemma resto_cons (p : Parser) (tk : Token) (r : list Token) :
  resto p = tk :: r -> nth_error (t p) (i p) = Some tk /\ resto (avanza p 1) = r.
Proof.
  intros E. split; [now rewrite nth_resto, E|].
  now rewrite resto_avanza, E.
Qed.

Lemma resto_app (p : Parser) (l r : list Token) :
  resto p = (l ++ r)%list -> resto (avanza p (List.length l)) = r.
Proof. intros E. now rewrite resto_avanza, E, skipn_length_app. Qed.

Lemma match_ok (tipo_ lexema_ msg : option string) (p : Parser) (tk : Token)
      (r : list Token) :
  resto p = tk :: r -> acepta tipo_ lexema_ (Some tk) = true ->
  match_ tipo_ lexema_ msg p = Some (Some tk, avanza p 1).
Proof.
  intros E C. apply resto_cons in E. destruct E as [E _].
  rewrite match_eq, E. cbv zeta. now rewrite C.
Qed.

Lemma bind_eq {A B : Type} (c : M A) (f : A -> M B) (p q : Parser) (a : A) :
  c p = Some (a, q) -> bind c f p = f a q.
Proof. intros H. unfold bind. now rewrite H. Qed.

Lemma while_stop (f : Token -> bool) (body : M unit) (m : nat) (p : Parser) :
  stops f (resto p) -> while_ m (peek_is f) body p = Some (tt, p).
Proof.
  intros S. rewrite while_eq. erewrite bind_eq by apply peek_is_eq.
  rewrite nth_resto. destruct (resto p) as [|tk r]; simpl in *; [reflexivity|].
  now rewrite S.
Qed.

Lemma while_step (f : Token -> bool) (body : M unit) (m : nat) (p q : Parser)
      (tk : Token) (r : list Token) :
  resto p = tk :: r -> f tk = true -> body p = Some (tt, q) ->
  while_ (S m) (peek_is f) body p = while_ m (peek_is f) body q.
Proof.
  intros E F B. rewrite while_eq. erewrite bind_eq by apply peek_is_eq.
  rewrite nth_resto, E. simpl. rewrite F.
  now rewrite (bind_eq _ _ _ _ _ B).
Qed.

Lemma rest_head (x : nt) (l : list Token) :
  deriv x l ->
  (x = NExprRest -> stops (fun tk => negb (addop tk)) l)
  /\ (x = NTermRest -> stops (fun tk => negb (mulop tk)) l).
Proof.
  destruct 1; split; intros X; try discriminate X; simpl; auto;
    now apply negb_false_iff.
Qed.

(** After a term of an expression comes an additive operator or what
    follows the expression: no multiplicative operator. *)
Lemma stops_mulop_app (r0 r : list Token) :
  deriv NExprRest r0 -> stops mulop r -> stops mulop (r0 ++ r).
Proof.
  intros D S. destruct (rest_head _ _ D) as [H _]. specialize (H eq_refl).
  destruct r0 as [|op r0]; simpl in *; [exact S|].
  apply negb_false_iff in H. now apply addop_not_mulop.
Qed.

Ltac fuel_pos n := destruct n as [|n]; [lia|].

Lemma complete_expr (x : nt) (l : list Token) : deriv x l -> complete_for x l.
Proof.
  induction 1 as [ l r0 DT IHT DR IHR | | op l r0 A DT IHT DR IHR
                 | l r0 DF IHF DR IHR | | op l r0 A DF IHF DR IHR
                 | tk A | lp l rp L DE IHE R ];
    unfold complete_for in *; intros p r E.
  - intros Sm Sa. rewrite <- app_assoc in E.
    destruct (IHT p (r0 ++ r)%list E (stops_mulop_app _ _ DR Sm)) as (n1 & H1).
    destruct (IHR _ r (resto_app _ _ _ E) Sm Sa) as (n2 & H2).
    exists (S (Nat.max n1 n2)). intros n Ln. fuel_pos n.
    change (parse_expr (S n))
      with (parse_term n ;; while_ n (peek_is addop) (avanzar ;; parse_term n)).
    rewrite (bind_eq _ _ _ _ _ (H1 n ltac:(lia))).
    rewrite (H2 n n) by lia. now rewrite avanza_avanza, List.length_app.
  - intros Sm Sa. exists 0. intros n m _ _. simpl in E.
    rewrite while_stop; [now rewrite avanza_0 | now rewrite E].
  - intros Sm Sa. simpl in E. rewrite <- app_assoc in E.
    destruct (resto_cons _ _ _ E) as [N E1].
    destruct (IHT _ (r0 ++ r)%list E1 (stops_mulop_app _ _ DR Sm)) as (n1 & H1).
    destruct (IHR _ r (resto_app _ _ _ E1) Sm Sa) as (n2 & H2).
    exists (S (Nat.max n1 n2)). intros n m Ln Lm. fuel_pos m.
    rewrite (while_step addop _ m p (avanza (avanza p 1) (List.length l)) op _ E A).
    + rewrite H2 by lia. rewrite !avanza_avanza. do 2 f_equal. apply avanza_eq.
      simpl. rewrite List.length_app. lia.
    + rewrite (bind_eq _ _ _ _ _ (avanzar_eq p)). apply H1. lia.
  - intros Sm. rewrite <- app_assoc in E.
    destruct (IHF p (r0 ++ r)%list E) as (n1 & H1).
    destruct (IHR _ r (resto_app _ _ _ E) Sm) as (n2 & H2).
    exists (S (Nat.max n1 n2)). intros n Ln. fuel_pos n.
    change (parse_term (S n))
      with (parse_factor n ;; while_ n (peek_is mulop) (avanzar ;; parse_factor n)).
    rewrite (bind_eq _ _ _ _ _ (H1 n ltac:(lia))).
    rewrite (H2 n n) by lia. now rewrite avanza_avanza, List.length_app.
  - intros Sm. exists 0. intros n m _ _. simpl in E.
    rewrite while_stop; [now rewrite avanza_0 | now rewrite E].
  - intros Sm. simpl in E. rewrite <- app_assoc in E.
    destruct (resto_cons _ _ _ E) as [N E1].
    destruct (IHF _ (r0 ++ r)%list E1) as (n1 & H1).
    destruct (IHR _ r (resto_app _ _ _ E1) Sm) as (n2 & H2).
    exists (S (Nat.max n1 n2)). intros n m Ln Lm. fuel_pos m.
    rewrite (while_step mulop _ m p (avanza (avanza p 1) (List.length l)) op _ E A).
    + rewrite H2 by lia. rewrite !avanza_avanza. do 2 f_equal. apply avanza_eq.
      simpl. rewrite List.length_app. lia.
    + rewrite (bind_eq _ _ _ _ _ (avanzar_eq p)). apply H1. lia.
  - exists 1. intros n Ln. fuel_pos n. simpl in E.
    destruct (resto_cons _ _ _ E) as [N _].
    change (parse_factor (S n)) with (factor_body (parse_expr n)).
    unfold factor_body. rewrite (bind_eq _ _ _ _ _ (peek_0 p)), N.
    unfold atom in A. now rewrite A.
  - simpl in E. rewrite <- app_assoc in E. simpl in E.
    destruct (resto_cons _ _ _ E) as [N E1].
    destruct (is_tok_eq _ _ _ L) as [TL _]. destruct (is_tok_eq _ _ _ R) as [TR _].
    destruct (delim_not_op _ TL) as (_ & _ & AL).
    destruct (delim_not_op _ TR) as (MR & AR & _).
    destruct (IHE _ (rp :: r) E1 MR AR) as (n1 & H1).
    exists (S n1). intros n Ln. fuel_pos n.
    change (parse_factor (S n)) with (factor_body (parse_expr n)).
    unfold factor_body. rewrite (bind_eq _ _ _ _ _ (peek_0 p)), N.
    unfold atom in AL. rewrite AL, L.
    rewrite (bind_eq _ _ _ _ _ (avanzar_eq p)).
    rewrite (bind_eq _ _ _ _ _ (H1 n ltac:(lia))).
    erewrite bind_eq
      by (eapply match_ok; [apply (resto_app _ _ _ E1) | exact R]).
    unfold ret. rewrite !avanza_avanza. do 2 f_equal. apply avanza_eq.
    simpl. rewrite List.length_app. simpl. lia.
Qed.

(** [go_match E E']: the next step is a [match] on the token at the head
    of [E : resto q = tk :: r], which it accepts; [E'] is what is left. *)
Ltac go_match E E' :=
  erewrite bind_eq
    by (eapply match_ok;
        [exact E | rewrite ?acepta_both, ?acepta_kind; eassumption]);
  pose proof (proj2 (resto_cons _ _ _ E)) as E'.

Ltac go_avanzar E E' :=
  erewrite bind_eq by apply avanzar_eq;
  pose proof (proj2 (resto_cons _ _ _ E)) as E'.

Ltac finish :=
  unfold ret; rewrite ?avanza_avanza; do 2 f_equal; apply avanza_eq;
  simpl; rewrite ?List.length_app; simpl; lia.

Lemma is_tok_other (a b a' b' : string) (tk : Token) :
  is_tok a b tk = true -> (a =? a') && (b =? b') = false ->
  is_tok a' b' tk = false.
Proof.
  intros H D. apply is_tok_eq in H. destruct H as [<- <-]. exact D.
Qed.

Lemma complete_ids (r0 : list Token) :
  ids_rest r0 ->
  forall p r body m,
    body = (avanzar ;;
            match_ (Some IDENTIFICADOR) None
                   (Some ("Se esperaba un identificador despu" ++ e' ++ "s de ','.")) ;;
            ret tt) ->
    resto p = (r0 ++ r)%list -> stops (is_tok DELIMITADOR ",") r ->
    List.length r0 <= m ->
    while_ m (peek_is (is_tok DELIMITADOR ",")) body p
    = Some (tt, avanza p (List.length r0)).
Proof.
  induction 1 as [|c x r0 C X D IH]; intros p r body m B E S L.
  - simpl in E. rewrite while_stop; [now rewrite avanza_0 | now rewrite E].
  - simpl in E, L. fuel_pos m.
    pose proof (proj2 (resto_cons _ _ _ E)) as E1.
    rewrite (while_step _ _ m p (avanza (avanza p 1) 1) c _ E C).
    + rewrite (IH _ r body m B) by
        (try assumption; try lia; apply (proj2 (resto_cons _ _ _ E1))).
      finish.
    + subst body. go_avanzar E E2. go_match E2 E3. reflexivity.
Qed.

Lemma complete_stmt (l : list Token) :
  stmt_g l ->
  forall p r, resto p = (l ++ r)%list ->
              exists n0, forall n, n0 <= n ->
                parse_stmt n p = Some (tt, avanza p (List.length l)).
Proof.
  destruct 1 as [ kw x r0 sc K X D S | kw x sc K X S | kw lp s rp sc K L C R S
                | kw sc K S | x asg l sc X A D C ];
    intros p r E; simpl in E; try rewrite <- app_assoc in E; simpl in E;
    pose proof (proj1 (resto_cons _ _ _ E)) as N.
  - exists (List.length r0). intros n Ln. unfold parse_stmt.
    rewrite (bind_eq _ _ _ _ _ (peek_0 p)), N, K. unfold parse_decl.
    go_match E E1. go_match E1 E2.
    erewrite bind_eq
      by (eapply complete_ids; eauto; simpl;
          eapply is_tok_other; [exact S | reflexivity]).
    pose proof (resto_app _ _ _ E2) as E3. go_match E3 E4. finish.
  - exists 0. intros n _. unfold parse_stmt.
    rewrite (bind_eq _ _ _ _ _ (peek_0 p)), N.
    rewrite (is_tok_other _ _ PALABRA_RESERVADA "int" _ K eq_refl), K.
    unfold parse_read. go_match E E1. go_match E1 E2. go_match E2 E3. finish.
  - exists 0. intros n _. unfold parse_stmt.
    rewrite (bind_eq _ _ _ _ _ (peek_0 p)), N.
    rewrite (is_tok_other _ _ PALABRA_RESERVADA "int" _ K eq_refl).
    rewrite (is_tok_other _ _ PALABRA_RESERVADA "read" _ K eq_refl), K.
    unfold parse_printf. go_match E E1. go_match E1 E2. go_match E2 E3.
    go_match E3 E4. go_match E4 E5. finish.
  - exists 0. intros n _. unfold parse_stmt.
    rewrite (bind_eq _ _ _ _ _ (peek_0 p)), N.
    rewrite (is_tok_other _ _ PALABRA_RESERVADA "int" _ K eq_refl).
    rewrite (is_tok_other _ _ PALABRA_RESERVADA "read" _ K eq_refl).
    rewrite (is_tok_other _ _ PALABRA_RESERVADA "printf" _ K eq_refl), K.
    go_avanzar E E1. go_match E1 E2. finish.
  - pose proof (proj2 (resto_cons _ _ _ E)) as E1.
    pose proof (proj2 (resto_cons _ _ _ E1)) as E2.
    destruct (is_tok_eq _ _ _ C) as [TC _].
    destruct (delim_not_op _ TC) as (MC & AC & _).
    destruct (complete_expr _ _ D _ (sc :: r) E2 MC AC) as (n1 & H1).
    exists n1. intros n Ln. unfold parse_stmt.
    rewrite (bind_eq _ _ _ _ _ (peek_0 p)), N.
    assert (TX : tipo x = IDENTIFICADOR) by (now apply String.eqb_eq).
    unfold is_tok. rewrite TX. simpl.
    unfold parse_assign. go_match E E1'. go_match E1 E2'.
    rewrite (bind_eq _ _ _ _ _ (H1 n Ln)).
    pose proof (resto_app _ _ _ E2) as E3. go_match E3 E4. finish.
Qed.

(** A statement starts with a reserved word or an identifier: not with
    the closing brace. *)
Lemma stmt_head (l : list Token) :
  stmt_g l ->
  exists tk l', l = tk :: l' /\ is_tok DELIMITADOR "}" tk = false.
Proof.
  destruct 1 as [ kw x r0 sc K | kw x sc K | kw lp s rp sc K | kw sc K
                | x asg l sc X ];
    eexists _, _; (split; [reflexivity|]);
    try (apply is_tok_eq in K; destruct K as [K _]; unfold is_tok; now rewrite K).
  apply String.eqb_eq in X. unfold is_tok. now rewrite X.
Qed.

Lemma complete_stmts (body : list Token) :
  stmts_g body ->
  forall p r rb,
    resto p = (body ++ rb :: r)%list -> is_tok DELIMITADOR "}" rb = true ->
    exists n0, forall n m, n0 <= n -> n0 <= m ->
      while_ m (peek_is (fun tk => negb (is_tok DELIMITADOR "}" tk)))
             (parse_stmt n) p
      = Some (tt, avanza p (List.length body)).
Proof.
  induction 1 as [|l r0 St D IH]; intros p r rb E R.
  - exists 0. intros n m _ _. simpl in E.
    rewrite while_stop; [now rewrite avanza_0 | rewrite E; simpl; now rewrite R].
  - rewrite <- app_assoc in E.
    destruct (complete_stmt _ St p _ E) as (n1 & H1).
    destruct (IH _ r rb (resto_app _ _ _ E) R) as (n2 & H2).
    destruct (stmt_head _ St) as (tk & l' & -> & K).
    exists (S (Nat.max n1 n2)). intros n m Ln Lm. fuel_pos m.
    rewrite (while_step _ _ m p (avanza p (List.length (tk :: l'))) tk _ E);
      [|now rewrite K | apply H1; lia].
    rewrite H2 by lia. rewrite avanza_avanza. do 2 f_equal. apply avanza_eq.
    now rewrite List.length_app.
Qed.

Lemma complete_programa (l : list Token) :
  programa_g l ->
  forall p r, resto p = (l ++ r)%list ->
              exists n0, forall n, n0 <= n ->
                parse_programa n p = Some (tt, avanza p (List.length l)).
Proof.
  destruct 1 as [kw x lp rp lb body rb K X L R B D C]. intros p r E.
  simpl in E. rewrite <- app_assoc in E. simpl in E.
  pose proof (proj2 (resto_cons _ _ _ E)) as E1.
  pose proof (proj2 (resto_cons _ _ _ E1)) as E2.
  pose proof (proj2 (resto_cons _ _ _ E2)) as E3.
  pose proof (proj2 (resto_cons _ _ _ E3)) as E4.
  pose proof (proj2 (resto_cons _ _ _ E4)) as E5.
  destruct (complete_stmts _ D _ r rb E5 C) as (n1 & H1).
  exists n1. intros n Ln. unfold parse_programa.
  go_match E F1. go_match E1 F2. go_match E2 F3. go_match E3 F4. go_match E4 F5.
  rewrite (bind_eq _ _ _ _ _ (H1 n n Ln Ln)).
  pose proof (resto_app _ _ _ E5) as E6. go_match E6 F6. finish.
Qed.

(** ** The programs the parser accepts *)

Lemma sobrantes_eq (tokens : list Token) (p : Parser) :
  t p = tokens -> i p <= List.length tokens ->
  sobrantes tokens p =
  Some (tt, match resto p with
            | [] => p
            | tok :: _ =>
                mkParser (t p) (i p)
                         (err p ++
                          ["Tokens extra despu" ++ e' ++
                           "s de cerrar el programa, empezando en '"
                           ++ lexema tok ++ "' (l" ++ i' ++ "nea "
                           ++ str (linea tok) ++ ")."])
            end).
Proof.
  intros T L. unfold sobrantes. rewrite <- T, nth_resto.
  destruct (Nat.ltb_spec (i p) (List.length (t p))) as [H|H].
  - destruct (resto p) as [|tok r] eqn:R; [|reflexivity].
    unfold resto in R. apply (f_equal (@List.length Token)) in R.
    rewrite length_skipn in R. simpl in R. lia.
  - unfold resto. rewrite skipn_all2 by lia. reflexivity.
Qed.

Lemma resto_init (tokens : list Token) : resto (Parser_init tokens) = tokens.
Proof. reflexivity. Qed.

(** With fuel enough for it to return, [analizar_sintactico] gives what it
    gives with any larger fuel. *)
Lemma analizar_sintactico_at (n m : nat) (codigo : string) (tokens : list Token)
      (r : ParseResult) :
  3 * List.length tokens + 3 <= n -> n <= m ->
  analizar_sintactico m codigo tokens = Some r ->
  analizar_sintactico n codigo tokens = Some r.
Proof.
  intros L Lm H.
  destruct (@analizar_sintactico_total n codigo tokens L) as (p & _ & _ & E).
  pose proof (@analizar_sintactico_mono n m codigo tokens _ Lm E) as E'.
  congruence.
Qed.

Lemma analizar_sintactico_run (n : nat) (codigo : string) (tokens l r : list Token) :
  tokens = (l ++ r)%list ->
  parse_programa n (Parser_init tokens)
  = Some (tt, avanza (Parser_init tokens) (List.length l)) ->
  analizar_sintactico n codigo tokens =
  Some match r with
       | [] => mkParseResult true []
       | tok :: _ => mkParseResult false [msg_sobrantes tok]
       end.
Proof.
  intros T H. unfold analizar_sintactico.
  rewrite (bind_eq _ _ _ _ _ H).
  rewrite sobrantes_eq;
    [|reflexivity | simpl; rewrite T, List.length_app; lia].
  rewrite (resto_app (Parser_init tokens) l r) by (now rewrite resto_init).
  destruct r; reflexivity.
Qed.

Lemma appends_sobrantes (tokens : list Token) : appends (sobrantes tokens).
Proof.
  intros p a p' S. unfold sobrantes in S.
  destruct (i p <? List.length tokens)%nat.
  - destruct (nth_error tokens (i p)); [|discriminate].
    eapply appends_error; eauto.
  - eapply (@appends_ret unit); eauto.
Qed.

Lemma analizar_sintactico_sound (codigo : string) (tokens : list Token) (n : nat) :
  analizar_sintactico n codigo tokens = Some (mkParseResult true []) ->
  programa_g tokens.
Proof.
  unfold analizar_sintactico.
  destruct ((parse_programa n ;; sobrantes tokens) (Parser_init tokens))
    as [[u p']|] eqn:H; [|discriminate].
  intros R. inversion R as [[C E]]. clear R C.
  assert (E' : err p' = err (Parser_init tokens)) by exact E.
  apply clean_bind in H;
    [|apply appends_parse_programa|intros ?; apply appends_sobrantes|exact E'].
  destruct H as (a & q & H1 & E1 & H2 & E2).
  destruct (sound_parse_programa _ _ _ _ H1 E1) as (l & (Q & r & T) & G).
  rewrite resto_init in T. subst q.
  rewrite sobrantes_eq in H2;
    [|reflexivity | simpl; rewrite T, List.length_app; lia].
  rewrite (resto_app (Parser_init tokens) l r) in H2
    by (now rewrite resto_init).
  destruct r as [|tok r].
  - rewrite app_nil_r in T. now subst.
  - inversion H2; subst p'. simpl in E2. discriminate E2.
Qed.

Lemma analizar_sintactico_complete (codigo : string) (l r : list Token) (n : nat) :
  programa_g l ->
  3 * List.length (l ++ r) + 3 <= n ->
  analizar_sintactico n codigo (l ++ r) =
  Some match r with
       | [] => mkParseResult true []
       | tok :: _ => mkParseResult false [msg_sobrantes tok]
       end.
Proof.
  intros G L.
  destruct (complete_programa _ G (Parser_init (l ++ r)) r)
    as (n0 & H); [reflexivity|].
  apply analizar_sintactico_at with (m := Nat.max n n0); [exact L | lia|].
  apply (analizar_sintactico_run _ _ _ l r); [reflexivity|].
  apply H. lia.
Qed.

(** ** How many diagnostics *)

Ltac bounded_tac :=
  unfold ok, wf in *; simpl in *; repeat split; try reflexivity; try lia.

Lemma bounded_weaken {A : Type} (k f k' f' : nat) (c : M A) (p : Parser) :
  bounded k f c p -> f' <= f -> k + f' <= k' + f -> bounded k' f' c p.
Proof.
  intros H Lf Lk a p' E. destruct (H a p' E) as (O & B1 & B2).
  split; [exact O|]. split; [intros X; specialize (B1 X)|]; lia.
Qed.

Lemma bounded_bind {A B : Type} (k1 f1 k2 f2 : nat) (c : M A) (g : A -> M B)
      (p : Parser) :
  bounded k1 f1 c p ->
  (forall a q, ok p q -> bounded k2 f2 (g a) q) ->
  bounded (k1 + k2) (f1 + f2) (bind c g) p.
Proof.
  intros Hc Hg b p' E. apply bind_inv in E. destruct E as (a & q & E1 & E2).
  destruct (Hc a q E1) as (O1 & B1 & B2).
  destruct (Hg a q O1 b p' E2) as (O2 & B3 & B4).
  split; [eapply ok_trans; eauto|].
  destruct O1 as (T1 & I1 & W1). destruct O2 as (T2 & I2 & W2).
  unfold wf in *. rewrite T1 in *. split; [intros X|]; lia.
Qed.

(** The same when what follows is cheaper at the end of the tokens. *)
Lemma bounded_bind_end {A B : Type} (k1 f1 k2 k2' f2 : nat) (c : M A)
      (g : A -> M B) (p : Parser) :
  bounded k1 f1 c p ->
  (forall a q, ok p q -> i q < List.length (t q) -> bounded k2 f2 (g a) q) ->
  (forall a q, ok p q -> List.length (t q) <= i q -> bounded k2' f2 (g a) q) ->
  bounded (Nat.max k2 (k1 + k2')) (f1 + f2) (bind c g) p.
Proof.
  intros Hc Hg Hg' b p' E. apply bind_inv in E. destruct E as (a & q & E1 & E2).
  destruct (Hc a q E1) as (O1 & B1 & B2).
  destruct (Nat.lt_ge_cases (i q) (List.length (t q))) as [X|X].
  - destruct (Hg a q O1 X b p' E2) as (O2 & B3 & B4).
    split; [eapply ok_trans; eauto|].
    destruct O1 as (T1 & I1 & W1). destruct O2 as (T2 & I2 & W2).
    unfold wf in *. rewrite T1 in *. specialize (B1 X).
    split; [intros Y; specialize (B3 Y)|]; lia.
  - destruct (Hg' a q O1 X b p' E2) as (O2 & B3 & B4).
    split; [eapply ok_trans; eauto|].
    destruct O1 as (T1 & I1 & W1). destruct O2 as (T2 & I2 & W2).
    unfold wf in *. rewrite T1 in *.
    split; [intros Y|]; lia.
Qed.

Lemma bounded_ret {A : Type} (a : A) (p : Parser) : wf p -> bounded 0 0 (ret a) p.
Proof. intros W x p' E. inversion E; subst. bounded_tac. Qed.

Lemma bounded_match (tipo_ lexema_ msg : option string) (p : Parser) :
  wf p -> bounded 1 0 (match_ tipo_ lexema_ msg) p.
Proof.
  intros W a p' E. rewrite match_eq in E. cbv zeta in E.
  destruct (nth_error (t p) (i p)) as [tk|] eqn:N.
  - assert (i p < List.length (t p)) by (apply nth_error_Some; congruence).
    destruct (acepta tipo_ lexema_ (Some tk)); inversion E; subst;
      bounded_tac; rewrite List.length_app; simpl; lia.
  - apply nth_error_None in N. simpl in E. inversion E; subst.
    bounded_tac; rewrite List.length_app; simpl; lia.
Qed.

(** A [match] on a token it accepts passes it at no cost. *)
Lemma bounded_match_ok (tipo_ lexema_ msg : option string) (p : Parser) (tk : Token) :
  nth_error (t p) (i p) = Some tk -> acepta tipo_ lexema_ (Some tk) = true ->
  bounded 0 1 (match_ tipo_ lexema_ msg) p.
Proof.
  intros N C a p' E. rewrite match_eq, N in E. cbv zeta in E. rewrite C in E.
  assert (i p < List.length (t p)) by (apply nth_error_Some; congruence).
  inversion E; subst. bounded_tac.
Qed.

Lemma bounded_avanzar (p : Parser) (tk : Token) :
  nth_error (t p) (i p) = Some tk -> bounded 0 1 avanzar p.
Proof.
  intros N a p' E.
  assert (i p < List.length (t p)) by (apply nth_error_Some; congruence).
  inversion E; subst. bounded_tac.
Qed.

Lemma bounded_error_end (msg : string) (p : Parser) :
  wf p -> nth_error (t p) (i p) = None -> bounded 1 0 (error msg) p.
Proof.
  intros W N a p' E. apply nth_error_None in N. inversion E; subst.
  bounded_tac; rewrite List.length_app; simpl; lia.
Qed.

Lemma bounded_error_avanzar (msg : string) (p : Parser) (tk : Token) :
  nth_error (t p) (i p) = Some tk -> bounded 0 0 (error msg ;; avanzar) p.
Proof.
  intros N a p' E.
  assert (i p < List.length (t p)) by (apply nth_error_Some; congruence).
  inversion E; subst. bounded_tac; rewrite List.length_app; simpl; lia.
Qed.

Lemma while_end (f : Token -> bool) (body : M unit) (n : nat) (p : Parser) :
  List.length (t p) <= i p -> while_ n (peek_is f) body p = Some (tt, p).
Proof.
  intros L. apply while_stop. rewrite <- nth_error_None, nth_resto in L.
  destruct (resto p); [exact I | discriminate L].
Qed.

Section BoundedLoop.

Variables (f : Token -> bool) (body : M unit) (k : nat).

Hypothesis body_bounded :
  forall q tk, wf q -> nth_error (t q) (i q) = Some tk -> f tk = true ->
               bounded k 0 body q.

Lemma bounded_while :
  forall n p, wf p -> bounded k 0 (while_ n (peek_is f) body) p.
Proof.
  assert (Stop : forall p a p', wf p -> ret tt p = Some (a, p') ->
                   ok p p'
                   /\ (i p' < List.length (t p) ->
                       List.length (err p') + i p + 0 <= List.length (err p) + i p')
                   /\ List.length (err p') + i p + 0 <= List.length (err p) + i p' + k).
  { intros p a p' W E. inversion E; subst. bounded_tac. }
  induction n as [|n IH]; intros p W a p' E; rewrite while_eq in E;
    rewrite (bind_eq _ _ _ _ _ (peek_is_eq f p)) in E;
    destruct (nth_error (t p) (i p)) as [tk|] eqn:N;
    try (exact (Stop p a p' W E)).
  - destruct (f tk); [discriminate E | exact (Stop p a p' W E)].
  - destruct (f tk) eqn:F; [|exact (Stop p a p' W E)]. rename E into E2.
    apply bind_inv in E2. destruct E2 as ([] & q & B & Wh).
    destruct (body_bounded p tk W N F tt q B) as (O1 & B1 & B2).
    destruct (Nat.lt_ge_cases (i q) (List.length (t q))) as [X|X].
    + destruct (IH q (ok_wf O1) a p' Wh) as (O2 & B3 & B4).
      split; [eapply ok_trans; eauto|].
      destruct O1 as (T1 & I1 & W1). destruct O2 as (T2 & I2 & W2).
      unfold wf in *. rewrite T1 in *. specialize (B1 X).
      split; [intros Y; specialize (B3 Y)|]; lia.
    + rewrite while_end in Wh by exact X. inversion Wh; subst. auto.
Qed.

End BoundedLoop.

Lemma bounded_peek {A : Type} (k f : nat) (g : option Token -> M A) (p : Parser) :
  bounded k f (g (nth_error (t p) (i p))) p -> bounded k f (bind (peek 0) g) p.
Proof.
  intros H a p' E. rewrite (bind_eq _ _ _ _ _ (peek_0 p)) in E. exact (H a p' E).
Qed.

(** [seq]: the budget of [c ;; g] from those of [c] and of [g]. *)
Ltac seq := eapply bounded_bind; [|intros ? ? ?].

Ltac budget :=
  first
    [ eapply bounded_match_ok; [eassumption | rewrite ?acepta_both, ?acepta_kind; eassumption]
    | eapply bounded_avanzar; eassumption
    | apply bounded_match; solve [assumption | eapply ok_wf; eassumption]
    | apply bounded_ret; solve [assumption | eapply ok_wf; eassumption] ].

Ltac wf_now := solve [assumption | eapply ok_wf; eassumption].

Lemma bounded_binop (n : nat) (f : Token -> bool) (sub : M unit) (p : Parser) :
  (forall q, wf q -> bounded 1 0 sub q) -> wf p ->
  bounded 1 0 (sub ;; while_ n (peek_is f) (avanzar ;; sub)) p.
Proof.
  intros Hs W.
  eapply bounded_weaken;
    [ seq; [now apply Hs|]; apply bounded_while with (k := 0); [|wf_now];
      intros q0 tk W0 N F;
      eapply bounded_weaken; [seq; [budget | apply Hs; wf_now] | lia | simpl; lia]
    | lia | simpl; lia ].
Qed.

Lemma bounded_factor_body (e : M unit) (p : Parser) :
  (forall q, wf q -> bounded 1 0 e q) -> wf p ->
  bounded 1 0 (factor_body e) p.
Proof.
  intros He W. unfold factor_body. apply bounded_peek.
  destruct (nth_error (t p) (i p)) as [tk|] eqn:N;
    [|now apply bounded_error_end].
  destruct (mem (tipo tk) [IDENTIFICADOR; NUMERO]).
  { eapply bounded_weaken; [budget | lia | lia]. }
  destruct (is_tok DELIMITADOR "(" tk).
  - eapply bounded_weaken;
      [ seq; [budget|]; seq; [apply He; eapply ok_wf; eassumption|];
        seq; budget
      | lia | simpl; lia ].
  - eapply bounded_weaken;
      [eapply bounded_error_avanzar; eassumption | lia | lia].
Qed.

Lemma bounded_expr (n : nat) :
  forall p, wf p ->
            bounded 1 0 (parse_factor n) p
            /\ bounded 1 0 (parse_term n) p
            /\ bounded 1 0 (parse_expr n) p.
Proof.
  induction n as [|n IH]; intros p W.
  - split; [|split]; intros a p' E; discriminate E.
  - split; [|split].
    + change (parse_factor (S n)) with (factor_body (parse_expr n)).
      apply bounded_factor_body; [|exact W]. intros q Wq. now apply IH.
    + change (parse_term (S n))
        with (parse_factor n ;; while_ n (peek_is mulop) (avanzar ;; parse_factor n)).
      apply bounded_binop; [|exact W]. intros q Wq. now apply IH.
    + change (parse_expr (S n))
        with (parse_term n ;; while_ n (peek_is addop) (avanzar ;; parse_term n)).
      apply bounded_binop; [|exact W]. intros q Wq. now apply IH.
Qed.

(** From a token that starts it, a statement adds at most three
    diagnostics more than the tokens it passes. *)
Lemma bounded_parse_stmt (n : nat) (p : Parser) (tk : Token) :
  wf p -> nth_error (t p) (i p) = Some tk -> bounded 3 0 (parse_stmt n) p.
Proof.
  intros W N. unfold parse_stmt. apply bounded_peek. rewrite N.
  destruct (is_tok PALABRA_RESERVADA "int" tk) eqn:K1.
  { unfold parse_decl.
    eapply bounded_weaken;
      [ seq; [budget|]; seq; [budget|]; seq; [|seq; budget];
        apply bounded_while with (k := 0); [|wf_now];
        intros q2 c W2 N2 F2;
        eapply bounded_weaken; [seq; [budget|]; seq; budget | lia | simpl; lia]
      | lia | simpl; lia ]. }
  destruct (is_tok PALABRA_RESERVADA "read" tk) eqn:K2.
  { unfold parse_read.
    eapply bounded_weaken;
      [seq; [budget|]; seq; [budget|]; seq; budget | lia | simpl; lia]. }
  destruct (is_tok PALABRA_RESERVADA "printf" tk) eqn:K3.
  { unfold parse_printf.
    eapply bounded_weaken;
      [ seq; [budget|]; seq; [budget|]; seq; [budget|]; seq; [budget|];
        seq; budget
      | lia | simpl; lia ]. }
  destruct (is_tok PALABRA_RESERVADA "end" tk) eqn:K4.
  { eapply bounded_weaken;
      [seq; [budget|]; seq; budget | lia | simpl; lia]. }
  destruct (tipo tk =? IDENTIFICADOR) eqn:K5.
  { unfold parse_assign.
    eapply bounded_weaken;
      [ seq; [budget|]; seq; [budget|];
        seq; [apply bounded_expr; eapply ok_wf; eassumption|]; seq; budget
      | lia | simpl; lia ]. }
  eapply bounded_weaken;
    [eapply bounded_error_avanzar; eassumption | lia | lia].
Qed.

(** With a token under the cursor, a [match] adds at most as many
    diagnostics as it passes tokens. *)
Lemma bounded_match_tok (tipo_ lexema_ msg : option string) (p : Parser) (tk : Token) :
  nth_error (t p) (i p) = Some tk -> bounded 0 0 (match_ tipo_ lexema_ msg) p.
Proof.
  intros N a p' E. rewrite match_eq, N in E. cbv zeta in E.
  assert (i p < List.length (t p)) by (apply nth_error_Some; congruence).
  destruct (acepta tipo_ lexema_ (Some tk)); inversion E; subst;
    bounded_tac; rewrite List.length_app; simpl; lia.
Qed.

Lemma ok_end (p q : Parser) :
  ok p q -> List.length (t p) <= i p -> List.length (t q) <= i q.
Proof. intros (T & I & _) L. rewrite T. lia. Qed.

Section MatchThen.

Variables (tipo_ lexema_ msg : option string) (g : option Token -> M unit).
Variables (K Ke : nat).

Hypothesis g_end :
  forall a q, wf q -> List.length (t q) <= i q -> bounded Ke 0 (g a) q.

(** At the end of the tokens, a [match] costs one diagnostic. *)
Lemma bounded_match_step_end (p : Parser) :
  wf p -> List.length (t p) <= i p ->
  bounded (1 + Ke) 0 (bind (match_ tipo_ lexema_ msg) g) p.
Proof.
  intros W L.
  apply (bounded_weaken (1 + Ke) (0 + 0)); [|lia|lia].
  apply bounded_bind; [now apply bounded_match|].
  intros a q O. apply g_end; [wf_now | now apply (ok_end p)].
Qed.

Hypothesis g_any : forall a q, wf q -> bounded K 0 (g a) q.

Lemma bounded_match_step_any (p : Parser) :
  wf p ->
  bounded (Nat.max K (1 + Ke)) 0 (bind (match_ tipo_ lexema_ msg) g) p.
Proof.
  intros W. destruct (nth_error (t p) (i p)) as [tk|] eqn:N.
  - apply (bounded_weaken (0 + K) (0 + 0)); [|lia|lia].
    apply bounded_bind; [now apply bounded_match_tok with (tk := tk)|].
    intros a q O. apply g_any. wf_now.
  - apply (bounded_weaken (1 + Ke) (0 + 0)); [|lia|lia].
    apply bounded_bind; [now apply bounded_match|].
    intros a q O. apply g_end; [wf_now|].
    apply (ok_end p); [exact O | now apply nth_error_None].
Qed.

End MatchThen.

Lemma bounded_tail_end (n : nat) (p : Parser) :
  wf p -> List.length (t p) <= i p ->
  bounded 1 0
    (while_ n (peek_is (fun tk => negb (is_tok DELIMITADOR "}" tk))) (parse_stmt n) ;;
     match_ (Some DELIMITADOR) (Some "}") (Some "Falta '}' para cerrar el programa.") ;;
     ret tt) p.
Proof.
  intros W L a p' E. rewrite (bind_eq _ _ _ _ _ (while_end _ _ n p L)) in E.
  revert a p' E.
  apply (bounded_weaken (1 + 0) (0 + 0)); [|lia|lia].
  apply bounded_bind; [now apply bounded_match|].
  intros a q O. apply bounded_ret. wf_now.
Qed.

Lemma bounded_tail (n : nat) (p : Parser) :
  wf p ->
  bounded 4 0
    (while_ n (peek_is (fun tk => negb (is_tok DELIMITADOR "}" tk))) (parse_stmt n) ;;
     match_ (Some DELIMITADOR) (Some "}") (Some "Falta '}' para cerrar el programa.") ;;
     ret tt) p.
Proof.
  intros W.
  apply (bounded_weaken (3 + (1 + 0)) (0 + (0 + 0))); [|lia|lia].
  apply bounded_bind.
  - apply bounded_while; [|exact W].
    intros q tk Wq N F. now apply bounded_parse_stmt with (tk := tk).
  - intros a q O. apply bounded_bind; [apply bounded_match; wf_now|].
    intros a' q' O'. apply bounded_ret. wf_now.
Qed.

Ltac header_end :=
  first
    [ eapply bounded_match_step_end;
      [intros ? ? ? ?; header_end | assumption | assumption]
    | apply bounded_tail_end; assumption ].

Ltac header_any :=
  first
    [ eapply bounded_match_step_any;
      [intros ? ? ? ?; header_end | intros ? ? ?; header_any | assumption]
    | apply bounded_tail; assumption ].

Lemma bounded_parse_programa (n : nat) (p : Parser) :
  wf p -> bounded 6 0 (parse_programa n) p.
Proof.
  intros W. unfold parse_programa.
  eapply bounded_weaken; [header_any | lia | simpl; lia].
Qed.

Lemma analizar_sintactico_bound (n : nat) (codigo : string) (tokens : list Token)
      (r : ParseResult) :
  analizar_sintactico n codigo tokens = Some r ->
  List.length (errores r) <= List.length tokens + 6
  /\ (List.length tokens < List.length (errores r) ->
      exists p, parse_programa n (Parser_init tokens) = Some (tt, p)
                /\ i p = List.length tokens).
Proof.
  unfold analizar_sintactico.
  destruct ((parse_programa n ;; sobrantes tokens) (Parser_init tokens))
    as [[u p']|] eqn:H; [|discriminate].
  intros R. inversion R; subst r. clear R. simpl.
  apply bind_inv in H. destruct H as ([] & q & H1 & H2).
  destruct (bounded_parse_programa n _ (wf_init tokens) tt q H1)
    as ((T & I & W) & B1 & B2).
  simpl in T, B1, B2. unfold wf in W. rewrite T in W.
  rewrite sobrantes_eq in H2 by assumption.
  destruct (resto q) as [|tok rest] eqn:Rq.
  - inversion H2; subst p'. split; [lia|]. intros X.
    exists q. split; [exact H1|].
    unfold resto in Rq. apply (f_equal (@List.length Token)) in Rq.
    rewrite length_skipn, T in Rq. simpl in Rq. lia.
  - assert (X : i q < List.length tokens).
    { unfold resto in Rq. apply (f_equal (@List.length Token)) in Rq.
      rewrite length_skipn, T in Rq. simpl in Rq. lia. }
    specialize (B1 X). inversion H2; subst p'. simpl.
    rewrite List.length_app. simpl. split; lia.
Qed.

(** X3. Whatever the tokens, the diagnostics are at most six more than
    the tokens; they are more than the tokens only when the parser has
    reached their end.  No tokens at all give six diagnostics. *)
Theorem X3_diagnostics_bound (n : nat) (codigo : string) (tokens : list Token)
        (r : ParseResult) :
  analizar_sintactico n codigo tokens = Some r ->
  List.length (errores r) <= List.length tokens + 6
  /\ (List.length tokens < List.length (errores r) ->
      exists p, parse_programa n (Parser_init tokens) = Some (tt, p)
                /\ i p = List.length tokens)
  /\ option_map (fun r0 => List.length (errores r0)) (analizar_sintactico 3 codigo [])
     = Some 6.
Proof.
  intros H. destruct (analizar_sintactico_bound n codigo tokens r H) as [B1 B2].
  split; [exact B1|]. split; [exact B2 | reflexivity].
Qed.

Lemma X3_diagnostics_bound_witness :
  analizar_sintactico 48 bad_src (analizar_lexico bad_src)
  = Some (mkParseResult false
            [ "Falta ';' al final de la declaraci" ++ o' ++ "n.";
              msg_sentencia DELIMITADOR "(" 1;
              msg_sentencia CADENA (dq ++ "x" ++ dq) 1;
              msg_sentencia DELIMITADOR ")" 1;
              msg_sentencia DELIMITADOR ";" 1 ])
  /\ 5 <= List.length (analizar_lexico bad_src) + 6.
Proof.
  assert (H : analizar_sintactico 48 bad_src (analizar_lexico bad_src)
              = Some (mkParseResult false
                        [ "Falta ';' al final de la declaraci" ++ o' ++ "n.";
                          msg_sentencia DELIMITADOR "(" 1;
                          msg_sentencia CADENA (dq ++ "x" ++ dq) 1;
                          msg_sentencia DELIMITADOR ")" 1;
                          msg_sentencia DELIMITADOR ";" 1 ]))
    by (vm_compute; reflexivity).
  split; [exact H|].
  exact (proj1 (X3_diagnostics_bound 48 bad_src (analizar_lexico bad_src) _ H)).
Defined.

(** X4. No call of a method, and no sequence of calls, removes or changes
    a diagnostic that is there, changes the tokens or moves the cursor
    back: the diagnostics after it are those before it, then the new
    ones. *)
Theorem X4_diagnostics_append_only (n : nat) (ops : list op) (p p' : Parser) :
  run_ops n ops p = Some (tt, p') ->
  t p' = t p /\ i p <= i p' /\ exists es, err p' = (err p ++ es)%list.
Proof. apply appends_run_ops. Qed.

Lemma X4_diagnostics_append_only_witness :
  run_ops 6 [OpParseFactor; OpMatch None None None; OpParseStmt]
          (mkParser [tok_siete] 0 [msg_decl])
  = Some (tt, mkParser [tok_siete] 1
                [msg_decl;
                 expected_found None None None;
                 "Fin inesperado dentro del bloque."])
  /\ exists es,
       [msg_decl; expected_found None None None;
        "Fin inesperado dentro del bloque."] = ([msg_decl] ++ es)%list.
Proof.
  assert (H : run_ops 6 [OpParseFactor; OpMatch None None None; OpParseStmt]
                      (mkParser [tok_siete] 0 [msg_decl])
              = Some (tt, mkParser [tok_siete] 1
                            [msg_decl;
                             expected_found None None None;
                             "Fin inesperado dentro del bloque."]))
    by reflexivity.
  split; [exact H|].
  exact (proj2 (proj2 (X4_diagnostics_append_only _ _ _ _ H))).
Defined.

(** X5. When the first token is not the reserved word [programa], in
    lower case, or there is no token, the result is [correcto = false]
    and its first diagnostic says that [programa] was expected at the
    start. *)
Theorem X5_programa_expected (n : nat) (codigo : string) (tokens : list Token)
        (r : ParseResult) :
  acepta (Some PALABRA_RESERVADA) (Some "programa") (hd_error tokens) = false ->
  analizar_sintactico n codigo tokens = Some r ->
  correcto r = false
  /\ exists es,
       errores r = "Se esperaba la palabra 'programa' al inicio." :: es.
Proof.
  intros C. unfold analizar_sintactico.
  destruct ((parse_programa n ;; sobrantes tokens) (Parser_init tokens))
    as [[u p']|] eqn:H; [|discriminate].
  intros R. inversion R; subst r. clear R. simpl.
  apply bind_inv in H. destruct H as ([] & q & H1 & H2).
  unfold parse_programa in H1. apply bind_inv in H1.
  destruct H1 as (a & q1 & M & H1).
  rewrite match_eq in M. cbv zeta in M.
  change (nth_error (t (Parser_init tokens)) (i (Parser_init tokens)))
    with (nth_error tokens 0) in M.
  replace (nth_error tokens 0) with (hd_error tokens) in M
    by (now destruct tokens).
  rewrite C in M. inversion M; subst a q1. clear M.
  assert (A1 : exists es, err q =
             (["Se esperaba la palabra 'programa' al inicio."] ++ es)%list).
  { revert H1. match goal with
               | |- ?c ?s = Some (?a, ?q) -> _ =>
                   intros H1; assert (A : appends c) by solve_appends;
                   destruct (A _ _ _ H1) as (_ & _ & es & E)
               end.
    exists es. exact E. }
  destruct A1 as (es1 & E1).
  destruct (appends_sobrantes tokens _ _ _ H2) as (_ & _ & es2 & E2).
  rewrite E2, E1. simpl. split; [reflexivity | eauto].
Qed.

Lemma X5_programa_expected_witness :
  (acepta (Some PALABRA_RESERVADA) (Some "programa")
          (hd_error (analizar_lexico "PROGRAMA p(){}")) = false
   /\ analizar_sintactico 21 "PROGRAMA p(){}" (analizar_lexico "PROGRAMA p(){}")
      = Some (mkParseResult false ["Se esperaba la palabra 'programa' al inicio."]))
  /\ exists es,
       ["Se esperaba la palabra 'programa' al inicio."]
       = "Se esperaba la palabra 'programa' al inicio." :: es.
Proof.
  assert (C : acepta (Some PALABRA_RESERVADA) (Some "programa")
                     (hd_error (analizar_lexico "PROGRAMA p(){}")) = false)
    by reflexivity.
  assert (H : analizar_sintactico 21 "PROGRAMA p(){}" (analizar_lexico "PROGRAMA p(){}")
              = Some (mkParseResult false
                        ["Se esperaba la palabra 'programa' al inicio."]))
    by (vm_compute; reflexivity).
  split; [split; assumption|].
  exact (proj2 (X5_programa_expected 21 "PROGRAMA p(){}" _ _ C H)).
Defined.

(** * Further properties of the tokenizer *)

Lemma finditer_from_chain (fuel : nat) :
  forall pos s, String.length s <= fuel -> chain s (finditer_from fuel pos s).
Proof.
  induction fuel as [|fuel IH]; intros pos s L.
  - assert (s = "") by (apply length_zero; lia). subst s. reflexivity.
  - destruct s as [|c s]; [reflexivity|].
    rewrite finditer_from_eq.
    destruct (regex_tokens (String c s)) as [[g rest]|] eqn:E;
      [|now apply regex_tokens_total in E].
    pose proof E as E0.
    apply regex_tokens_sound in E. destruct E as (pre & r & E & N & I & L').
    rewrite E in *. clear E. rewrite length_app in *.
    assert (P : 1 <= String.length pre).
    { destruct pre; [now contradiction N | simpl; lia]. }
    cbv zeta.
    replace (String.length pre + String.length rest - String.length rest)
      with (String.length pre) by lia.
    rewrite Nat.max_l by exact P. rewrite take_app, drop_app.
    simpl. exists rest. repeat split; auto. apply IH. lia.
Qed.

Lemma finditer_chain (codigo : string) : chain codigo (finditer codigo).
Proof. apply finditer_from_chain. apply le_n. Qed.

(** Every match of a scan is a first match somewhere in the text. *)
Lemma chain_in (ms : list Match) :
  forall s m, chain s ms -> In m ms ->
              exists rest, m_group m <> ""
                           /\ regex_tokens (m_group m ++ rest)
                              = Some (m_lastgroup m, rest).
Proof.
  induction ms as [|m0 ms IH]; intros s m C I; [contradiction|].
  destruct C as (rest & E & N & R & C). destruct I as [<-|I].
  - exists rest. now rewrite <- E.
  - eapply IH; eauto.
Qed.

Lemma analizar_lexico_tokens_in (codigo : string) (tk : Token) :
  In tk (analizar_lexico codigo) ->
  exists m, In m (finditer codigo) /\ ignorado m = false
            /\ lexema tk = m_group m /\ tipo tk = clasificar m.
Proof.
  intros I. apply lex_loop_tokens in I. destruct I as [[]|(m & I & G)]. eauto.
Qed.

(** Which group has matched, and that the groups before it have not. *)
Lemma regex_tokens_cases (s g rest : string) :
  regex_tokens s = Some (g, rest) ->
  (g = LINE_COMMENT /\ rematch re_LINE_COMMENT s Some = Some rest)
  \/ (g = NUMERO /\ rematch re_NUMERO s Some = Some rest)
  \/ (g = CADENA /\ rematch re_CADENA s Some = Some rest)
  \/ (g = IDENTIFICADOR /\ rematch re_IDENTIFICADOR s Some = Some rest)
  \/ (g = SIMBOLO /\ rematch re_LINE_COMMENT s Some = None
      /\ rematch re_SIMBOLO s Some = Some rest)
  \/ (g = DELIMITADOR /\ rematch re_DELIMITADOR s Some = Some rest)
  \/ (g = ESPACIO /\ rematch re_ESPACIO s Some = Some rest)
  \/ (g = DESCONOCIDO
      /\ rematch re_NUMERO s Some = None
      /\ rematch re_IDENTIFICADOR s Some = None
      /\ rematch re_SIMBOLO s Some = None
      /\ rematch re_DELIMITADOR s Some = None
      /\ rematch re_ESPACIO s Some = None
      /\ rematch re_DESCONOCIDO s Some = Some rest).
Proof.
  rewrite regex_tokens_eq.
  destruct (rematch re_LINE_COMMENT s Some) eqn:E1;
    [intros H; inversion H; subst; tauto|].
  destruct (rematch re_NUMERO s Some) eqn:E2;
    [intros H; inversion H; subst; tauto|].
  destruct (rematch re_CADENA s Some) eqn:E3;
    [intros H; inversion H; subst; tauto|].
  destruct (rematch re_IDENTIFICADOR s Some) eqn:E4;
    [intros H; inversion H; subst; tauto|].
  destruct (rematch re_SIMBOLO s Some) eqn:E5;
    [intros H; inversion H; subst; tauto|].
  destruct (rematch re_DELIMITADOR s Some) eqn:E6;
    [intros H; inversion H; subst; tauto|].
  destruct (rematch re_ESPACIO s Some) eqn:E7;
    [intros H; inversion H; subst; tauto|].
  destruct (rematch re_DESCONOCIDO s Some) eqn:E8;
    [intros H; inversion H; subst; do 7 right; tauto | discriminate].
Qed.

(** *** When a group cannot fail *)

Lemma rematch_alts_last (rs : list regex) (last : regex) (s : string)
      (k : string -> option string) :
  rematch last s k <> None -> rematch (alts rs last) s k <> None.
Proof.
  intros H. induction rs as [|r rs IH]; simpl; [exact H|].
  destruct (rematch r s k); [discriminate | exact IH].
Qed.

Lemma opt_total (r : regex) (s : string) : rematch (Opt r) s Some <> None.
Proof. simpl. destruct (rematch r s Some); discriminate. Qed.

Lemma re_NUMERO_fails (c : ascii) (s : string) :
  rematch re_NUMERO (String c s) Some = None -> is_digit c = false.
Proof.
  intros H. destruct (is_digit c) eqn:D; [|reflexivity]. exfalso. revert H.
  change (rematch re_NUMERO (String c s) Some)
    with (if is_digit c
          then rematch (Star (Cls is_digit)) s
                 (fun s' => rematch (Opt (Cat (Lit ".") (Plus (Cls is_digit)))) s' Some)
          else None).
  rewrite D. apply rematch_star_total. intros s'. apply opt_total.
Qed.

Lemma re_IDENTIFICADOR_fails (c : ascii) (s : string) :
  rematch re_IDENTIFICADOR (String c s) Some = None -> is_ident_start c = false.
Proof.
  intros H. destruct (is_ident_start c) eqn:D; [|reflexivity]. exfalso. revert H.
  change (rematch re_IDENTIFICADOR (String c s) Some)
    with (if is_ident_start c then rematch (Star (Cls is_word)) s Some else None).
  rewrite D. apply rematch_star_total. discriminate.
Qed.

Lemma re_ESPACIO_fails (c : ascii) (s : string) :
  rematch re_ESPACIO (String c s) Some = None -> is_space c = false.
Proof.
  intros H. destruct (is_space c) eqn:D; [|reflexivity]. exfalso. revert H.
  change (rematch re_ESPACIO (String c s) Some)
    with (if is_space c then rematch (Star (Cls is_space)) s Some else None).
  rewrite D. apply rematch_star_total. discriminate.
Qed.

Lemma re_SIMBOLO_fails (c : ascii) (s : string) :
  rematch re_SIMBOLO (String c s) Some = None -> in_string c "=+-*/%<>" = false.
Proof.
  intros H. destruct (in_string c "=+-*/%<>") eqn:D; [|reflexivity].
  exfalso. revert H. apply rematch_alts_last.
  change (rematch (OneOf "=+-*/%<>") (String c s) Some)
    with (if in_string c "=+-*/%<>" then Some s else None).
  rewrite D. discriminate.
Qed.

Lemma re_DELIMITADOR_fails (c : ascii) (s : string) :
  rematch re_DELIMITADOR (String c s) Some = None ->
  in_string c ";(),{}.[]" = false.
Proof.
  change (rematch re_DELIMITADOR (String c s) Some)
    with (if in_string c ";(),{}.[]" then Some s else None).
  destruct (in_string c ";(),{}.[]"); [discriminate | reflexivity].
Qed.

Lemma in_string_app (c : ascii) (a b : string) :
  in_string c (a ++ b) = in_string c a || in_string c b.
Proof.
  induction a as [|d a IH]; simpl; [reflexivity|].
  now rewrite IH, orb_assoc.
Qed.

(** *** The texts of each group *)

Lemma matches_alt_inv (r1 r2 : regex) (a : string) :
  matches (Alt r1 r2) a -> matches r1 a \/ matches r2 a.
Proof. inversion 1; subst; tauto. Qed.

Lemma matches_cat_inv (r1 r2 : regex) (a : string) :
  matches (Cat r1 r2) a ->
  exists a1 a2, a = a1 ++ a2 /\ matches r1 a1 /\ matches r2 a2.
Proof. inversion 1; subst; eauto. Qed.

Lemma matches_eps_inv (a : string) : matches Eps a -> a = "".
Proof. now inversion 1. Qed.

Lemma matches_Str (s a : string) : matches (Str s) a -> a = s.
Proof.
  revert a. induction s as [|c s IH]; simpl; intros a H.
  - now apply matches_eps_inv.
  - apply matches_cat_inv in H. destruct H as (a1 & a2 & -> & H1 & H2).
    apply matches_cls in H1. destruct H1 as (d & -> & D).
    apply Ascii.eqb_eq in D. subst d. simpl. f_equal. now apply IH.
Qed.

Lemma matches_OneOf (set a : string) :
  matches (OneOf set) a -> exists c, a = String c "" /\ in_string c set = true.
Proof. intros H. now apply matches_cls in H. Qed.

Lemma in_string_singletons (c : ascii) (set : string) :
  in_string c set = true ->
  In (String c "") (map (fun d => String d "") (list_ascii_of_string set)).
Proof.
  induction set as [|d set IH]; simpl; [discriminate|].
  intros H. apply orb_true_iff in H. destruct H as [H|H].
  - apply Ascii.eqb_eq in H. subst. now left.
  - right. now apply IH.
Qed.

Lemma matches_re_SIMBOLO (a : string) : matches re_SIMBOLO a -> In a SIMBOLOS.
Proof.
  unfold re_SIMBOLO. cbn [alts]. intros H.
  repeat (apply matches_alt_inv in H;
          destruct H as [H|H];
          [apply matches_Str in H; subst; simpl; tauto|]).
  apply matches_OneOf in H. destruct H as (c & -> & C).
  apply in_string_singletons in C. simpl in C. simpl. tauto.
Qed.

Lemma matches_re_DELIMITADOR (a : string) :
  matches re_DELIMITADOR a -> In a DELIMITADORES.
Proof.
  intros H. apply matches_OneOf in H. destruct H as (c & -> & C).
  apply in_string_singletons in C. exact C.
Qed.

Lemma matches_plus_cls (p : ascii -> bool) (a : string) :
  matches (Plus (Cls p)) a -> a <> "" /\ all_chars p a = true.
Proof.
  intros H. apply matches_cat_inv in H. destruct H as (a1 & a2 & -> & H1 & H2).
  apply matches_cls in H1. destruct H1 as (c & -> & C).
  apply matches_star_cls in H2. simpl. rewrite C, H2.
  split; [discriminate | reflexivity].
Qed.

Lemma matches_re_NUMERO (a : string) : matches re_NUMERO a -> numero_shaped a.
Proof.
  intros H. apply matches_cat_inv in H. destruct H as (a1 & a2 & -> & H1 & H2).
  apply matches_plus_cls in H1. destruct H1 as [N1 D1].
  apply matches_alt_inv in H2. destruct H2 as [H2|H2].
  - apply matches_cat_inv in H2. destruct H2 as (a3 & a4 & -> & H4 & H5).
    apply matches_cls in H4. destruct H4 as (c & -> & C).
    apply Ascii.eqb_eq in C. subst c.
    apply matches_plus_cls in H5. destruct H5 as [N2 D2].
    exists a1, a4. repeat split; auto.
  - apply matches_eps_inv in H2. subst. exists a1, "". rewrite app_empty_r.
    repeat split; auto.
Qed.

Lemma app_inv_tail_s (a b r : string) : a ++ r = b ++ r -> a = b.
Proof.
  intros H.
  assert (L : String.length a = String.length b).
  { apply (f_equal String.length) in H. rewrite !length_app in H. lia. }
  rewrite <- (take_app a r), <- (take_app b r), H, L. reflexivity.
Qed.

Lemma clasificar_cases (m : Match) :
  (m_lastgroup m = IDENTIFICADOR
   /\ (clasificar m = PALABRA_RESERVADA \/ clasificar m = IDENTIFICADOR))
  \/ clasificar m = m_lastgroup m.
Proof.
  unfold clasificar.
  destruct (m_lastgroup m =? IDENTIFICADOR) eqn:E; cbn [andb]; [|now right].
  apply String.eqb_eq in E.
  destruct (mem (lower (m_group m)) RESERVADAS); [left; auto | now right].
Qed.

(** A token of the kind [g], the reserved words apart, is a first match of
    the group [g]: its lexeme is a text of the group and the text from the
    lexeme on is matched by this group before any other. *)
Lemma token_of_group (codigo : string) (tk : Token) :
  In tk (analizar_lexico codigo) ->
  lexema tk <> ""
  /\ In (tipo tk) TIPOS
  /\ (tipo tk <> PALABRA_RESERVADA ->
      exists r rest,
        In (tipo tk, r) token_specs /\ matches r (lexema tk)
        /\ regex_tokens (lexema tk ++ rest) = Some (tipo tk, rest)).
Proof.
  intros I. apply analizar_lexico_tokens_in in I.
  destruct I as (m & I & G & -> & ->).
  destruct (chain_in _ _ _ (finditer_chain codigo) I) as (rest & N & RT).
  split; [exact N|].
  destruct (regex_tokens_sound _ RT) as (pre & r & E & _ & S & Mt).
  apply app_inv_tail_s in E. subst pre.
  assert (K : In (clasificar m) TIPOS).
  { destruct (clasificar_cases m) as [(_ & [->| ->])| ->]; simpl; try tauto.
    unfold ignorado in G. apply orb_false_iff in G. destruct G as [G1 G2].
    apply String.eqb_neq in G1, G2.
    apply token_specs_lookup in S.
    destruct S as [(E & _)|[(E & _)|[(E & _)|[(E & _)|[(E & _)|[(E & _)|[(E & _)|(E & _)]]]]]]];
      rewrite E in *; simpl; tauto. }
  split; [exact K|].
  intros NP. destruct (clasificar_cases m) as [(_ & [E|E])|E].
  - contradiction.
  - exists r, rest. unfold clasificar in *.
    destruct ((m_lastgroup m =? IDENTIFICADOR) && mem (lower (m_group m)) RESERVADAS);
      [contradiction|]. auto.
  - exists r, rest. rewrite E. auto.
Qed.

Lemma lexeme_NUMERO (codigo : string) (tk : Token) :
  In tk (analizar_lexico codigo) -> tipo tk = NUMERO -> numero_shaped (lexema tk).
Proof.
  intros I T. destruct (token_of_group _ _ I) as (_ & _ & H).
  destruct H as (r & rest & S & Mt & _); [rewrite T; discriminate|].
  rewrite T in S. apply token_specs_lookup in S.
  destruct S as [(E & _)|[(_ & ->)|[(E & _)|[(E & _)|[(E & _)|[(E & _)|[(E & _)|(E & _)]]]]]]];
    try discriminate E.
  now apply matches_re_NUMERO.
Qed.

Lemma lexeme_SIMBOLO (codigo : string) (tk : Token) :
  In tk (analizar_lexico codigo) -> tipo tk = SIMBOLO -> In (lexema tk) SIMBOLOS.
Proof.
  intros I T. destruct (token_of_group _ _ I) as (_ & _ & H).
  destruct H as (r & rest & S & Mt & _); [rewrite T; discriminate|].
  rewrite T in S. apply token_specs_lookup in S.
  destruct S as [(E & _)|[(E & _)|[(E & _)|[(E & _)|[(_ & ->)|[(E & _)|[(E & _)|(E & _)]]]]]]];
    try discriminate E.
  now apply matches_re_SIMBOLO.
Qed.

Lemma lexeme_DELIMITADOR (codigo : string) (tk : Token) :
  In tk (analizar_lexico codigo) -> tipo tk = DELIMITADOR ->
  In (lexema tk) DELIMITADORES.
Proof.
  intros I T. destruct (token_of_group _ _ I) as (_ & _ & H).
  destruct H as (r & rest & S & Mt & _); [rewrite T; discriminate|].
  rewrite T in S. apply token_specs_lookup in S.
  destruct S as [(E & _)|[(E & _)|[(E & _)|[(E & _)|[(E & _)|[(_ & ->)|[(E & _)|(E & _)]]]]]]];
    try discriminate E.
  now apply matches_re_DELIMITADOR.
Qed.

Lemma lexeme_DESCONOCIDO (codigo : string) (tk : Token) :
  In tk (analizar_lexico codigo) -> tipo tk = DESCONOCIDO ->
  exists c, lexema tk = String c "" /\ is_dot c = true /\ is_space c = false
            /\ is_digit c = false /\ is_ident_start c = false
            /\ in_string c "=+-*/%<>;(),{}.[]" = false.
Proof.
  intros I T. destruct (token_of_group _ _ I) as (_ & _ & H).
  destruct H as (r & rest & S & Mt & RT); [rewrite T; discriminate|].
  rewrite T in S, RT. apply token_specs_lookup in S.
  destruct S as [(E & _)|[(E & _)|[(E & _)|[(E & _)|[(E & _)|[(E & _)|[(E & _)|(_ & ->)]]]]]]];
    try discriminate E.
  apply matches_cls in Mt. destruct Mt as (c & L & D). rewrite L in *.
  exists c. split; [reflexivity|]. split; [exact D|].
  apply regex_tokens_cases in RT.
  destruct RT as [(E & _)|[(E & _)|[(E & _)|[(E & _)|[(E & _)|[(E & _)|[(E & _)|RT]]]]]]];
    try discriminate E.
  destruct RT as (_ & F2 & F4 & F5 & F6 & F7 & _). simpl in F2, F4, F5, F6, F7.
  split; [now apply (re_ESPACIO_fails c rest)|].
  split; [now apply (re_NUMERO_fails c rest)|].
  split; [now apply (re_IDENTIFICADOR_fails c rest)|].
  change "=+-*/%<>;(),{}.[]" with ("=+-*/%<>" ++ ";(),{}.[]").
  rewrite in_string_app, (re_SIMBOLO_fails c rest F5), (re_DELIMITADOR_fails c rest F6).
  reflexivity.
Qed.

(** The kind of a token and the shape of its lexeme. *)
Lemma analizar_lexico_lexeme_ok (codigo : string) (tk : Token) :
  In tk (analizar_lexico codigo) -> In (tipo tk) TIPOS /\ lexeme_ok tk.
Proof.
  intros I. destruct (token_of_group _ _ I) as (N & K & _).
  split; [exact K|]. split; [exact N|].
  destruct (ident_tokens _ _ I) as [P1 P2].
  split; [exact P1|]. split; [exact P2|].
  split; [now apply cadena_tokens with (codigo := codigo)|].
  split; [now apply lexeme_NUMERO with (codigo := codigo)|].
  split; [now apply lexeme_SIMBOLO with (codigo := codigo)|].
  split; [now apply lexeme_DELIMITADOR with (codigo := codigo)|].
  now apply lexeme_DESCONOCIDO with (codigo := codigo).
Qed.

(** X6. Every token that [analizar_lexico] returns has one of the seven
    kinds PALABRA_RESERVADA, IDENTIFICADOR, CADENA, NUMERO, SIMBOLO,
    DELIMITADOR and DESCONOCIDO, and a lexeme of the shape of its kind: it
    is never empty; a number is digits, or digits, a dot and digits; an
    operator is one of the fourteen of [SIMBOLOS] and a delimiter one of the
    nine of [DELIMITADORES]; DESCONOCIDO is a single character that is no
    line feed, no white space, no digit, no letter or underscore, no operator
    character and no delimiter. *)
Theorem X6_token_kinds_and_lexemes (codigo : string) :
  Forall (fun tk => In (tipo tk) TIPOS /\ lexeme_ok tk) (analizar_lexico codigo).
Proof.
  apply Forall_forall. intros tk I. now apply analizar_lexico_lexeme_ok with codigo.
Qed.

(** *** Lines and offsets *)

Lemma lengths_app (a b : list string) :
  lengths (a ++ b) = lengths a + lengths b.
Proof. unfold lengths. now rewrite map_app, list_sum_app. Qed.

Lemma lengths_cons_line (c : ascii) (ls : list string) :
  lengths (cons_line c ls) = S (lengths ls).
Proof. destruct ls; reflexivity. Qed.

Lemma splitlines_lengths_le (n : nat) :
  forall s, String.length s <= n -> lengths (splitlines s) = String.length s.
Proof.
  induction n as [|n IH]; intros s L.
  - destruct s; [reflexivity | simpl in L; lia].
  - destruct s as [|c s]; [reflexivity|]. simpl in L.
    cbn [splitlines]. destruct (is_linebreak c).
    + destruct s as [|d s]; [reflexivity|]. simpl in L.
      destruct ((code c =? 13)%N && (code d =? 10)%N).
      * change (lengths (String c (String d "") :: splitlines s))
          with (2 + lengths (splitlines s)).
        rewrite IH by lia. reflexivity.
      * change (lengths (String c "" :: splitlines (String d s)))
          with (1 + lengths (splitlines (String d s))).
        rewrite IH by (simpl; lia). reflexivity.
    + rewrite lengths_cons_line, IH by lia. reflexivity.
Qed.

(** The lines of a text have its characters, all of them. *)
Lemma splitlines_lengths (s : string) :
  lengths (splitlines s) = String.length s.
Proof. now apply splitlines_lengths_le with (n := String.length s). Qed.

(** The inner loop stops on the line that holds the offset [start]. *)
Lemma avanzar_linea_split (pend : list string) (start : nat) :
  forall done l' cb',
    lengths done <= start -> start < lengths (done ++ pend) ->
    avanzar_linea pend start (List.length done + 1) (lengths done) = (l', cb') ->
    exists done' x pend',
      (done ++ pend = done' ++ x :: pend')%list
      /\ l' = List.length done' + 1 /\ cb' = lengths done'
      /\ lengths done' <= start < lengths done' + String.length x.
Proof.
  induction pend as [|x pend IH]; intros done l' cb' L1 L2 A.
  - rewrite app_nil_r in L2. lia.
  - cbn [avanzar_linea] in A.
    destruct (lengths done + String.length x <=? start)%nat eqn:E.
    + apply Nat.leb_le in E.
      specialize (IH (done ++ [x])%list l' cb').
      rewrite List.length_app, lengths_app in IH.
      change (lengths [x]) with (String.length x + 0) in IH.
      change (List.length [x]) with 1 in IH.
      rewrite Nat.add_0_r, <- app_assoc in IH.
      apply IH; [lia | exact L2 | exact A].
    + apply Nat.leb_gt in E. inversion A; subst.
      exists done, x, pend. repeat split; auto; lia.
Qed.

(** Where the matches are in the text. *)
Lemma chain_occurs (ms : list Match) :
  forall s pos pre0,
    String.length pre0 = pos -> chain s ms -> contiguous pos ms ->
    Forall (fun m => exists pre rest,
                (pre0 ++ s)%string = (pre ++ m_group m ++ rest)%string
                /\ String.length pre = m_start m
                /\ regex_tokens (m_group m ++ rest) = Some (m_lastgroup m, rest)) ms.
Proof.
  induction ms as [|m ms IH]; intros s pos pre0 L C G; constructor.
  - destruct C as (rest & E & _ & RT & _). destruct G as (G1 & _).
    exists pre0, rest. rewrite <- E. repeat split; auto. congruence.
  - destruct C as (rest & E & _ & _ & C). destruct G as (_ & _ & G).
    specialize (IH rest (pos + String.length (m_group m)) (pre0 ++ m_group m)%string).
    rewrite length_app, L in IH. specialize (IH eq_refl C G).
    rewrite E. eapply Forall_impl; [|exact IH].
    intros m' (pre & rest' & E' & H). exists pre, rest'.
    rewrite <- E', app_assoc_s. auto.
Qed.

Lemma finditer_occurs (codigo : string) :
  Forall (fun m => exists pre rest,
              codigo = (pre ++ m_group m ++ rest)%string
              /\ String.length pre = m_start m
              /\ regex_tokens (m_group m ++ rest) = Some (m_lastgroup m, rest))
         (finditer codigo).
Proof.
  apply (chain_occurs (finditer codigo) codigo 0 "" eq_refl).
  - apply finditer_chain.
  - now apply finditer_from_covers.
Qed.

(** The loop of the tokenizer: the line and the column that it gives to a
    token are those of its match in the text. *)
Lemma lex_loop_located (codigo : string) (ms : list Match) :
  forall st pos done pend,
    contiguous pos ms ->
    Forall (fun m => exists pre rest,
                codigo = (pre ++ m_group m ++ rest)%string
                /\ String.length pre = m_start m
                /\ regex_tokens (m_group m ++ rest) = Some (m_lastgroup m, rest)) ms ->
    splitlines codigo = (done ++ pend)%list ->
    ls_linea st = List.length done + 1 ->
    ls_col_base st = lengths done ->
    lengths done <= pos ->
    Forall (fun tk => exists rest m,
                located codigo tk rest /\ ignorado m = false
                /\ tipo tk = clasificar m /\ lexema tk = m_group m
                /\ regex_tokens (m_group m ++ rest) = Some (m_lastgroup m, rest))
           (ls_tokens st) ->
    Forall (fun tk => exists rest m,
                located codigo tk rest /\ ignorado m = false
                /\ tipo tk = clasificar m /\ lexema tk = m_group m
                /\ regex_tokens (m_group m ++ rest) = Some (m_lastgroup m, rest))
           (ls_tokens (lex_loop (splitlines codigo) ms st)).
Proof.
  induction ms as [|m ms IH]; intros st pos done pend C O E L1 L2 Le F;
    [exact F|].
  destruct C as (C1 & C2 & C3).
  apply Forall_cons_iff in O. destruct O as [(pre & rest & Eq & Lp & RT) O].
  assert (P : 1 <= String.length (m_group m)).
  { destruct (m_group m); [now contradiction C2 | simpl; lia]. }
  assert (Lt : pos < lengths (done ++ pend)).
  { rewrite <- E, splitlines_lengths, Eq, !length_app. lia. }
  destruct (lex_step_cases (splitlines codigo) st m)
    as (l & cb & _ & A & S1 & S2 & _ & T).
  rewrite L1, L2, C1, E, Nat.add_sub in A.
  replace (skipn (List.length done) (done ++ pend)) with pend in A
    by (rewrite skipn_app, skipn_all, Nat.sub_diag; reflexivity).
  destruct (avanzar_linea_split _ _ _ _ _ Le Lt A)
    as (done' & x & pend' & E' & -> & -> & B).
  change (lex_loop (splitlines codigo) (m :: ms) st)
    with (lex_loop (splitlines codigo) ms (lex_step (splitlines codigo) st m)).
  apply (IH _ (pos + String.length (m_group m)) done' (x :: pend')); auto.
  - congruence.
  - lia.
  - rewrite T. apply Forall_app. split; [exact F|].
    destruct (ignorado m) eqn:G; constructor; [|constructor].
    exists rest, m. cbn [tipo lexema]. repeat split; auto.
    + cbn [linea]. lia.
    + exists x. cbn [linea columna]. rewrite E, E', Nat.add_sub, C1.
      split; [|lia].
      rewrite nth_error_app2, Nat.sub_diag by lia. reflexivity.
    + unfold offset, line_offset. cbn [linea columna lexema].
      rewrite E, E', Nat.add_sub, C1.
      replace (firstn (List.length done') (done' ++ x :: pend')) with done'
        by (rewrite firstn_app, firstn_all, Nat.sub_diag, app_nil_r; reflexivity).
      replace (lengths done' + Z.to_nat (Z.of_nat pos - Z.of_nat (lengths done') + 1 - 1))
        with (String.length pre) by lia.
      rewrite Eq at 1. apply drop_app.
Qed.

(** Every token stands in the text where its line and column say, and is
    the first match of its group against the text from there on. *)
Lemma analizar_lexico_located (codigo : string) (tk : Token) :
  In tk (analizar_lexico codigo) ->
  exists rest m,
    located codigo tk rest /\ ignorado m = false
    /\ tipo tk = clasificar m /\ lexema tk = m_group m
    /\ regex_tokens (m_group m ++ rest) = Some (m_lastgroup m, rest).
Proof.
  revert tk. apply Forall_forall. unfold analizar_lexico.
  apply (lex_loop_located codigo (finditer codigo) _ 0 [] (splitlines codigo)).
  - now apply finditer_from_covers.
  - apply finditer_occurs.
  - reflexivity.
  - reflexivity.
  - reflexivity.
  - apply Nat.le_refl.
  - constructor.
Qed.

(** X7. The line and the column of a token are where its lexeme is in the
    text: the line, counted from 1, is a line of [codigo.splitlines], the
    column, counted from 1, is a column of this line, and the lexeme is
    read in the text at the offset made of the lengths of the lines before
    it and of the column. *)
Theorem X7_token_positions (codigo : string) :
  Forall (fun tk => exists rest, located codigo tk rest) (analizar_lexico codigo).
Proof.
  apply Forall_forall. intros tk I.
  destruct (analizar_lexico_located _ _ I) as (rest & m & H & _). eauto.
Qed.

(** *** The longest match *)

Lemma starts_with_skip (p : ascii -> bool) (s : string) :
  starts_with p (skip_chars p s) = false.
Proof.
  induction s as [|c s IH]; [reflexivity|]. cbn [skip_chars].
  destruct (p c) eqn:E; [exact IH | simpl; exact E].
Qed.

(** A repetition of a class takes all the characters of the class that it
    finds, when what follows it cannot fail. *)
Lemma rematch_star_cls_skip (p : ascii -> bool) (k : string -> option string) :
  (forall s', k s' <> None) ->
  forall s, rematch (Star (Cls p)) s k = k (skip_chars p s).
Proof.
  intros Hk. induction s as [|c s IH]; [reflexivity|].
  rewrite rematch_star_cls_cons. cbn [skip_chars].
  destruct (p c); [|reflexivity]. rewrite IH.
  destruct (k (skip_chars p s)) eqn:E; [reflexivity | now apply Hk in E].
Qed.

Lemma plus_cls_rest (p : ascii -> bool) (s x : string) :
  rematch (Plus (Cls p)) s Some = Some x -> starts_with p x = false.
Proof.
  destruct s as [|c s]; [discriminate|].
  change (rematch (Plus (Cls p)) (String c s) Some)
    with (if p c then rematch (Star (Cls p)) s Some else None).
  destruct (p c); [|discriminate].
  rewrite rematch_star_cls_skip by discriminate.
  intros H. inversion H. apply starts_with_skip.
Qed.

Lemma re_IDENTIFICADOR_rest (s x : string) :
  rematch re_IDENTIFICADOR s Some = Some x -> starts_with is_word x = false.
Proof.
  destruct s as [|c s]; [discriminate|].
  change (rematch re_IDENTIFICADOR (String c s) Some)
    with (if is_ident_start c then rematch (Star (Cls is_word)) s Some else None).
  destruct (is_ident_start c); [|discriminate].
  rewrite rematch_star_cls_skip by discriminate.
  intros H. inversion H. apply starts_with_skip.
Qed.

Lemma re_NUMERO_rest (s x : string) :
  rematch re_NUMERO s Some = Some x -> starts_with is_digit x = false.
Proof.
  destruct s as [|c s]; [discriminate|].
  change (rematch re_NUMERO (String c s) Some)
    with (if is_digit c
          then rematch (Star (Cls is_digit)) s
                 (fun s' => rematch (Opt (Cat (Lit ".") (Plus (Cls is_digit)))) s' Some)
          else None).
  destruct (is_digit c); [|discriminate].
  rewrite rematch_star_cls_skip by (intros s'; apply opt_total).
  change (rematch (Opt (Cat (Lit ".") (Plus (Cls is_digit)))) (skip_chars is_digit s) Some)
    with (match rematch (Lit ".") (skip_chars is_digit s)
                  (fun s' => rematch (Plus (Cls is_digit)) s' Some) with
          | Some r => Some r
          | None => Some (skip_chars is_digit s)
          end).
  destruct (rematch (Lit ".") _ _) as [r|] eqn:E; intros H; inversion H; subst.
  - apply rematch_sound in E. destruct E as (_ & s' & _ & E & _).
    now apply plus_cls_rest in E.
  - apply starts_with_skip.
Qed.

Lemma two_chars (g : string) (c a b : ascii) :
  g <> "" -> (g ++ String c "")%string = String a (String b "") ->
  g = String a "" /\ c = b.
Proof.
  intros N H. destruct g as [|a' [|b' g]]; [now contradiction N | |].
  - simpl in H. inversion H. auto.
  - simpl in H. inversion H as [[H1 H2 H3]]. destruct g; discriminate H3.
Qed.

Lemma cons_neq (c : ascii) (s : string) : s <> String c s.
Proof.
  intros H. apply (f_equal String.length) in H. simpl in H. lia.
Qed.

Lemma re_SIMBOLO_rest (g rest : string) (c : ascii) :
  g <> "" ->
  rematch re_LINE_COMMENT (g ++ String c rest) Some = None ->
  rematch re_SIMBOLO (g ++ String c rest) Some = Some (String c rest) ->
  ~ In (g ++ String c "")%string DOBLES.
Proof.
  intros N C R I. simpl in I.
  repeat (destruct I as [I|I];
          [symmetry in I; apply two_chars in I; [|exact N];
           destruct I as [-> ->]; cbn in R; inversion R as [R'];
           now apply cons_neq in R'|]).
  destruct I as [I|[]].
  symmetry in I. apply two_chars in I; [|exact N]. destruct I as [-> ->].
  revert C.
  change (rematch re_LINE_COMMENT ("/" ++ String "/" rest) Some)
    with (rematch (Star (NoneOf nl)) rest Some).
  apply rematch_star_total. discriminate.
Qed.

Lemma clasificar_lastgroup (m : Match) (g : string) :
  clasificar m = g -> g <> PALABRA_RESERVADA -> g <> IDENTIFICADOR ->
  m_lastgroup m = g.
Proof.
  intros E N1 N2. destruct (clasificar_cases m) as [(_ & [H|H])|H]; congruence.
Qed.

Lemma clasificar_ident (m : Match) (s rest : string) :
  regex_tokens s = Some (m_lastgroup m, rest) ->
  clasificar m = IDENTIFICADOR \/ clasificar m = PALABRA_RESERVADA ->
  m_lastgroup m = IDENTIFICADOR.
Proof.
  intros RT H. destruct (clasificar_cases m) as [(E & _)|E]; [exact E|].
  rewrite E in H. destruct H as [H|H]; [exact H|].
  rewrite H in RT. apply regex_tokens_cases in RT.
  destruct RT as [(E1 & _)|[(E1 & _)|[(E1 & _)|[(E1 & _)|[(E1 & _)|[(E1 & _)|[(E1 & _)|(E1 & _)]]]]]]];
    discriminate E1.
Qed.

(** Where a token is in the text, and that its lexeme could not have
    been longer. *)
Lemma analizar_lexico_munched (codigo : string) (tk : Token) :
  In tk (analizar_lexico codigo) ->
  exists rest, located codigo tk rest /\ munched tk rest.
Proof.
  intros I.
  destruct (analizar_lexico_located _ _ I) as (rest & m & Lo & _ & T & L & RT).
  exists rest. split; [exact Lo|].
  assert (N : m_group m <> "").
  { destruct (regex_tokens_sound _ RT) as (pre & r & E & N & _).
    apply app_inv_tail_s in E. congruence. }
  unfold munched. rewrite T, L. split; [|split].
  - intros H. pose proof (clasificar_ident _ _ _ RT H) as G.
    rewrite G in RT. apply regex_tokens_cases in RT.
    destruct RT as [(E1 & _)|[(E1 & _)|[(E1 & _)|[(_ & R)|[(E1 & _)|[(E1 & _)|[(E1 & _)|(E1 & _)]]]]]]];
      try discriminate E1.
    now apply re_IDENTIFICADOR_rest in R.
  - intros H. apply clasificar_lastgroup in H; [|discriminate|discriminate].
    rewrite H in RT. apply regex_tokens_cases in RT.
    destruct RT as [(E1 & _)|[(_ & R)|[(E1 & _)|[(E1 & _)|[(E1 & _)|[(E1 & _)|[(E1 & _)|(E1 & _)]]]]]]];
      try discriminate E1.
    now apply re_NUMERO_rest in R.
  - intros H c rest' ->.
    apply clasificar_lastgroup in H; [|discriminate|discriminate].
    rewrite H in RT. apply regex_tokens_cases in RT.
    destruct RT as [(E1 & _)|[(E1 & _)|[(E1 & _)|[(E1 & _)|[(_ & C & R)|[(E1 & _)|[(E1 & _)|(E1 & _)]]]]]]];
      try discriminate E1.
    now apply re_SIMBOLO_rest with (rest := rest').
Qed.

(** X8. A lexeme is as long as it can be: in the text, an identifier or a
    reserved word is not followed by a letter, a digit or an underscore, a
    number is not followed by a digit, and an operator with the character
    after it is none of the operators of two characters and not the start
    of a comment. *)
Theorem X8_longest_match (codigo : string) :
  Forall (fun tk => exists rest, located codigo tk rest /\ munched tk rest)
         (analizar_lexico codigo).
Proof.
  apply Forall_forall. intros tk I. now apply analizar_lexico_munched.
Qed.

(** At the start of a text, an operator of two characters is one token,
    whatever follows it. *)
Lemma pares_first :
  Forall (fun op => forall rest, exists tl,
              analizar_lexico (op ++ rest) = mkToken SIMBOLO op 1 1 :: tl)
         PARES.
Proof.
  repeat constructor; intros rest;
    match goal with
    | |- exists tl, analizar_lexico (?op ++ rest) = _ =>
        destruct (@first_token op rest SIMBOLO) as (tl & E);
          [discriminate | reflexivity | reflexivity | exists tl; exact E]
    end.
Qed.

(** C8. The two-character forms [<=], [>=], [==], [!=], [++] and [--]
    are matched before the one-character forms.  The text [a<=b] gives the
    three tokens IDENTIFICADOR [a], SIMBOLO [<=] and IDENTIFICADOR [b]; a
    text that starts with a two-character form gives it as its first
    token, whatever follows; and in any text, an operator token and the
    character after it are never a two-character form, so no such form is
    split. *)
Theorem C8_operator_longest_match :
  (map (fun tk => (tipo tk, lexema tk)) (analizar_lexico "a<=b") =
     [(IDENTIFICADOR, "a"); (SIMBOLO, "<="); (IDENTIFICADOR, "b")]
   /\ analizar_lexico "a<=b" =
      [mkToken IDENTIFICADOR "a" 1 1; mkToken SIMBOLO "<=" 1 2;
       mkToken IDENTIFICADOR "b" 1 4])
  /\ Forall (fun op => forall rest, exists tl,
                 analizar_lexico (op ++ rest) = mkToken SIMBOLO op 1 1 :: tl)
            PARES
  /\ (forall codigo,
         Forall (fun tk =>
                   tipo tk = SIMBOLO ->
                   exists rest,
                     located codigo tk rest
                     /\ forall c rest', rest = String c rest' ->
                                        ~ In (lexema tk ++ String c "") PARES)
                (analizar_lexico codigo)).
Proof.
  split; [split; reflexivity|]. split; [exact pares_first|].
  intros codigo. apply Forall_forall. intros tk I T.
  destruct (analizar_lexico_munched _ _ I) as (rest & Lo & _ & _ & Mu).
  exists rest. split; [exact Lo|]. intros c rest' E P.
  apply (Mu T c rest' E). unfold DOBLES. simpl in P |- *. tauto.
Qed.

(** *** White space *)

Lemma space_char (c : ascii) :
  is_space c = true ->
  is_digit c = false /\ is_ident_start c = false.
Proof.
  destruct c as [[] [] [] [] [] [] [] []]; vm_compute; intros H;
    solve [auto | discriminate H].
Qed.

Lemma all_chars_drop (p : ascii -> bool) (n : nat) :
  forall s, all_chars p s = true -> all_chars p (drop n s) = true.
Proof.
  induction n as [|n IH]; intros [|c s] H; simpl; auto.
  simpl in H. apply andb_true_iff in H. now apply IH.
Qed.

(** No lexeme starts with a character of white space. *)
Lemma token_first_char (codigo : string) (tk : Token) :
  In tk (analizar_lexico codigo) ->
  exists c s, lexema tk = String c s /\ is_space c = false.
Proof.
  intros I. destruct (token_of_group _ _ I) as (_ & K & _).
  destruct (ident_tokens _ _ I) as [P1 P2].
  assert (Id : identifier_shaped (lexema tk) = true ->
               exists c s, lexema tk = String c s /\ is_space c = false).
  { destruct (lexema tk) as [|c s]; [discriminate|]. simpl. intros H.
    apply andb_true_iff in H. destruct H as [H _]. exists c, s.
    split; [reflexivity|]. destruct (is_space c) eqn:E; [|reflexivity].
    apply space_char in E. destruct E as [_ E]. congruence. }
  simpl in K.
  destruct K as [K|[K|[K|[K|[K|[K|[K|[]]]]]]]]; symmetry in K.
  - now apply Id, P1.
  - now apply Id, P2.
  - destruct (cadena_tokens _ _ I K) as (b & -> & _).
    exists dquote, (b ++ dq)%string. split; reflexivity.
  - destruct (lexeme_NUMERO _ _ I K) as (a & b & N & D & _ & E).
    destruct a as [|c a]; [now contradiction N|].
    simpl in D. apply andb_true_iff in D. destruct D as [D _].
    assert (Sp : is_space c = false).
    { destruct (is_space c) eqn:E'; [|reflexivity].
      apply space_char in E'. destruct E' as [E' _]. congruence. }
    destruct E as [->|(_ & ->)]; simpl; eauto.
  - pose proof (lexeme_SIMBOLO _ _ I K) as H. simpl in H.
    repeat (destruct H as [H|H];
            [rewrite <- H; eexists; eexists; split; reflexivity|]).
    destruct H.
  - pose proof (lexeme_DELIMITADOR _ _ I K) as H. simpl in H.
    repeat (destruct H as [H|H];
            [rewrite <- H; eexists; eexists; split; reflexivity|]).
    destruct H.
  - destruct (lexeme_DESCONOCIDO _ _ I K) as (c & -> & _ & Sp & _). eauto.
Qed.

(** X9. A text of white space only has no token. *)
Theorem X9_white_space_only (codigo : string) :
  all_chars is_space codigo = true -> analizar_lexico codigo = [].
Proof.
  intros A. destruct (analizar_lexico codigo) as [|tk l] eqn:E; [reflexivity|].
  exfalso.
  assert (I : In tk (analizar_lexico codigo)) by (rewrite E; now left).
  destruct (token_first_char _ _ I) as (c & s & L & Sp).
  destruct (analizar_lexico_located _ _ I) as (rest & m & (_ & _ & D) & _).
  apply (all_chars_drop _ (offset codigo tk)) in A.
  rewrite D, L in A. simpl in A. rewrite Sp in A. discriminate A.
Qed.

Lemma X9_white_space_only_witness :
  all_chars is_space (" " ++ nl ++ "  ") = true
  /\ analizar_lexico (" " ++ nl ++ "  ") = [].
Proof.
  split; [reflexivity | apply X9_white_space_only; reflexivity].
Defined.

(** *** What the tokens do not hold *)









(** * Properties of the view [index] *)

Lemma cuenta_cons (g : string) (tk : Token) (l : list Token) :
  cuenta g (tk :: l) = (if tipo tk =? g then 1 else 0) + cuenta g l.
Proof. unfold cuenta. simpl. destruct (tipo tk =? g); reflexivity. Qed.

(** The loop [for token in resultado] adds, to each counter, the number of
    tokens of its kind. *)
Lemma contar_cuenta (l : list Token) :
  forall r,
    PR (fold_left contar l r) = PR r + cuenta PALABRA_RESERVADA l
    /\ ID (fold_left contar l r) = ID r + cuenta IDENTIFICADOR l
    /\ PD (fold_left contar l r) = PD r + cuenta DELIMITADOR l
    /\ Simb (fold_left contar l r) = Simb r + cuenta SIMBOLO l
    /\ Num (fold_left contar l r) = Num r + cuenta NUMERO l
    /\ Total (fold_left contar l r) = Total r.
Proof.
  induction l as [|tk l IH]; intros r.
  - unfold cuenta. simpl. repeat split; lia.
  - cbn [fold_left]. rewrite !cuenta_cons.
    destruct (IH (contar r tk)) as (H1 & H2 & H3 & H4 & H5 & H6).
    rewrite H1, H2, H3, H4, H5, H6. clear. unfold contar.
    destruct (tipo tk =? PALABRA_RESERVADA) eqn:E1;
      [apply String.eqb_eq in E1; try rewrite E1; simpl; repeat split; lia|].
    destruct (tipo tk =? IDENTIFICADOR) eqn:E2;
      [apply String.eqb_eq in E2; try rewrite E2; simpl; repeat split; lia|].
    destruct (tipo tk =? DELIMITADOR) eqn:E3;
      [apply String.eqb_eq in E3; try rewrite E3; simpl; repeat split; lia|].
    destruct (tipo tk =? SIMBOLO) eqn:E4;
      [apply String.eqb_eq in E4; try rewrite E4; simpl; repeat split; lia|].
    destruct (tipo tk =? NUMERO) eqn:E5;
      [apply String.eqb_eq in E5; try rewrite E5; simpl; repeat split; lia|].
    simpl. repeat split; lia.
Qed.

(** Tokens of the seven kinds, counted by kind. *)
Lemma cuenta_tipos (l : list Token) :
  Forall (fun tk => In (tipo tk) TIPOS) l ->
  List.length l =
  cuenta PALABRA_RESERVADA l + cuenta IDENTIFICADOR l + cuenta DELIMITADOR l
  + cuenta SIMBOLO l + cuenta NUMERO l + cuenta CADENA l + cuenta DESCONOCIDO l.
Proof.
  induction 1 as [|tk l K _ IH]; [reflexivity|].
  rewrite !cuenta_cons. cbn [List.length]. rewrite IH. clear IH.
  simpl in K.
  destruct K as [K|[K|[K|[K|[K|[K|[K|[]]]]]]]]; rewrite <- K; simpl; lia.
Qed.

Lemma analizar_lexico_tipos (codigo : string) :
  Forall (fun tk => In (tipo tk) TIPOS) (analizar_lexico codigo).
Proof.
  apply Forall_forall. intros tk I. now destruct (token_of_group _ _ I) as (_ & K & _).
Qed.

Lemma analizar_lexico_empty : analizar_lexico "" = [].
Proof. reflexivity. Qed.

(** What [index] renders, whatever the request: the tokens of the text
    that it shows, and their counts. *)
Lemma index_render (n : nat) (request : Request) (c : Context) :
  index n request = Some (Render c) ->
  c_resultado c = analizar_lexico (c_codigo c)
  /\ c_resumen c =
     set_Total (fold_left contar (c_resultado c) resumen_0)
               (List.length (c_resultado c))
  /\ (c_mostrado_sintactico c = false /\ c_sintactico c = sintactico_0
      \/ c_mostrado_sintactico c = true
         /\ exists m, analizar_sintactico m (c_codigo c) (c_resultado c)
                      = Some (c_sintactico c)).
Proof.
  unfold index. destruct (method request =? "POST"); cycle 1.
  { intros H. inversion H. subst c. cbn. auto. }
  destruct (match form_get (form request) "accion" with
            | Some a => a =? "borrar" | None => false end); [discriminate|].
  set (codigo := match form_get (form request) "codigo" with
                 | Some v => v | None => "" end).
  destruct (truthy (Some codigo)) eqn:Tr; cycle 1.
  { intros H. inversion H. subst c. cbn.
    assert (E : codigo = "").
    { unfold truthy in Tr. apply negb_false_iff in Tr. now apply String.eqb_eq in Tr. }
    rewrite E. auto. }
  destruct (match form_get (form request) "accion" with
            | Some a => a =? "sintactico" | None => false end).
  - destruct (analizar_sintactico n codigo (analizar_lexico codigo)) as [s|] eqn:A;
      [|discriminate].
    intros H. inversion H. subst c. cbn. repeat split; auto. right. eauto.
  - intros H. inversion H. subst c. cbn. auto.
Qed.

(** X10. In the page that [index] renders the tokens are those of the text
    shown, [Total] is their number, each of [PR], [ID], [PD], [Simb] and
    [Num] is the number of tokens of its kind, and what [Total] has more
    than the five together are the strings and the unknown characters. *)
Theorem X10_resumen_counts (n : nat) (request : Request) (c : Context) :
  index n request = Some (Render c) ->
  c_resultado c = analizar_lexico (c_codigo c)
  /\ Total (c_resumen c) = List.length (c_resultado c)
  /\ PR (c_resumen c) = cuenta PALABRA_RESERVADA (c_resultado c)
  /\ ID (c_resumen c) = cuenta IDENTIFICADOR (c_resultado c)
  /\ PD (c_resumen c) = cuenta DELIMITADOR (c_resultado c)
  /\ Simb (c_resumen c) = cuenta SIMBOLO (c_resultado c)
  /\ Num (c_resumen c) = cuenta NUMERO (c_resultado c)
  /\ Total (c_resumen c) =
     PR (c_resumen c) + ID (c_resumen c) + PD (c_resumen c)
     + Simb (c_resumen c) + Num (c_resumen c)
     + cuenta CADENA (c_resultado c) + cuenta DESCONOCIDO (c_resultado c).
Proof.
  intros H. apply index_render in H. destruct H as (R & S & _).
  split; [exact R|]. rewrite S. cbn [set_Total PR ID PD Simb Num Total].
  destruct (contar_cuenta (c_resultado c) resumen_0) as (H1 & H2 & H3 & H4 & H5 & _).
  rewrite H1, H2, H3, H4, H5. cbn [resumen_0 PR ID PD Simb Num Nat.add].
  repeat (split; [reflexivity|]).
  rewrite R. apply cuenta_tipos, analizar_lexico_tipos.
Qed.

Lemma X10_resumen_counts_witness :
  exists c,
    index 60 request_valid = Some (Render c)
    /\ c_resultado c = analizar_lexico (c_codigo c)
    /\ Total (c_resumen c) = List.length (c_resultado c)
    /\ PR (c_resumen c) = cuenta PALABRA_RESERVADA (c_resultado c)
    /\ ID (c_resumen c) = cuenta IDENTIFICADOR (c_resultado c)
    /\ PD (c_resumen c) = cuenta DELIMITADOR (c_resultado c)
    /\ Simb (c_resumen c) = cuenta SIMBOLO (c_resultado c)
    /\ Num (c_resumen c) = cuenta NUMERO (c_resultado c)
    /\ Total (c_resumen c) =
       PR (c_resumen c) + ID (c_resumen c) + PD (c_resumen c)
       + Simb (c_resumen c) + Num (c_resumen c)
       + cuenta CADENA (c_resultado c) + cuenta DESCONOCIDO (c_resultado c).
Proof.
  eexists. split; [vm_compute; reflexivity|].
  apply (X10_resumen_counts 60 request_valid). vm_compute. reflexivity.
Defined.

Lemma correcto_errores (n : nat) (codigo : string) (tokens : list Token)
      (r : ParseResult) :
  analizar_sintactico n codigo tokens = Some r ->
  (correcto r = true <-> errores r = []) /\ (correcto r = true <-> programa_g tokens).
Proof.
  intros A.
  assert (C : correcto r = true <-> errores r = []).
  { unfold analizar_sintactico in A.
    destruct ((parse_programa n ;; sobrantes tokens) (Parser_init tokens))
      as [[u p]|]; [|discriminate].
    inversion A. subst r. cbn. rewrite Nat.eqb_eq. split.
    - now apply length_zero_iff_nil.
    - intros ->. reflexivity. }
  split; [exact C|]. split.
  - intros H. apply (analizar_sintactico_sound codigo tokens n).
    destruct r as [b es]. cbn in *. rewrite H in *.
    destruct C as [C _]. rewrite (C eq_refl) in A. exact A.
  - intros G.
    pose proof (analizar_sintactico_complete codigo tokens []
                  (Nat.max n (3 * List.length tokens + 3)) G) as K.
    rewrite app_nil_r in K. specialize (K (Nat.le_max_r _ _)).
    apply (@analizar_sintactico_mono n (Nat.max n (3 * List.length tokens + 3)))
      in A; [|apply Nat.le_max_l].
    rewrite A in K. inversion K. reflexivity.
Qed.

(** X12. The page says that the text is correct only when the syntactic
    analysis has been asked for, and then exactly when the tokens of the text
    are a program of the grammar; it lists no diagnostic exactly when it
    says so or the analysis has not been asked for. *)
Theorem X12_index_correcto (n : nat) (request : Request) (c : Context) :
  index n request = Some (Render c) ->
  (correcto (c_sintactico c) = true <->
   c_mostrado_sintactico c = true /\ programa_g (analizar_lexico (c_codigo c)))
  /\ (errores (c_sintactico c) = [] <->
      c_mostrado_sintactico c = false \/ correcto (c_sintactico c) = true).
Proof.
  intros H. apply index_render in H.
  destruct H as (R & _ & [(M & S)|(M & m & A)]); rewrite <- R.
  - rewrite M, S. cbn. split; split; auto.
    + discriminate.
    + intros [? _]. discriminate.
  - rewrite M. destruct (correcto_errores _ _ _ _ A) as [C G]. split.
    + rewrite G. tauto.
    + rewrite C. split; auto. intros [?|?]; [discriminate | assumption].
Qed.

Lemma X12_index_correcto_witness :
  exists c,
    index 60 request_valid = Some (Render c)
    /\ (correcto (c_sintactico c) = true <->
        c_mostrado_sintactico c = true /\ programa_g (analizar_lexico (c_codigo c)))
    /\ (errores (c_sintactico c) = [] <->
        c_mostrado_sintactico c = false \/ correcto (c_sintactico c) = true).
Proof.
  eexists. split; [vm_compute; reflexivity|].
  apply (X12_index_correcto 60 request_valid). vm_compute. reflexivity.
Defined.

(** * The tokens of a lexeme *)

Lemma analizar_lexico_single (s g : string) :
  s <> "" -> regex_tokens s = Some (g, "") ->
  ignorado (mkMatch 0 g s) = false ->
  analizar_lexico s = [mkToken (clasificar (mkMatch 0 g s)) s 1 1].
Proof.
  intros N R G. rewrite <- (app_empty_r s) in R.
  pose proof (finditer_head N R) as F. rewrite app_empty_r in F.
  rewrite finditer_from_empty in F.
  unfold analizar_lexico. rewrite F.
  destruct s as [|c s]; [now contradiction N|].
  unfold lex_loop. cbn [fold_left]. now rewrite lex_first_step.
Qed.

Lemma skip_chars_all (p : ascii -> bool) (a r : string) :
  all_chars p a = true -> skip_chars p (a ++ r) = skip_chars p r.
Proof.
  induction a as [|c a IH]; simpl; intros H; [reflexivity|].
  apply andb_true_iff in H. destruct H as [H1 H2]. rewrite H1. now apply IH.
Qed.

Lemma digit_char (c : ascii) :
  is_digit c = true -> Ascii.eqb "/" c = false.
Proof.
  destruct c as [[] [] [] [] [] [] [] []]; vm_compute; intros H;
    solve [reflexivity | discriminate H].
Qed.

Lemma regex_tokens_numero (s : string) :
  numero_shaped s -> regex_tokens s = Some (NUMERO, "").
Proof.
  intros (a & b & N & Da & Db & E).
  destruct a as [|c a]; [now contradiction N|].
  simpl in Da. apply andb_true_iff in Da. destruct Da as [Dc Da].
  assert (St : exists tl, s = String c (a ++ tl)
                          /\ rematch (Opt (Cat (Lit ".") (Plus (Cls is_digit))))
                               (skip_chars is_digit tl) Some = Some "").
  { destruct E as [->|(Nb & ->)].
    - exists "". rewrite app_empty_r. split; reflexivity.
    - exists ("." ++ b)%string. split; [reflexivity|].
      destruct b as [|d b]; [now contradiction Nb|].
      simpl in Db. apply andb_true_iff in Db. destruct Db as [Dd Db].
      change (skip_chars is_digit ("." ++ String d b)) with ("." ++ String d b)%string.
      change (rematch (Opt (Cat (Lit ".") (Plus (Cls is_digit))))
                ("." ++ String d b) Some)
        with (match (if is_digit d then rematch (Star (Cls is_digit)) b Some else None)
              with Some r => Some r | None => Some ("." ++ String d b)%string end).
      rewrite Dd, rematch_star_cls_skip by discriminate.
      rewrite <- (app_empty_r b), skip_chars_all by exact Db. reflexivity. }
  destruct St as (tl & -> & K).
  rewrite regex_tokens_eq.
  change (rematch re_LINE_COMMENT (String c (a ++ tl)) Some)
    with (if Ascii.eqb "/" c
          then rematch (Cat (Lit "/") (Star (NoneOf nl))) (a ++ tl) Some else None).
  rewrite (digit_char c Dc).
  change (rematch re_NUMERO (String c (a ++ tl)) Some)
    with (if is_digit c
          then rematch (Star (Cls is_digit)) (a ++ tl)
                 (fun s' => rematch (Opt (Cat (Lit ".") (Plus (Cls is_digit)))) s' Some)
          else None).
  rewrite Dc, rematch_star_cls_skip by (intros s'; apply opt_total).
  rewrite skip_chars_all by exact Da. now rewrite K.
Qed.

Lemma regex_tokens_desconocido (c : ascii) :
  is_dot c = true -> is_space c = false -> is_digit c = false ->
  is_ident_start c = false -> in_string c "=+-*/%<>;(),{}.[]" = false ->
  regex_tokens (String c "") = Some (DESCONOCIDO, "").
Proof.
  destruct c as [[] [] [] [] [] [] [] []]; vm_compute;
    intros H1 H2 H3 H4 H5;
    solve [reflexivity | discriminate H1 | discriminate H2 | discriminate H3
           | discriminate H4 | discriminate H5].
Qed.

Lemma lexeme_ok_single (tk : Token) :
  In (tipo tk) TIPOS -> lexeme_ok tk ->
  analizar_lexico (lexema tk) = [mkToken (tipo tk) (lexema tk) 1 1].
Proof.
  intros K (N & P1 & P2 & P3 & P4 & P5 & P6 & P7). simpl in K.
  destruct K as [K|[K|[K|[K|[K|[K|[K|[]]]]]]]]; symmetry in K.
  - destruct (P1 K) as [I R]. rewrite (analizar_lexico_ident _ I), R, K. reflexivity.
  - destruct (P2 K) as [I R]. rewrite (analizar_lexico_ident _ I), R, K. reflexivity.
  - destruct (P3 K) as (b & E & B).
    pose proof (regex_tokens_cadena_closed b "" B) as R.
    rewrite app_empty_r, <- E in R.
    rewrite (analizar_lexico_single _ _ N R eq_refl), K. reflexivity.
  - pose proof (regex_tokens_numero _ (P4 K)) as R.
    rewrite (analizar_lexico_single _ _ N R eq_refl), K. reflexivity.
  - pose proof (P5 K) as H. rewrite K. simpl in H.
    repeat (destruct H as [H|H]; [rewrite <- H; reflexivity|]). destruct H.
  - pose proof (P6 K) as H. rewrite K. simpl in H.
    repeat (destruct H as [H|H]; [rewrite <- H; reflexivity|]). destruct H.
  - destruct (P7 K) as (c & E & D1 & D2 & D3 & D4 & D5).
    pose proof (regex_tokens_desconocido c D1 D2 D3 D4 D5) as R.
    rewrite <- E in R.
    rewrite (analizar_lexico_single _ _ N R eq_refl), K. reflexivity.
Qed.

(** X13. The lexeme of a token, taken alone, is one token of the same kind:
    [analizar_lexico] gives for it this token, at line 1 and column 1, and
    nothing else. *)
Theorem X13_lexeme_alone (codigo : string) (tk : Token) :
  In tk (analizar_lexico codigo) ->
  analizar_lexico (lexema tk) = [mkToken (tipo tk) (lexema tk) 1 1].
Proof.
  intros I. destruct (analizar_lexico_lexeme_ok _ _ I) as [K O].
  now apply lexeme_ok_single.
Qed.

Lemma X13_lexeme_alone_witness :
  In (mkToken PALABRA_RESERVADA "programa" 1 1) (analizar_lexico valid_src)
  /\ analizar_lexico "programa" = [mkToken PALABRA_RESERVADA "programa" 1 1].
Proof.
  split; [vm_compute; left; reflexivity|].
  apply (X13_lexeme_alone valid_src (mkToken PALABRA_RESERVADA "programa" 1 1)).
  vm_compute. left. reflexivity.
Defined.

(** * The tokens of two texts, one on the line after the other *)

Lemma skip_chars_app (p : ascii -> bool) (y t : string) :
  skip_chars p y <> "" \/ starts_with p t = false ->
  skip_chars p (y ++ t) = (skip_chars p y ++ t)%string.
Proof.
  induction y as [|c y IH]; intros H.
  - destruct H as [H|H]; [now contradiction H|].
    destruct t as [|d t]; [reflexivity|]. simpl in *. now rewrite H.
  - simpl in *. destruct (p c); [now apply IH | reflexivity].
Qed.

(** A repetition of a class takes all the characters of the class that it
    finds, when what follows it fails on a character of the class. *)
Lemma rematch_star_cls_skip_fail (p : ascii -> bool) (k : string -> option string) :
  (forall c s', p c = true -> k (String c s') = None) ->
  forall s, rematch (Star (Cls p)) s k = k (skip_chars p s).
Proof.
  intros Hk. induction s as [|c s IH]; [reflexivity|].
  rewrite rematch_star_cls_cons. cbn [skip_chars].
  destruct (p c) eqn:E; [|reflexivity]. rewrite IH.
  destruct (k (skip_chars p s)) eqn:E'; [reflexivity|]. now apply Hk.
Qed.

Section Line.

Variable b : string.

Local Abbreviation t := (String newline b).

Lemma stable_LINE_COMMENT (c : ascii) (s : string) :
  rematch re_LINE_COMMENT (String c (s ++ t)) Some =
  option_map (fun r => (r ++ t)%string) (rematch re_LINE_COMMENT (String c s) Some).
Proof.
  destruct s as [|d s].
  - change (rematch re_LINE_COMMENT (String c ("" ++ t)) Some)
      with (if Ascii.eqb "/" c then @None string else None).
    change (rematch re_LINE_COMMENT (String c "") Some)
      with (if Ascii.eqb "/" c then @None string else None).
    now destruct (Ascii.eqb "/" c).
  - change (rematch re_LINE_COMMENT (String c (String d s ++ t)) Some)
      with (if Ascii.eqb "/" c
            then if Ascii.eqb "/" d
                 then rematch (Star (Cls (fun x => negb (in_string x nl)))) (s ++ t) Some
                 else None
            else None).
    change (rematch re_LINE_COMMENT (String c (String d s)) Some)
      with (if Ascii.eqb "/" c
            then if Ascii.eqb "/" d
                 then rematch (Star (Cls (fun x => negb (in_string x nl)))) s Some
                 else None
            else None).
    destruct (Ascii.eqb "/" c); [|reflexivity].
    destruct (Ascii.eqb "/" d); [|reflexivity].
    rewrite !rematch_star_cls_skip by discriminate.
    rewrite skip_chars_app by (right; reflexivity). reflexivity.
Qed.

Lemma frac_eq (s : string) :
  rematch (Opt (Cat (Lit ".") (Plus (Cls is_digit)))) s Some =
  match s with
  | String d (String e s') =>
      if Ascii.eqb "." d && is_digit e then Some (skip_chars is_digit s') else Some s
  | _ => Some s
  end.
Proof.
  destruct s as [|d [|e s']].
  - reflexivity.
  - change (rematch (Opt (Cat (Lit ".") (Plus (Cls is_digit)))) (String d "") Some)
      with (match (if Ascii.eqb "." d then @None string else None) with
            | Some r => Some r | None => Some (String d "") end).
    now destruct (Ascii.eqb "." d).
  - change (rematch (Opt (Cat (Lit ".") (Plus (Cls is_digit)))) (String d (String e s')) Some)
      with (match (if Ascii.eqb "." d
                   then if is_digit e then rematch (Star (Cls is_digit)) s' Some else None
                   else None) with
            | Some r => Some r | None => Some (String d (String e s')) end).
    destruct (Ascii.eqb "." d); [|reflexivity].
    destruct (is_digit e); [|reflexivity].
    now rewrite rematch_star_cls_skip by discriminate.
Qed.

Lemma re_NUMERO_eq (c : ascii) (s : string) :
  rematch re_NUMERO (String c s) Some =
  if is_digit c
  then rematch (Opt (Cat (Lit ".") (Plus (Cls is_digit)))) (skip_chars is_digit s) Some
  else None.
Proof.
  change (rematch re_NUMERO (String c s) Some)
    with (if is_digit c
          then rematch (Star (Cls is_digit)) s
                 (fun s' => rematch (Opt (Cat (Lit ".") (Plus (Cls is_digit)))) s' Some)
          else None).
  destruct (is_digit c); [|reflexivity].
  now rewrite rematch_star_cls_skip by (intros s'; apply opt_total).
Qed.

Lemma stable_frac (s : string) :
  rematch (Opt (Cat (Lit ".") (Plus (Cls is_digit)))) (s ++ t) Some =
  option_map (fun r => (r ++ t)%string)
             (rematch (Opt (Cat (Lit ".") (Plus (Cls is_digit)))) s Some).
Proof.
  rewrite !frac_eq. destruct s as [|d [|e s']].
  - simpl. now destruct b.
  - simpl append. cbn [option_map].
    replace (is_digit newline) with false by reflexivity.
    now rewrite andb_false_r.
  - change ((String d (String e s') ++ t)%string)
      with (String d (String e (s' ++ t))).
    cbv iota. destruct (Ascii.eqb "." d && is_digit e); [|reflexivity].
    cbn [option_map]. now rewrite skip_chars_app by (right; reflexivity).
Qed.

Lemma stable_NUMERO (c : ascii) (s : string) :
  rematch re_NUMERO (String c (s ++ t)) Some =
  option_map (fun r => (r ++ t)%string) (rematch re_NUMERO (String c s) Some).
Proof.
  rewrite !re_NUMERO_eq. destruct (is_digit c); [|reflexivity].
  rewrite skip_chars_app by (right; reflexivity).
  apply stable_frac.
Qed.

Lemma re_CADENA_eq (c : ascii) (s : string) :
  rematch re_CADENA (String c s) Some =
  if Ascii.eqb dquote c
  then match skip_chars cadena_char s with
       | String q r => if Ascii.eqb dquote q then Some r else None
       | EmptyString => None
       end
  else None.
Proof.
  destruct (Ascii.eqb dquote c) eqn:E.
  - apply Ascii.eqb_eq in E. subst c. rewrite re_CADENA_head.
    rewrite rematch_star_cls_skip_fail.
    + now destruct (skip_chars cadena_char s).
    + intros c s' C.
      change (rematch (Lit dquote) (String c s') Some)
        with (if Ascii.eqb dquote c then Some s' else None).
      now rewrite (cadena_char_not_quote _ C).
  - change (rematch re_CADENA (String c s) Some)
      with (if Ascii.eqb dquote c
            then rematch (Cat (Star (NoneOf (dq ++ nl))) (Lit dquote)) s Some
            else None).
    now rewrite E.
Qed.

Lemma stable_CADENA (c : ascii) (s : string) :
  rematch re_CADENA (String c (s ++ t)) Some =
  option_map (fun r => (r ++ t)%string) (rematch re_CADENA (String c s) Some).
Proof.
  rewrite !re_CADENA_eq. destruct (Ascii.eqb dquote c); [|reflexivity].
  rewrite skip_chars_app by (right; reflexivity).
  destruct (skip_chars cadena_char s) as [|q r]; [reflexivity|].
  change ((String q r ++ t)%string) with (String q (r ++ t)). cbv iota.
  now destruct (Ascii.eqb dquote q).
Qed.

Lemma re_IDENTIFICADOR_eq (c : ascii) (s : string) :
  rematch re_IDENTIFICADOR (String c s) Some =
  if is_ident_start c then Some (skip_chars is_word s) else None.
Proof.
  change (rematch re_IDENTIFICADOR (String c s) Some)
    with (if is_ident_start c then rematch (Star (Cls is_word)) s Some else None).
  destruct (is_ident_start c); [|reflexivity].
  now rewrite rematch_star_cls_skip by discriminate.
Qed.

Lemma stable_IDENTIFICADOR (c : ascii) (s : string) :
  rematch re_IDENTIFICADOR (String c (s ++ t)) Some =
  option_map (fun r => (r ++ t)%string) (rematch re_IDENTIFICADOR (String c s) Some).
Proof.
  rewrite !re_IDENTIFICADOR_eq. destruct (is_ident_start c); [|reflexivity].
  now rewrite skip_chars_app by (right; reflexivity).
Qed.

Lemma stable_SIMBOLO (c : ascii) (s : string) :
  rematch re_SIMBOLO (String c (s ++ t)) Some =
  option_map (fun r => (r ++ t)%string) (rematch re_SIMBOLO (String c s) Some).
Proof.
  destruct s as [|d s]; simpl append.
  - destruct c as [[] [] [] [] [] [] [] []]; reflexivity.
  - unfold re_SIMBOLO. cbn -[Ascii.eqb].
    repeat match goal with
           | |- context [Ascii.eqb ?x ?y] =>
               destruct (Ascii.eqb x y); cbn -[Ascii.eqb]
           end;
      reflexivity.
Qed.

Lemma stable_DELIMITADOR (c : ascii) (s : string) :
  rematch re_DELIMITADOR (String c (s ++ t)) Some =
  option_map (fun r => (r ++ t)%string) (rematch re_DELIMITADOR (String c s) Some).
Proof.
  change (rematch re_DELIMITADOR (String c (s ++ t)) Some)
    with (if in_string c ";(),{}.[]" then Some (s ++ t)%string else None).
  change (rematch re_DELIMITADOR (String c s) Some)
    with (if in_string c ";(),{}.[]" then Some s else None).
  now destruct (in_string c ";(),{}.[]").
Qed.

Lemma re_ESPACIO_eq (c : ascii) (s : string) :
  rematch re_ESPACIO (String c s) Some =
  if is_space c then Some (skip_chars is_space s) else None.
Proof.
  change (rematch re_ESPACIO (String c s) Some)
    with (if is_space c then rematch (Star (Cls is_space)) s Some else None).
  destruct (is_space c); [|reflexivity].
  now rewrite rematch_star_cls_skip by discriminate.
Qed.

Lemma stable_DESCONOCIDO (c : ascii) (s : string) :
  rematch re_DESCONOCIDO (String c (s ++ t)) Some =
  option_map (fun r => (r ++ t)%string) (rematch re_DESCONOCIDO (String c s) Some).
Proof.
  change (rematch re_DESCONOCIDO (String c (s ++ t)) Some)
    with (if is_dot c then Some (s ++ t)%string else None).
  change (rematch re_DESCONOCIDO (String c s) Some)
    with (if is_dot c then Some s else None).
  now destruct (is_dot c).
Qed.

End Line.

Lemma regex_tokens_line (c : ascii) (s b g rest : string) :
  regex_tokens (String c s) = Some (g, rest) ->
  (g = ESPACIO -> rest <> "") ->
  regex_tokens (String c (s ++ String newline b))
  = Some (g, (rest ++ String newline b)%string).
Proof.
  intros H N. rewrite regex_tokens_eq in H. rewrite regex_tokens_eq.
  rewrite stable_LINE_COMMENT, stable_NUMERO, stable_CADENA,
    stable_IDENTIFICADOR, stable_SIMBOLO, stable_DELIMITADOR, stable_DESCONOCIDO.
  destruct (rematch re_LINE_COMMENT (String c s) Some);
    [inversion H; reflexivity|]. cbn [option_map].
  destruct (rematch re_NUMERO (String c s) Some);
    [inversion H; reflexivity|]. cbn [option_map].
  destruct (rematch re_CADENA (String c s) Some);
    [inversion H; reflexivity|]. cbn [option_map].
  destruct (rematch re_IDENTIFICADOR (String c s) Some);
    [inversion H; reflexivity|]. cbn [option_map].
  destruct (rematch re_SIMBOLO (String c s) Some);
    [inversion H; reflexivity|]. cbn [option_map].
  destruct (rematch re_DELIMITADOR (String c s) Some);
    [inversion H; reflexivity|]. cbn [option_map].
  rewrite re_ESPACIO_eq in *. destruct (is_space c).
  - inversion H; subst. rewrite skip_chars_app; [reflexivity|].
    left. now apply N.
  - destruct (rematch re_DESCONOCIDO (String c s) Some);
      [inversion H; reflexivity | discriminate H].
Qed.

Lemma space_fails (c : ascii) (s : string) :
  is_space c = true ->
  rematch re_LINE_COMMENT (String c s) Some = None
  /\ rematch re_NUMERO (String c s) Some = None
  /\ rematch re_CADENA (String c s) Some = None
  /\ rematch re_IDENTIFICADOR (String c s) Some = None
  /\ rematch re_SIMBOLO (String c s) Some = None
  /\ rematch re_DELIMITADOR (String c s) Some = None.
Proof.
  rewrite re_NUMERO_eq, re_CADENA_eq, re_IDENTIFICADOR_eq.
  change (rematch re_LINE_COMMENT (String c s) Some)
    with (if Ascii.eqb "/" c
          then rematch (Cat (Lit "/") (Star (NoneOf nl))) s Some else None).
  intros H.
  destruct c as [[] [] [] [] [] [] [] []];
    try (vm_compute in H; discriminate H); repeat split; reflexivity.
Qed.

(** At a character of white space the match is the run of white space. *)
Lemma regex_tokens_space (c : ascii) (s : string) :
  is_space c = true ->
  regex_tokens (String c s) = Some (ESPACIO, skip_chars is_space s).
Proof.
  intros H. destruct (space_fails c s H) as (F1 & F2 & F3 & F4 & F5 & F6).
  rewrite regex_tokens_eq, F1, F2, F3, F4, F5, F6, re_ESPACIO_eq, H. reflexivity.
Qed.

Lemma skip_chars_split (p : ascii -> bool) (s : string) :
  exists pre, s = (pre ++ skip_chars p s)%string /\ all_chars p pre = true.
Proof.
  induction s as [|c s (pre & E & A)]; [now exists ""|].
  simpl. destruct (p c) eqn:P.
  - exists (String c pre). simpl. rewrite P, A, <- E. auto.
  - now exists "".
Qed.

Lemma skip_chars_empty (p : ascii -> bool) (s : string) :
  skip_chars p s = "" -> all_chars p s = true.
Proof.
  induction s as [|c s IH]; [reflexivity|]. simpl.
  destruct (p c); [exact IH | discriminate].
Qed.

(** *** The matches of a text, whatever their positions *)

Lemma emitted_cons (m : Match) (ms : list Match) :
  emitted (m :: ms) =
  ((if ignorado m then [] else [(clasificar m, m_group m)]) ++ emitted ms)%list.
Proof. unfold emitted. simpl. now destruct (ignorado m). Qed.

Lemma lex_loop_kinds (lineas : list string) (ms : list Match) :
  forall st,
    kinds (ls_tokens (lex_loop lineas ms st))
    = (kinds (ls_tokens st) ++ emitted ms)%list.
Proof.
  induction ms as [|m ms IH]; intros st.
  - simpl. now rewrite app_nil_r.
  - change (lex_loop lineas (m :: ms) st)
      with (lex_loop lineas ms (lex_step lineas st m)).
    rewrite IH, emitted_cons.
    destruct (lex_step_cases lineas st m) as (l & cb & _ & _ & _ & _ & _ & T).
    rewrite T. unfold kinds. rewrite map_app, <- app_assoc.
    now destruct (ignorado m).
Qed.

Lemma analizar_lexico_kinds (codigo : string) :
  kinds (analizar_lexico codigo) = emitted (finditer codigo).
Proof. unfold analizar_lexico. now rewrite lex_loop_kinds. Qed.

Lemma chain_nil_inv (ms : list Match) : chain "" ms -> ms = [].
Proof.
  destruct ms as [|m ms]; [reflexivity|]. intros (rest & E & N & _).
  symmetry in E. apply app_empty_inv in E. destruct E as [E _]. now contradiction N.
Qed.

(** The text alone fixes the kinds and the lexemes of its matches. *)
Lemma chain_unique (ms : list Match) :
  forall s ms', chain s ms -> chain s ms' -> emitted ms = emitted ms'.
Proof.
  induction ms as [|m ms IH]; intros s ms' C C'.
  - simpl in C. subst s. now rewrite (chain_nil_inv _ C').
  - destruct ms' as [|m' ms'].
    + simpl in C'. subst s. now apply chain_nil_inv in C.
    + destruct C as (rest & E & _ & RT & C).
      destruct C' as (rest' & E' & _ & RT' & C').
      rewrite RT in RT'. inversion RT' as [[G R]]. subst rest'.
      rewrite E in E'. apply app_inv_tail_s in E'.
      rewrite !emitted_cons, (IH _ _ C C').
      unfold ignorado, clasificar. now rewrite G, E'.
Qed.

Lemma chain_skip (b : string) (ms_b : list Match) :
  chain b ms_b ->
  exists ms, chain (skip_chars is_space b) ms /\ emitted ms = emitted ms_b.
Proof.
  intros C. destruct b as [|c b]; [now exists ms_b|].
  cbn [skip_chars]. destruct (is_space c) eqn:Sp; [|now exists ms_b].
  destruct ms_b as [|m ms]; [discriminate C|].
  destruct C as (rest & _ & _ & RT & C).
  rewrite (regex_tokens_space _ _ Sp) in RT. inversion RT as [[G R]].
  exists ms. split; [now rewrite R|].
  rewrite emitted_cons. unfold ignorado. now rewrite <- G.
Qed.

Lemma chain_newline (b : string) (ms_b : list Match) (pre : string) :
  chain b ms_b -> all_chars is_space pre = true ->
  exists ms, chain (pre ++ String newline b) ms /\ emitted ms = emitted ms_b.
Proof.
  intros C A. destruct (chain_skip _ _ C) as (ms & C' & E).
  assert (X : exists c s, (pre ++ String newline b)%string = String c s
                          /\ is_space c = true
                          /\ skip_chars is_space s = skip_chars is_space b).
  { destruct pre as [|c pre].
    - exists newline, b. auto.
    - simpl in A. apply andb_true_iff in A. destruct A as [A1 A2].
      exists c, (pre ++ String newline b)%string. repeat split; auto.
      now rewrite skip_chars_all. }
  destruct X as (c & s & -> & Sp & Sk).
  destruct (skip_chars_split is_space (String c s)) as (g & Eg & _).
  cbn [skip_chars] in Eg. rewrite Sp, Sk in Eg.
  exists (mkMatch 0 ESPACIO g :: ms). split.
  - exists (skip_chars is_space b). cbn [m_group m_lastgroup].
    split; [exact Eg|]. split.
    + intros ->. simpl in Eg.
      pose proof (starts_with_skip is_space b) as W. rewrite <- Eg in W.
      simpl in W. congruence.
    + split; [|exact C']. rewrite (regex_tokens_space _ _ Sp), Sk. reflexivity.
  - rewrite emitted_cons. exact E.
Qed.

Lemma chain_line (ms_x : list Match) :
  forall x, chain x ms_x ->
  forall b ms_b, chain b ms_b ->
  exists ms, chain (x ++ String newline b) ms
             /\ emitted ms = (emitted ms_x ++ emitted ms_b)%list.
Proof.
  induction ms_x as [|m ms_x IH]; intros x C b ms_b Cb.
  - simpl in C. subst x. now apply (chain_newline b ms_b "").
  - destruct C as (rest & E & N & RT & C).
    destruct x as [|c s]; [symmetry in E; apply app_empty_inv in E; tauto|].
    destruct (String.eqb (m_lastgroup m) ESPACIO) eqn:G.
    + apply String.eqb_eq in G. rewrite G in RT.
      destruct (is_space c) eqn:Sp; cycle 1.
      { apply regex_tokens_cases in RT.
        destruct RT as [(E1 & _)|[(E1 & _)|[(E1 & _)|[(E1 & _)|[(E1 & _)|[(E1 & _)|[(_ & R)|(E1 & _)]]]]]]];
          try discriminate E1.
        rewrite re_ESPACIO_eq, Sp in R. discriminate R. }
      rewrite (regex_tokens_space _ _ Sp) in RT. inversion RT as [R].
      destruct rest as [|d rest'].
      * apply chain_nil_inv in C. subst ms_x.
        destruct (chain_newline b ms_b (String c s) Cb) as (ms & C1 & E1).
        { simpl. rewrite Sp. now apply skip_chars_empty. }
        exists ms. split; [exact C1|]. rewrite emitted_cons. unfold ignorado.
        rewrite G. exact E1.
      * destruct (IH _ C b ms_b Cb) as (ms & C1 & E1).
        exists (m :: ms). split.
        -- exists (String d rest' ++ String newline b)%string.
           split; [rewrite E at 1; now rewrite app_assoc_s|].
           split; [exact N|]. split; [|exact C1].
           rewrite G. apply regex_tokens_line; [|discriminate].
           now rewrite (regex_tokens_space _ _ Sp), R.
        -- now rewrite !emitted_cons, E1, app_assoc.
    + apply String.eqb_neq in G.
      destruct (IH _ C b ms_b Cb) as (ms & C1 & E1).
      exists (m :: ms). split.
      * exists (rest ++ String newline b)%string.
        split; [rewrite E at 1; now rewrite app_assoc_s|].
        split; [exact N|]. split; [|exact C1].
        apply regex_tokens_line; [exact RT | intros H; now contradiction G].
      * now rewrite !emitted_cons, E1, app_assoc.
Qed.

(** X14. The tokens of a text are those of its lines: for two texts put
    one on the line after the other, the tokenizer gives the tokens of the
    first, then those of the second, kinds and lexemes; no token, comment or
    string goes over a line feed. *)
Theorem X14_line_by_line (a b : string) :
  kinds (analizar_lexico (a ++ nl ++ b))
  = (kinds (analizar_lexico a) ++ kinds (analizar_lexico b))%list.
Proof.
  rewrite !analizar_lexico_kinds.
  destruct (chain_line _ _ (finditer_chain a) b _ (finditer_chain b))
    as (ms & C & E).
  rewrite <- E. apply chain_unique with (s := (a ++ nl ++ b)%string).
  - apply finditer_chain.
  - exact C.
Qed.

(** * The parser on the stack of the interpreter *)

(** ** What returns on the stack returns without it *)

Lemma agrees_ret {A : Type} (a : A) : agrees (Stack.ret a) (ret a).
Proof. intros p x H. inversion H. reflexivity. Qed.

Lemma agrees_lift {A : Type} (c : M A) : agrees (Stack.lift c) c.
Proof.
  intros p x H. unfold Stack.lift in H.
  destruct (c p); [now inversion H | discriminate].
Qed.

Lemma agrees_bind {A B : Type} (cs : Stack.R A) (c : M A)
      (fs : A -> Stack.R B) (f : A -> M B) :
  agrees cs c -> (forall a, agrees (fs a) (f a)) ->
  agrees (Stack.bind cs fs) (bind c f).
Proof.
  intros Hc Hf p x H. unfold Stack.bind in H. unfold bind.
  destruct (cs p) as [[a q]| |] eqn:E; try discriminate.
  rewrite (Hc _ _ E). now apply Hf.
Qed.

Lemma agrees_call {A : Type} (d : nat) (body : nat -> Stack.R A) (c : M A) :
  (forall d', d = S d' -> agrees (body d') c) -> agrees (Stack.call d body) c.
Proof.
  intros H. destruct d as [|d']; [intros p x E; discriminate E|].
  now apply H.
Qed.

Lemma agrees_mono {A : Type} (cs : Stack.R A) (c c' : M A) :
  agrees cs c -> refines c c' -> agrees cs c'.
Proof. intros H R p x E. apply R. now apply H. Qed.

Lemma agrees_peek (d : nat) (k : Z) : agrees (Stack.peek d k) (peek k).
Proof. apply agrees_call. intros d' _. apply agrees_lift. Qed.

Lemma agrees_avanzar : agrees Stack.avanzar avanzar.
Proof. apply agrees_lift. Qed.

Lemma agrees_error (msg : string) : agrees (Stack.error msg) (error msg).
Proof. apply agrees_lift. Qed.

Lemma agrees_match (d : nat) (tipo_ lexema_ msg : option string) :
  agrees (Stack.match_ d tipo_ lexema_ msg) (match_ tipo_ lexema_ msg).
Proof.
  apply agrees_call. intros d' _. unfold match_.
  apply agrees_bind; [apply agrees_peek|]. intros tok.
  destruct (acepta tipo_ lexema_ tok).
  - apply agrees_bind; [apply agrees_avanzar|]. intros _. apply agrees_ret.
  - apply agrees_bind; [apply agrees_error|]. intros _.
    apply agrees_bind; [|intros _; apply agrees_ret].
    destruct tok; [apply agrees_avanzar | apply agrees_ret].
Qed.

Lemma agrees_peek_is (d : nat) (f : Token -> bool) :
  agrees (Stack.peek_is d f) (peek_is f).
Proof.
  apply agrees_bind; [apply agrees_peek|]. intros tok. apply agrees_ret.
Qed.

Lemma agrees_while (conds : Stack.R bool) (cond : M bool)
      (bodys : Stack.R unit) (body : M unit) :
  agrees conds cond -> agrees bodys body ->
  forall n m, n <= m ->
    agrees (Stack.while_ n conds bodys) (while_ m cond body).
Proof.
  intros Hc Hb. induction n as [|n IH]; intros m L;
    rewrite (while_eq m cond body).
  - cbn [Stack.while_]. apply agrees_bind; [exact Hc|]. intros [|].
    + intros p x E. discriminate E.
    + apply agrees_ret.
  - cbn [Stack.while_]. apply agrees_bind; [exact Hc|]. intros [|].
    + destruct m as [|m]; [lia|].
      apply agrees_bind; [exact Hb|]. intros _. apply IH. lia.
    + apply agrees_ret.
Qed.

Ltac agree :=
  repeat first
    [ apply agrees_match | apply agrees_peek | apply agrees_peek_is
    | apply agrees_avanzar | apply agrees_error | apply agrees_ret
    | assumption
    | apply agrees_bind; [|intros ?] ].

Lemma agrees_expr (n : nat) :
  forall d,
    agrees (Stack.parse_expr n d) (parse_expr (n + d))
    /\ agrees (Stack.parse_term n d) (parse_term (n + d))
    /\ agrees (Stack.parse_factor n d) (parse_factor (n + d)).
Proof.
  induction d as [|d (IH1 & IH2 & IH3)].
  - repeat split; intros p x E; discriminate E.
  - rewrite Nat.add_succ_r. repeat split.
    + change (agrees (Stack.expr_body n d (Stack.parse_term n d))
                     (expr_body (n + d) (parse_term (n + d)))).
      unfold Stack.expr_body, expr_body.
      apply agrees_bind; [exact IH2|]. intros _.
      apply agrees_while; [apply agrees_peek_is | agree | lia].
    + change (agrees (Stack.term_body n d (Stack.parse_factor n d))
                     (term_body (n + d) (parse_factor (n + d)))).
      unfold Stack.term_body, term_body.
      apply agrees_bind; [exact IH3|]. intros _.
      apply agrees_while; [apply agrees_peek_is | agree | lia].
    + change (agrees (Stack.factor_body d (Stack.parse_expr n d))
                     (factor_body (parse_expr (n + d)))).
      unfold Stack.factor_body, factor_body.
      apply agrees_bind; [apply agrees_peek|]. intros [tk|]; [|agree].
      destruct (mem (tipo tk) [IDENTIFICADOR; NUMERO]); [agree|].
      destruct (is_tok DELIMITADOR "(" tk); agree.
Qed.

Lemma agrees_parse_expr (n d m : nat) :
  n + d <= m -> agrees (Stack.parse_expr n d) (parse_expr m).
Proof.
  intros L. eapply agrees_mono; [apply agrees_expr|].
  now apply refines_parse_expr.
Qed.

Lemma agrees_parse_stmt (n d m : nat) :
  n + d <= m -> agrees (Stack.parse_stmt n d) (parse_stmt m).
Proof.
  intros L. apply agrees_call. intros d' ->. unfold parse_stmt.
  apply agrees_bind; [apply agrees_peek|]. intros [tk|]; [|agree].
  destruct (is_tok PALABRA_RESERVADA "int" tk).
  { apply agrees_call. intros d'' ->. unfold parse_decl. agree.
    apply agrees_while; [apply agrees_peek_is | agree | lia]. }
  destruct (is_tok PALABRA_RESERVADA "read" tk).
  { apply agrees_call. intros d'' ->. unfold parse_read. agree. }
  destruct (is_tok PALABRA_RESERVADA "printf" tk).
  { apply agrees_call. intros d'' ->. unfold parse_printf. agree. }
  destruct (is_tok PALABRA_RESERVADA "end" tk); [agree|].
  destruct (tipo tk =? IDENTIFICADOR); [|agree].
  apply agrees_call. intros d'' ->. unfold parse_assign. agree.
  apply agrees_parse_expr. lia.
Qed.

Lemma agrees_parse_programa (n d m : nat) :
  n + d <= m -> agrees (Stack.parse_programa n d) (parse_programa m).
Proof.
  intros L. apply agrees_call. intros d' ->. unfold parse_programa. agree.
  apply agrees_while; [apply agrees_peek_is | | lia].
  apply agrees_parse_stmt. lia.
Qed.

(** Whatever the stack, a result is the result of the parser without
    bound on the stack. *)
Lemma analizar_sintactico_agrees (limit n : nat) (codigo : string)
      (tokens : list Token) (r : ParseResult) :
  Stack.analizar_sintactico limit n codigo tokens = Stack.Returns r ->
  analizar_sintactico (n + limit) codigo tokens = Some r.
Proof.
  unfold Stack.analizar_sintactico, analizar_sintactico.
  destruct (Stack.call limit _ (Parser_init tokens)) as [[u p]| |] eqn:E;
    try discriminate.
  intros H. inversion H. subst r. clear H.
  assert (G : agrees
            (Stack.call limit (fun d =>
               Stack.bind (Stack.call d (fun _ => Stack.ret tt))
                 (fun _ => Stack.bind (Stack.parse_programa n d)
                    (fun _ => Stack.lift (sobrantes tokens)))))
            (parse_programa (n + limit) ;; sobrantes tokens)).
  { apply agrees_call. intros d ->.
    intros p0 x H. unfold Stack.bind at 1 in H.
    destruct d as [|d']; [discriminate H|]. cbn [Stack.call Stack.ret] in H.
    revert p0 x H. apply agrees_bind.
    - apply agrees_parse_programa. lia.
    - intros _. apply agrees_lift. }
  now rewrite (G _ _ E).
Qed.

(** ** What returns without the stack returns on it, or is cut short *)

Lemma tracks_ret {A : Type} (room : Prop) (a : A) :
  tracks room (ret a) (Stack.ret a).
Proof. intros p x H. inversion H. split; auto. Qed.

Lemma tracks_lift {A : Type} (room : Prop) (c : M A) :
  tracks room c (Stack.lift c).
Proof. intros p x H. unfold Stack.lift. rewrite H. split; auto. Qed.

Lemma tracks_bind {A B : Type} (room : Prop) (c : M A) (cs : Stack.R A)
      (f : A -> M B) (fs : A -> Stack.R B) :
  tracks room c cs -> (forall a, tracks room (f a) (fs a)) ->
  tracks room (bind c f) (Stack.bind cs fs).
Proof.
  intros Hc Hf p x H. unfold bind in H. unfold Stack.bind.
  destruct (c p) as [[a q]|] eqn:E; [|discriminate].
  destruct (Hc _ _ E) as [[C|C] C'].
  - rewrite C. now apply Hf.
  - split.
    + rewrite C. now right.
    + intros Rm. rewrite (C' Rm). now apply Hf.
Qed.

Lemma tracks_call {A : Type} (room : Prop) (d : nat) (c : M A)
      (body : nat -> Stack.R A) :
  (room -> 1 <= d) ->
  (forall d', d = S d' -> tracks room c (body d')) ->
  tracks room c (Stack.call d body).
Proof.
  intros Hr H. destruct d as [|d'].
  - intros p x _. split; [now right|]. intros Rm. apply Hr in Rm. lia.
  - now apply H.
Qed.

Lemma tracks_weaken {A : Type} (room room' : Prop) (c : M A) (cs : Stack.R A) :
  tracks room c cs -> (room' -> room) -> tracks room' c cs.
Proof.
  intros H W p x E. destruct (H _ _ E) as [H1 H2]. split; auto.
Qed.

Lemma tracks_refines {A : Type} (room : Prop) (c c' : M A) (cs : Stack.R A) :
  tracks room c' cs -> refines c c' -> tracks room c cs.
Proof. intros H R p x E. apply H. now apply R. Qed.

Lemma tracks_peek (room : Prop) (d : nat) (k : Z) :
  (room -> 1 <= d) -> tracks room (peek k) (Stack.peek d k).
Proof.
  intros H. apply tracks_call; [exact H|]. intros d' _. apply tracks_lift.
Qed.

Lemma tracks_avanzar (room : Prop) : tracks room avanzar Stack.avanzar.
Proof. apply tracks_lift. Qed.

Lemma tracks_error (room : Prop) (msg : string) :
  tracks room (error msg) (Stack.error msg).
Proof. apply tracks_lift. Qed.

Lemma tracks_match (room : Prop) (d : nat) (tipo_ lexema_ msg : option string) :
  (room -> 2 <= d) ->
  tracks room (match_ tipo_ lexema_ msg) (Stack.match_ d tipo_ lexema_ msg).
Proof.
  intros H. apply tracks_call; [intros Rm; apply H in Rm; lia|].
  intros d' ->. unfold match_.
  apply tracks_bind; [apply tracks_peek; intros Rm; apply H in Rm; lia|].
  intros tok. destruct (acepta tipo_ lexema_ tok).
  - apply tracks_bind; [apply tracks_avanzar|]. intros _. apply tracks_ret.
  - apply tracks_bind; [apply tracks_error|]. intros _.
    apply tracks_bind; [|intros _; apply tracks_ret].
    destruct tok; [apply tracks_avanzar | apply tracks_ret].
Qed.

Lemma tracks_peek_is (room : Prop) (d : nat) (f : Token -> bool) :
  (room -> 1 <= d) -> tracks room (peek_is f) (Stack.peek_is d f).
Proof.
  intros H. apply tracks_bind; [now apply tracks_peek|]. intros tok.
  apply tracks_ret.
Qed.

Lemma tracks_while (room : Prop) (cond : M bool) (conds : Stack.R bool)
      (body : M unit) (bodys : Stack.R unit) :
  tracks room cond conds -> tracks room body bodys ->
  forall m n, m <= n ->
    tracks room (while_ m cond body) (Stack.while_ n conds bodys).
Proof.
  intros Hc Hb. induction m as [|m IH]; intros n L;
    rewrite (while_eq _ cond body).
  - destruct n; cbn [Stack.while_]; (apply tracks_bind; [exact Hc|]);
      intros [|]; try apply tracks_ret; intros p x E; discriminate E.
  - destruct n as [|n]; [lia|]. cbn [Stack.while_].
    apply tracks_bind; [exact Hc|]. intros [|]; [|apply tracks_ret].
    apply tracks_bind; [exact Hb|]. intros _. apply IH. lia.
Qed.

Ltac track :=
  repeat first
    [ apply tracks_match; lia | apply tracks_peek; lia
    | apply tracks_peek_is; lia
    | apply tracks_avanzar | apply tracks_error | apply tracks_ret
    | assumption
    | apply tracks_bind; [|intros ?] ].

Lemma tracks_expr (n : nat) :
  forall m d, m <= n ->
    tracks (m + 2 <= d) (parse_expr m) (Stack.parse_expr n d)
    /\ tracks (m + 2 <= d) (parse_term m) (Stack.parse_term n d)
    /\ tracks (m + 2 <= d) (parse_factor m) (Stack.parse_factor n d).
Proof.
  induction m as [|m IH]; intros d L.
  - split; [|split]; intros p x E; discriminate E.
  - destruct d as [|d].
    { split; [|split]; intros p x _; (split; [now right | lia]). }
    destruct (IH d (Nat.lt_le_incl _ _ L)) as (IH1 & IH2 & IH3).
    assert (W : forall (c : M unit) (cs : Stack.R unit),
               tracks (m + 2 <= d) c cs -> tracks (S m + 2 <= S d) c cs).
    { intros c cs H. eapply tracks_weaken; [exact H | lia]. }
    apply W in IH1, IH2, IH3. split; [|split].
    + change (tracks (S m + 2 <= S d) (expr_body m (parse_term m))
                     (Stack.expr_body n d (Stack.parse_term n d))).
      unfold Stack.expr_body, expr_body.
      apply tracks_bind; [exact IH2|]. intros _.
      apply tracks_while; [apply tracks_peek_is; lia | track | lia].
    + change (tracks (S m + 2 <= S d) (term_body m (parse_factor m))
                     (Stack.term_body n d (Stack.parse_factor n d))).
      unfold Stack.term_body, term_body.
      apply tracks_bind; [exact IH3|]. intros _.
      apply tracks_while; [apply tracks_peek_is; lia | track | lia].
    + change (tracks (S m + 2 <= S d) (factor_body (parse_expr m))
                     (Stack.factor_body d (Stack.parse_expr n d))).
      unfold Stack.factor_body, factor_body.
      apply tracks_bind; [apply tracks_peek; lia|]. intros [tk|]; [|track].
      destruct (mem (tipo tk) [IDENTIFICADOR; NUMERO]); [track|].
      destruct (is_tok DELIMITADOR "(" tk); track.
Qed.

Lemma tracks_parse_stmt (n m d : nat) :
  m <= n -> tracks (m + 4 <= d) (parse_stmt m) (Stack.parse_stmt n d).
Proof.
  intros L. apply tracks_call; [lia|]. intros d' ->. unfold parse_stmt.
  apply tracks_bind; [apply tracks_peek; lia|]. intros [tk|]; [|track].
  destruct (is_tok PALABRA_RESERVADA "int" tk).
  { apply tracks_call; [lia|]. intros d'' ->. unfold parse_decl. track.
    apply tracks_while; [apply tracks_peek_is; lia | track | lia]. }
  destruct (is_tok PALABRA_RESERVADA "read" tk).
  { apply tracks_call; [lia|]. intros d'' ->. unfold parse_read. track. }
  destruct (is_tok PALABRA_RESERVADA "printf" tk).
  { apply tracks_call; [lia|]. intros d'' ->. unfold parse_printf. track. }
  destruct (is_tok PALABRA_RESERVADA "end" tk); [track|].
  destruct (tipo tk =? IDENTIFICADOR); [|track].
  apply tracks_call; [lia|]. intros d'' ->. unfold parse_assign. track.
  eapply tracks_weaken; [apply (tracks_expr n m d'' L) | lia].
Qed.

Lemma tracks_parse_programa (n m d : nat) :
  m <= n -> tracks (m + 5 <= d) (parse_programa m) (Stack.parse_programa n d).
Proof.
  intros L. apply tracks_call; [lia|]. intros d' ->. unfold parse_programa.
  track. apply tracks_while; [apply tracks_peek_is; lia | | lia].
  eapply tracks_weaken; [apply (tracks_parse_stmt n m d' L) | lia].
Qed.

(** A result of the parser without bound on the stack, got with [m]
    rounds and levels, is on the stack the result too, or the run is cut
    short by RecursionError; it is the result when [m + 6] frames are
    left. *)
Lemma analizar_sintactico_tracks (limit n m : nat) (codigo : string)
      (tokens : list Token) (r : ParseResult) :
  m <= n ->
  analizar_sintactico m codigo tokens = Some r ->
  (Stack.analizar_sintactico limit n codigo tokens = Stack.Returns r
   \/ Stack.analizar_sintactico limit n codigo tokens = Stack.RecursionError)
  /\ (m + 6 <= limit ->
      Stack.analizar_sintactico limit n codigo tokens = Stack.Returns r).
Proof.
  intros L. unfold Stack.analizar_sintactico, analizar_sintactico.
  destruct ((parse_programa m ;; sobrantes tokens) (Parser_init tokens))
    as [[u p]|] eqn:E; [|discriminate].
  intros H. inversion H. subst r. clear H.
  assert (G : tracks (m + 6 <= limit)
            (parse_programa m ;; sobrantes tokens)
            (Stack.call limit (fun d =>
               Stack.bind (Stack.call d (fun _ => Stack.ret tt))
                 (fun _ => Stack.bind (Stack.parse_programa n d)
                    (fun _ => Stack.lift (sobrantes tokens)))))).
  { apply tracks_call; [lia|]. intros d ->.
    destruct d as [|d']; [intros p0 x _; split; [now right | lia]|].
    change (tracks (m + 6 <= S (S d')) (parse_programa m ;; sobrantes tokens)
              (Stack.bind (Stack.parse_programa n (S d'))
                 (fun _ => Stack.lift (sobrantes tokens)))).
    apply tracks_bind.
    - eapply tracks_weaken; [apply (tracks_parse_programa n m (S d') L) | lia].
    - intros _. apply tracks_lift. }
  destruct (G _ _ E) as [[G1|G1] G2].
  - rewrite G1. split; [now left | reflexivity].
  - split; [rewrite G1; now right|]. intros Rm. now rewrite (G2 Rm).
Qed.

(** ** More frames *)

Lemma extends_refl {A : Type} (cs : Stack.R A) : extends cs cs.
Proof. intros p x H. exact H. Qed.

Lemma extends_bind {A B : Type} (cs cs' : Stack.R A) (fs fs' : A -> Stack.R B) :
  extends cs cs' -> (forall a, extends (fs a) (fs' a)) ->
  extends (Stack.bind cs fs) (Stack.bind cs' fs').
Proof.
  intros Hc Hf p x H. unfold Stack.bind in *.
  destruct (cs p) as [[a q]| |] eqn:E; try discriminate.
  rewrite (Hc _ _ E). now apply Hf.
Qed.

Lemma extends_call {A : Type} (d d' : nat) (body body' : nat -> Stack.R A) :
  d <= d' ->
  (forall e e', d = S e -> d' = S e' -> extends (body e) (body' e')) ->
  extends (Stack.call d body) (Stack.call d' body').
Proof.
  intros L H. destruct d as [|e]; [intros p x E; discriminate E|].
  destruct d' as [|e']; [lia|]. now apply H.
Qed.

Lemma extends_peek (d d' : nat) (k : Z) :
  d <= d' -> extends (Stack.peek d k) (Stack.peek d' k).
Proof.
  intros L. apply extends_call; [exact L|]. intros e e' _ _. apply extends_refl.
Qed.

Lemma extends_peek_is (d d' : nat) (f : Token -> bool) :
  d <= d' -> extends (Stack.peek_is d f) (Stack.peek_is d' f).
Proof.
  intros L. apply extends_bind; [now apply extends_peek|].
  intros tok. apply extends_refl.
Qed.

Lemma extends_match (d d' : nat) (tipo_ lexema_ msg : option string) :
  d <= d' ->
  extends (Stack.match_ d tipo_ lexema_ msg) (Stack.match_ d' tipo_ lexema_ msg).
Proof.
  intros L. apply extends_call; [exact L|]. intros e e' -> ->.
  apply extends_bind; [apply extends_peek; lia|]. intros tok. apply extends_refl.
Qed.

Lemma extends_while (conds conds' : Stack.R bool) (bodys bodys' : Stack.R unit) :
  extends conds conds' -> extends bodys bodys' ->
  forall n, extends (Stack.while_ n conds bodys) (Stack.while_ n conds' bodys').
Proof.
  intros Hc Hb. induction n as [|n IH]; cbn [Stack.while_];
    (apply extends_bind; [exact Hc|]); intros [|]; try apply extends_refl.
  apply extends_bind; [exact Hb|]. intros _. exact IH.
Qed.

Ltac extend :=
  repeat first
    [ apply extends_match; lia | apply extends_peek; lia
    | apply extends_peek_is; lia
    | apply extends_refl
    | assumption
    | apply extends_bind; [|intros ?] ].

Lemma extends_expr (n : nat) :
  forall d d', d <= d' ->
    extends (Stack.parse_expr n d) (Stack.parse_expr n d')
    /\ extends (Stack.parse_term n d) (Stack.parse_term n d')
    /\ extends (Stack.parse_factor n d) (Stack.parse_factor n d').
Proof.
  induction d as [|d IH]; intros d' L.
  - split; [|split]; intros p x E; discriminate E.
  - destruct d' as [|d']; [lia|].
    destruct (IH d' (le_S_n _ _ L)) as (IH1 & IH2 & IH3).
    apply le_S_n in L. split; [|split].
    + change (extends (Stack.expr_body n d (Stack.parse_term n d))
                      (Stack.expr_body n d' (Stack.parse_term n d'))).
      unfold Stack.expr_body. apply extends_bind; [exact IH2|]. intros _.
      apply extends_while; [apply extends_peek_is; lia | extend].
    + change (extends (Stack.term_body n d (Stack.parse_factor n d))
                      (Stack.term_body n d' (Stack.parse_factor n d'))).
      unfold Stack.term_body. apply extends_bind; [exact IH3|]. intros _.
      apply extends_while; [apply extends_peek_is; lia | extend].
    + change (extends (Stack.factor_body d (Stack.parse_expr n d))
                      (Stack.factor_body d' (Stack.parse_expr n d'))).
      unfold Stack.factor_body.
      apply extends_bind; [apply extends_peek; lia|]. intros [tk|]; [|extend].
      destruct (mem (tipo tk) [IDENTIFICADOR; NUMERO]); [extend|].
      destruct (is_tok DELIMITADOR "(" tk); extend.
Qed.

Lemma extends_parse_stmt (n d d' : nat) :
  d <= d' -> extends (Stack.parse_stmt n d) (Stack.parse_stmt n d').
Proof.
  intros L. apply extends_call; [exact L|]. intros e e' -> ->.
  apply le_S_n in L.
  apply extends_bind; [apply extends_peek; lia|]. intros [tk|]; [|extend].
  destruct (is_tok PALABRA_RESERVADA "int" tk).
  { apply extends_call; [exact L|]. intros f f' -> ->. apply le_S_n in L.
    extend. apply extends_while; [apply extends_peek_is; lia | extend]. }
  destruct (is_tok PALABRA_RESERVADA "read" tk).
  { apply extends_call; [exact L|]. intros f f' -> ->. apply le_S_n in L. extend. }
  destruct (is_tok PALABRA_RESERVADA "printf" tk).
  { apply extends_call; [exact L|]. intros f f' -> ->. apply le_S_n in L. extend. }
  destruct (is_tok PALABRA_RESERVADA "end" tk); [extend|].
  destruct (tipo tk =? IDENTIFICADOR); [|extend].
  apply extends_call; [exact L|]. intros f f' -> ->. apply le_S_n in L. extend.
  now apply extends_expr.
Qed.

Lemma extends_parse_programa (n d d' : nat) :
  d <= d' -> extends (Stack.parse_programa n d) (Stack.parse_programa n d').
Proof.
  intros L. apply extends_call; [exact L|]. intros e e' -> ->.
  apply le_S_n in L. extend.
  apply extends_while; [apply extends_peek_is; lia|].
  now apply extends_parse_stmt.
Qed.

(** A result got with [limit] frames left is got with more. *)
Lemma analizar_sintactico_extends (limit limit' n : nat) (codigo : string)
      (tokens : list Token) (r : ParseResult) :
  limit <= limit' ->
  Stack.analizar_sintactico limit n codigo tokens = Stack.Returns r ->
  Stack.analizar_sintactico limit' n codigo tokens = Stack.Returns r.
Proof.
  intros L. unfold Stack.analizar_sintactico.
  destruct (Stack.call limit _ (Parser_init tokens)) as [[u p]| |] eqn:E;
    try discriminate.
  intros H. inversion H. subst r. clear H.
  assert (G : extends
            (Stack.call limit (fun d =>
               Stack.bind (Stack.call d (fun _ => Stack.ret tt))
                 (fun _ => Stack.bind (Stack.parse_programa n d)
                    (fun _ => Stack.lift (sobrantes tokens)))))
            (Stack.call limit' (fun d =>
               Stack.bind (Stack.call d (fun _ => Stack.ret tt))
                 (fun _ => Stack.bind (Stack.parse_programa n d)
                    (fun _ => Stack.lift (sobrantes tokens)))))).
  { apply extends_call; [exact L|]. intros e e' -> ->. apply le_S_n in L.
    apply extends_bind.
    - apply extends_call; [exact L|]. intros; apply extends_refl.
    - intros _. apply extends_bind; [now apply extends_parse_programa|].
      intros _. apply extends_refl. }
  now rewrite (G _ _ E).
Qed.

(** ** Results on the stack *)

(** With rounds enough for the tokens, a run on the stack returns or is
    cut short by RecursionError, and it returns when the frames left are
    three a token and nine more. *)
Lemma analizar_sintactico_stack (limit n : nat) (codigo : string)
      (tokens : list Token) :
  3 * List.length tokens + 3 <= n ->
  exists r,
    analizar_sintactico (3 * List.length tokens + 3) codigo tokens = Some r
    /\ (Stack.analizar_sintactico limit n codigo tokens = Stack.Returns r
        \/ Stack.analizar_sintactico limit n codigo tokens = Stack.RecursionError)
    /\ (3 * List.length tokens + 9 <= limit ->
        Stack.analizar_sintactico limit n codigo tokens = Stack.Returns r).
Proof.
  intros L.
  destruct (@analizar_sintactico_total (3 * List.length tokens + 3) codigo tokens
              (Nat.le_refl _)) as (p & _ & _ & E).
  eexists. split; [exact E|].
  destruct (analizar_sintactico_tracks limit n _ codigo tokens _ L E) as [T1 T2].
  split; [exact T1|]. intros Rm. apply T2. lia.
Qed.

(** C5, as stated, fails: the parser raises on some lists of tokens.  The
    text is a program whose assignment has [b] within 340 pairs of
    parentheses; with the 1000 frames of the default limit all left, and
    with any part of them, the run ends in RecursionError and there is no
    result. *)
Lemma C5_counterexample :
  Stack.analizar_sintactico 1000 3000 (deep_src 340) (analizar_lexico (deep_src 340))
  = Stack.RecursionError
  /\ (forall limit r,
        limit <= 1000 ->
        Stack.analizar_sintactico limit 3000 (deep_src 340)
                                  (analizar_lexico (deep_src 340))
        <> Stack.Returns r).
Proof.
  assert (E : Stack.analizar_sintactico 1000 3000 (deep_src 340)
                (analizar_lexico (deep_src 340)) = Stack.RecursionError)
    by (vm_compute; reflexivity).
  split; [exact E|]. intros limit r L H.
  apply (analizar_sintactico_extends limit 1000 _ _ _ _ L) in H.
  rewrite E in H. discriminate H.
Qed.

(** C5 (amended). For every text and every list of tokens, the parser
    returns a result, or it raises RecursionError and returns nothing;
    it returns when the frames left on the stack are three a token and
    nine more.  In a result, [correcto] is true exactly when [errores] is
    empty, and the result is that of the parser without bound on the
    stack. *)
Theorem C5_result (limit n : nat) (codigo : string) (tokens : list Token) :
  3 * List.length tokens + 3 <= n ->
  (Stack.analizar_sintactico limit n codigo tokens = Stack.RecursionError
   \/ exists r,
        Stack.analizar_sintactico limit n codigo tokens = Stack.Returns r
        /\ (correcto r = true <-> errores r = [])
        /\ analizar_sintactico n codigo tokens = Some r)
  /\ (3 * List.length tokens + 9 <= limit ->
      exists r, Stack.analizar_sintactico limit n codigo tokens = Stack.Returns r).
Proof.
  intros L.
  destruct (analizar_sintactico_stack limit n codigo tokens L)
    as (r & E & [T|T] & T').
  - split; [|intros Rm; exists r; now apply T'].
    right. exists r. split; [exact T|].
    split; [exact (proj1 (correcto_errores _ _ _ _ E))|].
    now apply (@analizar_sintactico_mono (3 * List.length tokens + 3) n).
  - split; [now left|]. intros Rm. exists r. now apply T'.
Qed.

Lemma C5_result_witness :
  3 * List.length [tok_siete] + 3 <= 6
  /\ (Stack.analizar_sintactico 12 6 "7" [tok_siete] = Stack.RecursionError
      \/ exists r,
           Stack.analizar_sintactico 12 6 "7" [tok_siete] = Stack.Returns r
           /\ (correcto r = true <-> errores r = [])
           /\ analizar_sintactico 6 "7" [tok_siete] = Some r).
Proof.
  assert (L : 3 * List.length [tok_siete] + 3 <= 6) by (simpl; lia).
  split; [exact L | exact (proj1 (C5_result 12 6 "7" [tok_siete] L))].
Defined.

(** X1. When [analizar_sintactico] returns, whatever the frames left, its
    result is [correcto = true] with no diagnostic exactly when the grammar
    programa := 'programa' IDENT '(' ')' '{' stmt* '}' derives the tokens;
    and it returns when the frames left are three a token and nine more. *)
Theorem X1_accepts_the_grammar (limit n : nat) (codigo : string)
        (tokens : list Token) :
  3 * List.length tokens + 3 <= n ->
  (forall r, Stack.analizar_sintactico limit n codigo tokens = Stack.Returns r ->
             (r = mkParseResult true [] <-> programa_g tokens))
  /\ (3 * List.length tokens + 9 <= limit ->
      (Stack.analizar_sintactico limit n codigo tokens
       = Stack.Returns (mkParseResult true [])
       <-> programa_g tokens)).
Proof.
  intros L.
  assert (A : forall r,
             Stack.analizar_sintactico limit n codigo tokens = Stack.Returns r ->
             (r = mkParseResult true [] <-> programa_g tokens)).
  { intros r H. apply analizar_sintactico_agrees in H.
    destruct (correcto_errores _ _ _ _ H) as [C G]. rewrite <- G. split.
    - intros ->. reflexivity.
    - intros T. destruct r as [b es]. cbn in *. subst b.
      now rewrite (proj1 C eq_refl). }
  split; [exact A|]. intros Rm.
  destruct (analizar_sintactico_stack limit n codigo tokens L) as (r & _ & _ & T).
  specialize (T Rm). split.
  - intros H. now apply (A _ H).
  - intros G. rewrite T. f_equal. now apply (A _ T).
Qed.

Lemma X1_accepts_the_grammar_witness :
  3 * List.length (analizar_lexico valid_src) + 3 <= 60
  /\ (3 * List.length (analizar_lexico valid_src) + 9 <= 100 ->
      (Stack.analizar_sintactico 100 60 valid_src (analizar_lexico valid_src)
       = Stack.Returns (mkParseResult true [])
       <-> programa_g (analizar_lexico valid_src))).
Proof.
  assert (L : 3 * List.length (analizar_lexico valid_src) + 3 <= 60)
    by (vm_compute; lia).
  split; [exact L|].
  exact (proj2 (X1_accepts_the_grammar 100 60 valid_src
                  (analizar_lexico valid_src) L)).
Defined.

(** X2. On a program of the grammar followed by more tokens, the parser
    returns [correcto = false] and one diagnostic, which names the first
    token left over and its line, or it raises RecursionError; it returns
    when the frames left are three a token and nine more. *)
Theorem X2_trailing_tokens (limit n : nat) (codigo : string) (l : list Token)
        (tok : Token) (more : list Token) :
  programa_g l ->
  3 * List.length (l ++ tok :: more) + 3 <= n ->
  (Stack.analizar_sintactico limit n codigo (l ++ tok :: more)
   = Stack.Returns (mkParseResult false [msg_sobrantes tok])
   \/ Stack.analizar_sintactico limit n codigo (l ++ tok :: more)
      = Stack.RecursionError)
  /\ (3 * List.length (l ++ tok :: more) + 9 <= limit ->
      Stack.analizar_sintactico limit n codigo (l ++ tok :: more)
      = Stack.Returns (mkParseResult false [msg_sobrantes tok])).
Proof.
  intros G L.
  destruct (analizar_sintactico_stack limit n codigo _ L) as (r & E & T & T').
  rewrite (analizar_sintactico_complete codigo l (tok :: more) _ G (Nat.le_refl _))
    in E.
  inversion E. subst r. split; assumption.
Qed.

Lemma X2_trailing_tokens_witness :
  (programa_g (analizar_lexico minimal_src)
   /\ 3 * List.length (analizar_lexico minimal_src ++ [tok_siete]) + 3 <= 24)
  /\ (3 * List.length (analizar_lexico minimal_src ++ [tok_siete]) + 9 <= 30 ->
      Stack.analizar_sintactico 30 24 minimal_src
        (analizar_lexico minimal_src ++ [tok_siete])
      = Stack.Returns (mkParseResult false [msg_sobrantes tok_siete])).
Proof.
  assert (G : programa_g (analizar_lexico minimal_src)).
  { apply (analizar_sintactico_sound minimal_src _ 21). vm_compute. reflexivity. }
  assert (L : 3 * List.length (analizar_lexico minimal_src ++ [tok_siete]) + 3 <= 24)
    by (vm_compute; lia).
  split; [split; assumption|].
  exact (proj2 (X2_trailing_tokens 30 24 minimal_src _ tok_siete [] G L)).
Defined.

(** ** The view on the stack *)

Lemma index_agrees (limit n : nat) (request : Request) (response : Response) :
  Stack.index limit n request = Stack.Returns response ->
  index (n + limit) request = Some response.
Proof.
  unfold Stack.index, index.
  destruct (method request =? "POST"); [|intros H; now inversion H].
  destruct (match form_get (form request) "accion" with
            | Some a => a =? "borrar" | None => false end);
    [intros H; now inversion H|].
  destruct (truthy _); [|intros H; now inversion H].
  destruct (match form_get (form request) "accion" with
            | Some a => a =? "sintactico" | None => false end);
    [|intros H; now inversion H].
  destruct (Stack.analizar_sintactico limit n _ _) as [s| |] eqn:E;
    try discriminate.
  apply analizar_sintactico_agrees in E. rewrite E.
  intros H. now inversion H.
Qed.

(** A request for the analysis of a program with 340 pairs of
    parentheses: the view raises, with all the frames of the default
    limit left. *)
Lemma index_deep :
  Stack.index 1000 3000 (request_sintactico (deep_src 340)) = Stack.RecursionError.
Proof. vm_compute. reflexivity. Qed.

(** X11. [index] answers a request, with the response of the view
    without bound on the stack, unless the parser raises RecursionError,
    which the view does not catch: this happens only for a POST that asks
    for the syntactic analysis, and not when the frames left are three a
    character of the text and nine more. *)
Theorem X11_index_answers (limit n : nat) (request : Request) :
  3 * String.length (codigo_de request) + 3 <= n ->
  ((exists response,
       Stack.index limit n request = Stack.Returns response
       /\ index (n + limit) request = Some response)
   \/ (Stack.index limit n request = Stack.RecursionError
       /\ method request = "POST"
       /\ form_get (form request) "accion" = Some "sintactico"
       /\ Stack.analizar_sintactico limit n (codigo_de request)
            (analizar_lexico (codigo_de request)) = Stack.RecursionError
       /\ limit < 3 * String.length (codigo_de request) + 9)).
Proof.
  intros L.
  assert (R : forall response,
             Stack.index limit n request = Stack.Returns response ->
             exists response0,
               Stack.index limit n request = Stack.Returns response0
               /\ index (n + limit) request = Some response0).
  { intros response H. exists response. split; [exact H|].
    now apply index_agrees. }
  destruct (Stack.index limit n request) as [response| |] eqn:E;
    [left; now apply (R response)| |].
  - right. split; [reflexivity|]. revert E. unfold Stack.index.
    fold (codigo_de request).
    destruct (method request =? "POST") eqn:Mt; [|discriminate].
    apply String.eqb_eq in Mt.
    destruct (form_get (form request) "accion") as [a|]; cycle 1.
    { destruct (truthy _); discriminate. }
    destruct (a =? "borrar"); [discriminate|].
    destruct (truthy _); [|discriminate].
    destruct (a =? "sintactico") eqn:Ac; [|discriminate].
    apply String.eqb_eq in Ac. subst a.
    destruct (Stack.analizar_sintactico limit n _ _) as [s| |] eqn:A;
      try discriminate.
    intros _. repeat split; auto.
    pose proof (analizar_lexico_length (codigo_de request)) as B.
    destruct (analizar_sintactico_stack limit n (codigo_de request)
                (analizar_lexico (codigo_de request))) as (r & _ & _ & T); [lia|].
    destruct (Nat.lt_ge_cases limit (3 * String.length (codigo_de request) + 9))
      as [Lt|Ge]; [exact Lt|].
    rewrite T in A by lia. discriminate A.
  - exfalso. revert E. unfold Stack.index. fold (codigo_de request).
    destruct (method request =? "POST"); [|discriminate].
    destruct (match form_get (form request) "accion" with
              | Some a => a =? "borrar" | None => false end); [discriminate|].
    destruct (truthy _); [|discriminate].
    destruct (match form_get (form request) "accion" with
              | Some a => a =? "sintactico" | None => false end); [|discriminate].
    pose proof (analizar_lexico_length (codigo_de request)) as B.
    destruct (analizar_sintactico_stack limit n (codigo_de request)
                (analizar_lexico (codigo_de request))) as (r & _ & [T|T] & _);
      [lia| |]; rewrite T; discriminate.
Qed.

Lemma X11_index_answers_witness :
  3 * String.length (codigo_de request_valid) + 3 <= 200
  /\ ((exists response,
          Stack.index 1000 200 request_valid = Stack.Returns response
          /\ index (200 + 1000) request_valid = Some response)
      \/ (Stack.index 1000 200 request_valid = Stack.RecursionError
          /\ method request_valid = "POST"
          /\ form_get (form request_valid) "accion" = Some "sintactico"
          /\ Stack.analizar_sintactico 1000 200 (codigo_de request_valid)
               (analizar_lexico (codigo_de request_valid)) = Stack.RecursionError
          /\ 1000 < 3 * String.length (codigo_de request_valid) + 9)).
Proof.
  split; [vm_compute; lia | apply X11_index_answers; vm_compute; lia].
Defined.
